(** * Quiz chain solver: a shallow embedding of the orchestration core

    The Python sources embedded here are
      - [app/services/quiz_parser.py]  (class QuizParser),
      - [app/services/llm.py]          (LLMService._parse_answer, analyze_quiz),
      - [app/services/submitter.py]    (AnswerSubmitter.submit_answer),
      - [app/services/orchestrator.py] (class QuizOrchestrator),
      - [app/handlers/pdf.py]          (class PDFHandler).

    The functions of submitter.py, llm.py and orchestrator.py that await a
    call are embedded twice.  The modules [LLMService], [AnswerSubmitter]
    and [QuizOrchestrator] describe the runs in which every awaited call
    returns or raises an instance of [Exception]; there a handler
    [except Exception] takes whatever is raised.  The module [Tasks]
    describes every run: an awaited call may also raise what is no
    [Exception], as when the task is cancelled at the deadline, and the
    handlers let it through.  The two agree on the runs of the first
    ([TaskFacts.solve_single_quiz_agree], [TaskFacts.solve_quiz_chain_agree]).
    The PDF handler is embedded once, in the second way.

    Conventions of the embedding.
      - A Python [str] is a [string]; the text handled is taken over the
        ASCII alphabet, on which [str.lower], [str.strip], [str.isdigit] and
        the regular expression classes are the functions written below
        (bytes above 127 are carried unchanged).
      - A value of type [Any] (JSON shaped) is a [pyval].
      - A Python float is carried as the decimal literal it was read from:
        rounding to binary64 is not performed.
      - An exception, an instance of [Exception], is a value of [exn];
        code that can raise returns [exn + A].  What an awaited call can
        raise besides is a [failure].
      - The message of a JSON decoding error is not the one of CPython,
        which names the position of the error.
      - Calls that leave the process (browser, language model, category
        solvers, HTTP) are answered by a [World], a deterministic function
        of the calls made so far; every call is appended to a trace.  The
        PDF handler and the data handler are each one call of a [World]:
        the calls a handler makes itself, chat completions among them, are
        not in that trace.
      - The markup of a page is a tree, and [Html.print] gives its text;
        the text of a page as it was received is not kept.

    The file has three parts: the embedding of the sources, the vocabulary
    in which the properties are stated, and the properties. *)

From Stdlib Require Import Bool List ZArith Lia Ascii String.
Import ListNotations.

Local Open Scope string_scope.
Local Open Scope bool_scope.

(* ================================================================== *)
(** * Python strings *)
(* ================================================================== *)

Module Py.

Definition code (c : ascii) : nat := nat_of_ascii c.

Definition is_upper (c : ascii) : bool :=
  (65 <=? code c)%nat && (code c <=? 90)%nat.

Definition is_lower (c : ascii) : bool :=
  (97 <=? code c)%nat && (code c <=? 122)%nat.

Definition is_alpha (c : ascii) : bool := is_upper c || is_lower c.

Definition is_digit (c : ascii) : bool :=
  (48 <=? code c)%nat && (code c <=? 57)%nat.

(** [str.isspace] on ASCII: tab, LF, VT, FF, CR, the separators FS GS RS US
    and the space. *)
Definition is_space (c : ascii) : bool :=
  ((9 <=? code c)%nat && (code c <=? 13)%nat)
  || ((28 <=? code c)%nat && (code c <=? 32)%nat).

Definition lower_char (c : ascii) : ascii :=
  if is_upper c then ascii_of_nat (code c + 32) else c.

(** [s.lower()] *)
Fixpoint lower (s : string) : string :=
  match s with
  | EmptyString => EmptyString
  | String c s' => String (lower_char c) (lower s')
  end.

(** [s.startswith(pre)] *)
Fixpoint startswith (s pre : string) {struct pre} : bool :=
  match pre with
  | EmptyString => true
  | String p pre' =>
      match s with
      | EmptyString => false
      | String c s' => Ascii.eqb c p && startswith s' pre'
      end
  end.

(** [sub in s] *)
Fixpoint contains (s sub : string) : bool :=
  startswith s sub
  || match s with
     | EmptyString => false
     | String _ s' => contains s' sub
     end.

(** [s.endswith(suf)] *)
Definition endswith (s suf : string) : bool :=
  (String.length suf <=? String.length s)%nat
  && String.eqb (substring (String.length s - String.length suf)
                           (String.length suf) s) suf.

(** [any(w in s for w in words)] *)
Definition any_in (words : list string) (s : string) : bool :=
  existsb (fun w => contains s w) words.

(** Truth value of a [str]: the empty string is false. *)
Definition truthy (s : string) : bool :=
  match s with EmptyString => false | _ => true end.

(** Truth value of an [Optional[str]]: [None] and the empty string are false. *)
Definition truthy_opt (o : option string) : bool :=
  match o with Some s => truthy s | None => false end.

(** The double quote and the apostrophe, and the line feed. *)
Definition dquote : ascii := "034"%char.
Definition squote : ascii := "039"%char.
Definition LF : ascii := "010"%char.
Definition nl : string := String LF EmptyString.
Definition dq : string := String dquote EmptyString.

Definition chars (s : string) : list ascii := list_ascii_of_string s.
Definition str (l : list ascii) : string := string_of_list_ascii l.

Definition char_in (c : ascii) (set : string) : bool :=
  existsb (Ascii.eqb c) (chars set).

Fixpoint lstrip_with (p : ascii -> bool) (s : string) : string :=
  match s with
  | EmptyString => EmptyString
  | String c s' => if p c then lstrip_with p s' else s
  end.

Fixpoint rstrip_with (p : ascii -> bool) (s : string) : string :=
  match s with
  | EmptyString => EmptyString
  | String c s' =>
      match rstrip_with p s' with
      | EmptyString => if p c then EmptyString else String c EmptyString
      | t => String c t
      end
  end.

(** [s.strip()], [s.lstrip(set)], [s.rstrip(set)] *)
Definition strip (s : string) : string :=
  rstrip_with is_space (lstrip_with is_space s).
Definition lstrip (s set : string) : string :=
  lstrip_with (fun c => char_in c set) s.
Definition rstrip (s set : string) : string :=
  rstrip_with (fun c => char_in c set) s.

(** [s.split(sep)] for a separator of one character. *)
Fixpoint split_on (sep : ascii) (s : string) : list string :=
  match s with
  | EmptyString => [EmptyString]
  | String c s' =>
      if Ascii.eqb c sep then EmptyString :: split_on sep s'
      else match split_on sep s' with
           | [] => [String c EmptyString]
           | w :: ws => String c w :: ws
           end
  end.

(** [sep.join(parts)] *)
Fixpoint join (sep : string) (parts : list string) : string :=
  match parts with
  | [] => EmptyString
  | [w] => w
  | w :: ws => w ++ sep ++ join sep ws
  end.

(** [s.isdigit()]: non-empty and every character a digit. *)
Definition isdigit (s : string) : bool :=
  truthy s && forallb is_digit (chars s).

(** [s.find(c)]: index of the first occurrence of a character. *)
Fixpoint find_char (p : ascii -> bool) (s : string) : option nat :=
  match s with
  | EmptyString => None
  | String c s' =>
      if p c then Some 0%nat
      else option_map S (find_char p s')
  end.

(** [s[i:]] and [s[:i]] *)
Definition drop (i : nat) (s : string) : string :=
  substring i (String.length s - i) s.
Definition take (i : nat) (s : string) : string := substring 0 i s.

(** Decimal digits of a natural number and of an integer: [str(n)]. *)
Definition digit_char (n : nat) : ascii := ascii_of_nat (48 + n).

Fixpoint digits_fuel (fuel : nat) (n : N) (acc : string) : string :=
  match fuel with
  | O => acc
  | S f =>
      let acc' := String (digit_char (N.to_nat (n mod 10))) acc in
      if (n <? 10)%N then acc' else digits_fuel f (n / 10)%N acc'
  end.

Definition str_of_N (n : N) : string :=
  digits_fuel (S (N.to_nat (N.log2 n))) n EmptyString.

Definition str_of_Z (z : Z) : string :=
  match z with
  | Z0 => "0"
  | Zpos p => str_of_N (Npos p)
  | Zneg p => "-" ++ str_of_N (Npos p)
  end.

(** Value of a run of decimal digits. *)
Definition digit_val (c : ascii) : N := N.of_nat (code c - 48).

Definition N_of_digits (s : string) : N :=
  fold_left (fun acc c => (acc * 10 + digit_val c)%N) (chars s) 0%N.

End Py.

(* ================================================================== *)
(** * Regular expressions: the fragment of Python's [re] the sources use *)
(* ================================================================== *)

Module Re.
Import Py.

(** Abstract syntax.  [Star true r] is the greedy [r*], [Star false r] the
    reluctant [r*?]; [Grp n r] is the n-th capturing group; [Ahead r] is
    the lookahead [(?=r)]; [Bol] and [Eol] are [^] and [$]. *)
Inductive regex : Type :=
| Eps
| Chr (p : ascii -> bool)
| Cat (r1 r2 : regex)
| Alt (r1 r2 : regex)
| Star (greedy : bool) (r : regex)
| Grp (n : nat) (r : regex)
| Ahead (r : regex)
| Bol
| Eol.

(** A capture is the pair of offsets of a group in the subject. *)
Definition caps : Type := list (nat * (nat * nat)).

Fixpoint cap_get (cs : caps) (n : nat) : option (nat * nat) :=
  match cs with
  | [] => None
  | (m, se) :: cs' => if Nat.eqb m n then Some se else cap_get cs' n
  end.

(** A matcher takes the offset [pos] of [s] in the subject, what is left
    of the subject, the captures so far and a continuation. *)
Definition matcher (R : Type) : Type :=
  nat -> list ascii -> caps -> (nat -> list ascii -> caps -> option R) -> option R.

(** The iterations of a star whose body is matched by [body].  A greedy
    star tries one more iteration before leaving, a reluctant one leaves
    first.  An iteration that consumes nothing ends the star, so [n], the
    length of what is left when the star is entered, bounds the number of
    iterations. *)
Fixpoint star_loop {R : Type} (body : matcher R) (greedy : bool)
  (k : nat -> list ascii -> caps -> option R)
  (n : nat) (pos : nat) (s : list ascii) (cs : caps) {struct n} : option R :=
  match n with
  | O => k pos s cs
  | S n' =>
      let again (_ : unit) :=
        body pos s cs
             (fun pos1 s1 cs1 =>
                if (List.length s1 <? List.length s)%nat
                then star_loop body greedy k n' pos1 s1 cs1 else None) in
      if greedy then
        match again tt with
        | Some x => Some x
        | None => k pos s cs
        end
      else
        match k pos s cs with
        | Some x => Some x
        | None => again tt
        end
  end.

(** Backtracking matcher in continuation-passing style, with Python's
    priorities: the left alternative first, then the right one. *)
Fixpoint mt {R : Type} (r : regex) {struct r} : matcher R :=
  fun pos s cs k =>
  match r with
  | Eps => k pos s cs
  | Chr p =>
      match s with
      | c :: s' => if p c then k (S pos) s' cs else None
      | [] => None
      end
  | Cat r1 r2 => mt r1 pos s cs (fun pos1 s1 cs1 => mt r2 pos1 s1 cs1 k)
  | Alt r1 r2 =>
      match mt r1 pos s cs k with
      | Some x => Some x
      | None => mt r2 pos s cs k
      end
  | Star greedy r1 => star_loop (mt r1) greedy k (List.length s) pos s cs
  | Grp n r1 =>
      mt r1 pos s cs (fun pos1 s1 cs1 => k pos1 s1 ((n, (pos, pos1)) :: cs1))
  | Ahead r1 =>
      match mt r1 pos s cs (fun _ _ cs1 => Some cs1) with
      | Some cs1 => k pos s cs1
      | None => None
      end
  | Bol => if Nat.eqb pos 0 then k pos s cs else None
  | Eol =>
      match s with
      | [] => k pos s cs
      | [c] => if Ascii.eqb c LF then k pos s cs else None
      | _ => None
      end
  end.

(** A match: start and end offsets of the whole match, and the captures. *)
Record rmatch : Type := { m_start : nat; m_end : nat; m_caps : caps }.

(** The match of [r] that starts exactly at offset [pos], if any. *)
Definition match_at (r : regex) (pos : nat) (s : list ascii) : option rmatch :=
  mt r pos s [] (fun e _ cs => Some {| m_start := pos; m_end := e; m_caps := cs |}).

(** Leftmost match at or after [pos]: [s] is the subject from [pos] on. *)
Fixpoint search_from (r : regex) (pos : nat) (s : list ascii) : option rmatch :=
  match match_at r pos s with
  | Some m => Some m
  | None =>
      match s with
      | [] => None
      | _ :: s' => search_from r (S pos) s'
      end
  end.

(** [re.search(r, subject)] and [re.match(r, subject)] *)
Definition search (r : regex) (subject : string) : option rmatch :=
  search_from r 0 (chars subject).

Definition match_ (r : regex) (subject : string) : option rmatch :=
  match_at r 0 (chars subject).

Definition slice (subject : string) (b e : nat) : string :=
  substring b (e - b) subject.

(** [m.group(0)], [m.group(n)] (a group that did not take part gives
    [None]) and [m.lastindex] reduced to its truth value, which is all the
    sources read: some group took part in the match. *)
Definition group0 (subject : string) (m : rmatch) : string :=
  slice subject (m_start m) (m_end m).

Definition group (subject : string) (m : rmatch) (n : nat) : option string :=
  option_map (fun se => slice subject (fst se) (snd se)) (cap_get (m_caps m) n).

Definition has_lastindex (m : rmatch) : bool :=
  match m_caps m with [] => false | _ => true end.

(** A replacement template is a list of literal pieces and group references. *)
Inductive piece : Type := Lit (s : string) | Ref (n : nat).

Definition expand (subject : string) (m : rmatch) (tpl : list piece) : string :=
  fold_right
    (fun p acc =>
       match p with
       | Lit t => t ++ acc
       | Ref n => match group subject m n with
                  | Some g => g ++ acc
                  | None => acc
                  end
       end) EmptyString tpl.

(** [re.sub(r, tpl, subject)]: the non-overlapping matches from left to
    right are replaced.  After a match the scan resumes at its end; an empty
    match lets one character through. *)
Fixpoint sub_from (fuel : nat) (r : regex) (tpl : list piece) (subject : string)
  (pos : nat) (s : list ascii) : string :=
  match fuel with
  | O => str s
  | S fuel' =>
      match search_from r pos s with
      | None => str s
      | Some m =>
          let before := str (firstn (m_start m - pos) s) in
          let rest := skipn (m_end m - pos) s in
          if Nat.eqb (m_end m) (m_start m) then
            match skipn (m_start m - pos) s with
            | [] => before ++ expand subject m tpl
            | c :: rest' =>
                before ++ expand subject m tpl ++ String c
                  (sub_from fuel' r tpl subject (S (m_end m)) rest')
            end
          else
            before ++ expand subject m tpl
              ++ sub_from fuel' r tpl subject (m_end m) rest
      end
  end.

Definition sub (r : regex) (tpl : list piece) (subject : string) : string :=
  sub_from (S (String.length subject)) r tpl subject 0 (chars subject).

(** [re.findall(r, subject)] for a pattern without groups. *)
Fixpoint findall_from (fuel : nat) (r : regex) (subject : string)
  (pos : nat) (s : list ascii) : list string :=
  match fuel with
  | O => []
  | S fuel' =>
      match search_from r pos s with
      | None => []
      | Some m =>
          if Nat.eqb (m_end m) (m_start m) then
            match skipn (m_start m - pos) s with
            | [] => [group0 subject m]
            | _ :: rest' =>
                group0 subject m
                  :: findall_from fuel' r subject (S (m_end m)) rest'
            end
          else
            group0 subject m
              :: findall_from fuel' r subject (m_end m) (skipn (m_end m - pos) s)
      end
  end.

Definition findall (r : regex) (subject : string) : list string :=
  findall_from (S (String.length subject)) r subject 0 (chars subject).

(** ** Pattern combinators *)

Definition seq (rs : list regex) : regex := fold_right Cat Eps rs.
Definition plus (r : regex) : regex := Cat r (Star true r).
Definition opt (r : regex) : regex := Alt r Eps.
Definition star (r : regex) : regex := Star true r.
Definition lazy_star (r : regex) : regex := Star false r.

(** One literal character; with [ci] (re.IGNORECASE) letters match in
    both cases. *)
Definition ch (ci : bool) (c : ascii) : regex :=
  Chr (fun x => if ci then Ascii.eqb (lower_char x) (lower_char c)
                else Ascii.eqb x c).

Definition lit (ci : bool) (t : string) : regex :=
  seq (map (ch ci) (chars t)).

(** [\s], [\d], [.], a set [[...]] and a negated set [[^...]]. *)
Definition space : regex := Chr is_space.
Definition digit : regex := Chr is_digit.
Definition dot : regex := Chr (fun c => negb (Ascii.eqb c LF)).
Definition one_of (set : string) : regex := Chr (fun c => char_in c set).
Definition none_of (spaces : bool) (set : string) : regex :=
  Chr (fun c => negb ((spaces && is_space c) || char_in c set)).

End Re.

(* ================================================================== *)
(** * Values, exceptions and [json.loads] *)
(* ================================================================== *)

Module Json.
Import Py.

(** An exception: its class and its text, [str(e)]. *)
Record exn : Type := { exn_class : string; exn_msg : string }.

(** What an awaited call raises: an instance of [Exception], or an
    instance of a class of [BaseException] that is no [Exception]
    (asyncio.CancelledError when the task is cancelled at the await,
    KeyboardInterrupt, SystemExit).  A handler [except Exception] takes the
    first and lets the second through. *)
Inductive failure : Type :=
| Exception (e : exn)
| BaseException (e : exn).

(** What code without an await raises is an [Exception]. *)
Definition raising {A : Type} (r : exn + A) : failure + A :=
  match r with
  | inl e => inl (Exception e)
  | inr a => inr a
  end.

(** A float, as the signed decimal [mant * 10^exp10] it was written as, or
    one of the three constants. *)
Inductive pyfloat : Type :=
| FDec (neg : bool) (mant : N) (exp10 : Z)
| FInf (neg : bool)
| FNaN.

(** The values [json.loads] builds, which are also the answers submitted.
    A dict keeps insertion order and has one entry per key. *)
#[warnings="-register-all"]
Inductive pyval : Type :=
| PNone
| PBool (b : bool)
| PInt (z : Z)
| PFloat (f : pyfloat)
| PStr (s : string)
| PList (items : list pyval)
| PDict (entries : list (string * pyval)).

(** [d.get(key)] *)
Fixpoint dict_get (d : list (string * pyval)) (key : string) : option pyval :=
  match d with
  | [] => None
  | (k, v) :: d' => if String.eqb k key then Some v else dict_get d' key
  end.

(** [d[key] = v]: an existing key keeps its place. *)
Fixpoint dict_set (d : list (string * pyval)) (key : string) (v : pyval)
  : list (string * pyval) :=
  match d with
  | [] => [(key, v)]
  | (k, w) :: d' =>
      if String.eqb k key then (k, v) :: d' else (k, w) :: dict_set d' key v
  end.

(** CPython refuses to convert a decimal literal of more than this many
    digits to an [int] (sys.int_max_str_digits) and raises ValueError. *)
Definition int_max_str_digits : nat := 4300.

Definition value_error (msg : string) : exn :=
  {| exn_class := "ValueError"; exn_msg := msg |}.

Definition digits_limit_error : exn :=
  value_error "Exceeds the limit (4300 digits) for integer string conversion".

(** json.JSONDecodeError (a subclass of ValueError).  The message of
    CPython says what was expected and names the line, the column and the
    character of the error; it is not reproduced: this one text stands for
    every such message. *)
Definition decode_error : exn :=
  {| exn_class := "JSONDecodeError"; exn_msg := "Expecting value" |}.

(** Result of a parsing function: a value and what is left of the input, a
    raised exception, or the recursion budget used up. *)
Inductive pres (A : Type) : Type :=
| Parsed (a : A) (rest : list ascii)
| Raised (e : exn)
| Fuel.
Arguments Parsed {A} a rest.
Arguments Raised {A} e.
Arguments Fuel {A}.

Definition is_json_ws (c : ascii) : bool := char_in c (String " " (String "009" (String "010" (String "013" EmptyString)))).

Fixpoint skip_ws (s : list ascii) : list ascii :=
  match s with
  | c :: s' => if is_json_ws c then skip_ws s' else s
  | [] => []
  end.

(** Longest prefix whose characters satisfy [p], and the rest. *)
Fixpoint span (p : ascii -> bool) (s : list ascii) : list ascii * list ascii :=
  match s with
  | c :: s' =>
      if p c then let (a, b) := span p s' in (c :: a, b) else ([], s)
  | [] => ([], [])
  end.

Definition hex_val (c : ascii) : option N :=
  if is_digit c then Some (N.of_nat (code c - 48))
  else if ((97 <=? code c) && (code c <=? 102))%nat
  then Some (N.of_nat (code c - 87))
  else if ((65 <=? code c) && (code c <=? 70))%nat
  then Some (N.of_nat (code c - 55))
  else None.

Definition hex4 (a b c d : ascii) : option N :=
  match hex_val a, hex_val b, hex_val c, hex_val d with
  | Some x, Some y, Some z, Some w => Some (((x * 16 + y) * 16 + z) * 16 + w)%N
  | _, _, _, _ => None
  end.

Definition byte (n : N) : ascii := ascii_of_N n.

(** UTF-8 encoding of a code point: a character outside ASCII is carried
    as its bytes. *)
Definition utf8 (cp : N) : list ascii :=
  if (cp <? 128)%N then [byte cp]
  else if (cp <? 2048)%N then
    [byte (192 + cp / 64); byte (128 + cp mod 64)]
  else if (cp <? 65536)%N then
    [byte (224 + cp / 4096); byte (128 + (cp / 64) mod 64);
     byte (128 + cp mod 64)]
  else
    [byte (240 + cp / 262144); byte (128 + (cp / 4096) mod 64);
     byte (128 + (cp / 64) mod 64); byte (128 + cp mod 64)].

Definition is_high_surrogate (cp : N) : bool :=
  ((55296 <=? cp) && (cp <=? 56319))%N.
Definition is_low_surrogate (cp : N) : bool :=
  ((56320 <=? cp) && (cp <=? 57343))%N.

Definition simple_escape (c : ascii) : option ascii :=
  if Ascii.eqb c dquote then Some dquote
  else if Ascii.eqb c "\" then Some "\"%char
  else if Ascii.eqb c "/" then Some "/"%char
  else if Ascii.eqb c "b" then Some "008"%char
  else if Ascii.eqb c "f" then Some "012"%char
  else if Ascii.eqb c "n" then Some "010"%char
  else if Ascii.eqb c "r" then Some "013"%char
  else if Ascii.eqb c "t" then Some "009"%char
  else None.

(** The body of a string literal, after its opening quote (strict mode: a
    control character ends the parse with an error). *)
Fixpoint parse_string (s : list ascii) : option (list ascii * list ascii) :=
  match s with
  | [] => None
  | c :: s1 =>
      if Ascii.eqb c dquote then Some ([], s1)
      else if Ascii.eqb c "\" then
        match s1 with
        | [] => None
        | e :: s2 =>
            if Ascii.eqb e "u" then
              match s2 with
              | h1 :: h2 :: h3 :: h4 :: s3 =>
                  match hex4 h1 h2 h3 h4 with
                  | None => None
                  | Some cp =>
                      let lone :=
                        match parse_string s3 with
                        | Some (t, r) => Some ((utf8 cp ++ t)%list, r)
                        | None => None
                        end in
                      if is_high_surrogate cp then
                        match s3 with
                        | b :: u :: l1 :: l2 :: l3 :: l4 :: s4 =>
                            if Ascii.eqb b "\" && Ascii.eqb u "u" then
                              match hex4 l1 l2 l3 l4 with
                              | Some lo =>
                                  if is_low_surrogate lo then
                                    match parse_string s4 with
                                    | Some (t, r) =>
                                        Some ((utf8 (65536 + (cp - 55296) * 1024
                                                     + (lo - 56320))%N ++ t)%list, r)
                                    | None => None
                                    end
                                  else lone
                              | None => lone
                              end
                            else lone
                        | _ => lone
                        end
                      else lone
                  end
              | _ => None
              end
            else
              match simple_escape e with
              | Some x =>
                  match parse_string s2 with
                  | Some (t, r) => Some (x :: t, r)
                  | None => None
                  end
              | None => None
              end
        end
      else if (code c <? 32)%nat then None
      else
        match parse_string s1 with
        | Some (t, r) => Some (c :: t, r)
        | None => None
        end
  end.

(** [s] begins with the word [w]: what follows it. *)
Fixpoint eat (w : list ascii) (s : list ascii) : option (list ascii) :=
  match w, s with
  | [], _ => Some s
  | a :: w', c :: s' => if Ascii.eqb a c then eat w' s' else None
  | _ :: _, [] => None
  end.

Definition nat_digits (ds : list ascii) : N := N_of_digits (str ds).

(** A number at the head of [s] (after an optional minus sign, already
    removed when [neg]): the integer part is [0] or starts with a digit from
    1 to 9; a fraction needs a digit after the point and an exponent a digit
    after its sign, otherwise they are left in the input. *)
Definition parse_number (neg : bool) (s : list ascii) : pres pyval :=
  let (ip, r0) :=
    match s with
    | c :: s' =>
        if Ascii.eqb c "0" then ([c], s')
        else if is_digit c then span is_digit s
        else ([], s)
    | [] => ([], [])
    end in
  match ip with
  | [] => Raised decode_error
  | _ =>
      let (frac, r1) :=
        match r0 with
        | p :: d :: r =>
            if Ascii.eqb p "." && is_digit d then span is_digit (d :: r)
            else ([], r0)
        | _ => ([], r0)
        end in
      let '(ex, r2) :=
        match r1 with
        | e :: r =>
            if Ascii.eqb e "e" || Ascii.eqb e "E" then
              let '(sg, r') :=
                match r with
                | c :: r'' =>
                    if Ascii.eqb c "-" then (Some true, r'')
                    else if Ascii.eqb c "+" then (Some false, r'')
                    else (Some false, r)
                | [] => (None, r)
                end in
              match sg, span is_digit r' with
              | Some sgn, (d :: ds, r3) =>
                  (Some (if sgn then (- Z.of_N (nat_digits (d :: ds)))%Z
                         else Z.of_N (nat_digits (d :: ds))), r3)
              | _, _ => (None, r1)
              end
            else (None, r1)
        | [] => (None, r1)
        end in
      match frac, ex with
      | [], None =>
          if (int_max_str_digits <? List.length ip)%nat
          then Raised digits_limit_error
          else Parsed (PInt (if neg then (- Z.of_N (nat_digits ip))%Z
                             else Z.of_N (nat_digits ip))) r2
      | _, _ =>
          Parsed (PFloat (FDec neg (nat_digits (ip ++ frac)%list)
                               (match ex with Some e => e | None => 0%Z end
                                - Z.of_nat (List.length frac))%Z)) r2
      end
  end.

(** A value that is neither a container nor a string. *)
Definition parse_scalar (s : list ascii) : pres pyval :=
  match eat (chars "null") s with
  | Some r => Parsed PNone r
  | None =>
  match eat (chars "true") s with
  | Some r => Parsed (PBool true) r
  | None =>
  match eat (chars "false") s with
  | Some r => Parsed (PBool false) r
  | None =>
  match eat (chars "NaN") s with
  | Some r => Parsed (PFloat FNaN) r
  | None =>
  match eat (chars "Infinity") s with
  | Some r => Parsed (PFloat (FInf false)) r
  | None =>
  match eat (chars "-Infinity") s with
  | Some r => Parsed (PFloat (FInf true)) r
  | None =>
      match s with
      | c :: s' =>
          if Ascii.eqb c "-" then parse_number true s'
          else parse_number false s
      | [] => Raised decode_error
      end
  end end end end end end.

(** The scanner: a value at the head of [s]; the elements of an array after
    its bracket; the members of an object after its brace.  [fuel] bounds
    the number of nested calls. *)
Fixpoint parse_value (fuel : nat) (s : list ascii) : pres pyval :=
  match fuel with
  | O => Fuel
  | S f =>
      match s with
      | [] => Raised decode_error
      | c :: r =>
          if Ascii.eqb c "{" then
            match skip_ws r with
            | c' :: r' =>
                if Ascii.eqb c' "}" then Parsed (PDict []) r'
                else parse_members f (c' :: r') []
            | [] => Raised decode_error
            end
          else if Ascii.eqb c "[" then
            match skip_ws r with
            | c' :: r' =>
                if Ascii.eqb c' "]" then Parsed (PList []) r'
                else parse_elements f (c' :: r') []
            | [] => Raised decode_error
            end
          else if Ascii.eqb c dquote then
            match parse_string r with
            | Some (t, r') => Parsed (PStr (str t)) r'
            | None => Raised decode_error
            end
          else parse_scalar s
      end
  end

with parse_elements (fuel : nat) (s : list ascii) (acc : list pyval)
  : pres pyval :=
  match fuel with
  | O => Fuel
  | S f =>
      match parse_value f s with
      | Parsed v r =>
          match skip_ws r with
          | c :: r' =>
              if Ascii.eqb c "," then parse_elements f (skip_ws r') (acc ++ [v])%list
              else if Ascii.eqb c "]" then Parsed (PList (acc ++ [v])%list) r'
              else Raised decode_error
          | [] => Raised decode_error
          end
      | Raised e => Raised e
      | Fuel => Fuel
      end
  end

with parse_members (fuel : nat) (s : list ascii) (acc : list (string * pyval))
  : pres pyval :=
  match fuel with
  | O => Fuel
  | S f =>
      match s with
      | q :: s0 =>
          if Ascii.eqb q dquote then
            match parse_string s0 with
            | Some (key, r0) =>
                match skip_ws r0 with
                | colon :: r1 =>
                    if Ascii.eqb colon ":" then
                      match parse_value f (skip_ws r1) with
                      | Parsed v r =>
                          match skip_ws r with
                          | c :: r' =>
                              if Ascii.eqb c "," then
                                parse_members f (skip_ws r')
                                              (dict_set acc (str key) v)
                              else if Ascii.eqb c "}" then
                                Parsed (PDict (dict_set acc (str key) v)) r'
                              else Raised decode_error
                          | [] => Raised decode_error
                          end
                      | Raised e => Raised e
                      | Fuel => Fuel
                      end
                    else Raised decode_error
                | [] => Raised decode_error
                end
            | None => Raised decode_error
            end
          else Raised decode_error
      | [] => Raised decode_error
      end
  end.

(** [json.loads(s)]: one value between optional white space. *)
Definition loads_fuel (s : string) : nat := 2 * String.length s + 2.

Definition loads (s : string) : exn + pyval :=
  match parse_value (loads_fuel s) (skip_ws (chars s)) with
  | Parsed v r =>
      match skip_ws r with
      | [] => inr v
      | _ => inl decode_error
      end
  | Raised e => inl e
  | Fuel => inl decode_error
  end.

End Json.

(* ================================================================== *)
(** * Rendered pages: the element tree BeautifulSoup works on *)
(* ================================================================== *)

Module Html.
Import Py.

(** BeautifulSoup's parse is taken as done: markup is given as the tree
    its parser builds.  A [Text] node is a string that [get_text] reads
    (comments, scripts and styles are not); an element has its tag name in
    lower case and its attributes after the parser has resolved duplicates.
    Printing a tag and parsing the result again gives the tag back. *)
#[warnings="-register-all"]
Inductive node : Type :=
| Text (s : string)
| Elem (tag : string) (attrs : list (string * string)) (children : list node).

(** A document or a fragment: its top-level nodes. *)
Definition html : Type := list node.

Fixpoint attr_get (attrs : list (string * string)) (name : string)
  : option string :=
  match attrs with
  | [] => None
  | (k, v) :: attrs' => if String.eqb k name then Some v else attr_get attrs' name
  end.

(** The elements of a tree in document order, the root first. *)
Fixpoint elements (n : node) : list node :=
  match n with
  | Text _ => []
  | Elem _ _ children => n :: flat_map elements children
  end.

Definition all_elements (doc : html) : list node := flat_map elements doc.

Definition node_attr (n : node) (name : string) : option string :=
  match n with
  | Text _ => None
  | Elem _ attrs _ => attr_get attrs name
  end.

Definition node_tag (n : node) : string :=
  match n with
  | Text _ => EmptyString
  | Elem tag _ _ => tag
  end.

(** [soup.find(id=ident)]: the first element carrying that id. *)
Definition find_id (doc : html) (ident : string) : option node :=
  find (fun n => match node_attr n "id" with
                 | Some v => String.eqb v ident
                 | None => false
                 end) (all_elements doc).

(** [[link[href] for link in soup.find_all(a, href=True)]]: the href of
    every anchor that has one, in document order. *)
Definition anchor_hrefs (doc : html) : list string :=
  flat_map (fun n => if String.eqb (node_tag n) "a"
                     then match node_attr n "href" with
                          | Some h => [h]
                          | None => []
                          end
                     else []) (all_elements doc).

(** The strings of a tree in document order. *)
Fixpoint strings (n : node) : list string :=
  match n with
  | Text s => [s]
  | Elem _ _ children => flat_map strings children
  end.

Definition all_strings (doc : html) : list string := flat_map strings doc.

(** [soup.get_text()] *)
Definition get_text (doc : html) : string := String.concat EmptyString (all_strings doc).

(** [soup.get_text(separator=sep, strip=True)]: each string is stripped,
    the empty ones are dropped. *)
Definition get_text_strip (sep : string) (doc : html) : string :=
  join sep (filter truthy (map strip (all_strings doc))).

(** ** Markup text, [str(tag)]

    Used where the sources handle markup as a string (the search for a
    path to scrape, the context handed to a solver).  Entities are written
    for the ampersand and the angle brackets; an element without children
    whose tag is void is closed in place. *)
Fixpoint escape_text (s : string) : string :=
  match s with
  | EmptyString => EmptyString
  | String c s' =>
      (if Ascii.eqb c "&" then "&amp;"
       else if Ascii.eqb c "<" then "&lt;"
       else if Ascii.eqb c ">" then "&gt;"
       else String c EmptyString) ++ escape_text s'
  end.

Definition void_tags : list string :=
  ["area"; "base"; "br"; "col"; "embed"; "hr"; "img"; "input"; "link"; "meta";
   "param"; "source"; "track"; "wbr"].

Definition print_attr (kv : string * string) : string :=
  let (k, v) := kv in
  " " ++ k ++ "=" ++ dq ++ escape_text v ++ dq.

Fixpoint print_node (n : node) : string :=
  match n with
  | Text s => escape_text s
  | Elem tag attrs children =>
      let open := "<" ++ tag ++ String.concat EmptyString (map print_attr attrs) in
      match children with
      | [] =>
          if existsb (String.eqb tag) void_tags then open ++ "/>"
          else open ++ "></" ++ tag ++ ">"
      | _ =>
          open ++ ">" ++ String.concat EmptyString (map print_node children)
               ++ "</" ++ tag ++ ">"
      end
  end.

Definition print (doc : html) : string :=
  String.concat EmptyString (map print_node doc).

End Html.

(* ================================================================== *)
(** * URLs: [urllib.parse] *)
(* ================================================================== *)

Module Url.
Import Py Json.

(** The six components [urlparse] returns. *)
Record parts : Type := {
  scheme : string; netloc : string; path : string;
  params : string; query : string; fragment : string }.

Definition uses_relative : list string :=
  [EmptyString; "ftp"; "http"; "gopher"; "nntp"; "imap"; "wais"; "file";
   "https"; "shttp"; "mms"; "prospero"; "rtsp"; "rtspu"; "sftp"; "svn";
   "svn+ssh"; "ws"; "wss"].

Definition uses_netloc : list string :=
  [EmptyString; "ftp"; "http"; "gopher"; "nntp"; "telnet"; "imap"; "wais";
   "file"; "mms"; "https"; "shttp"; "snews"; "prospero"; "rtsp"; "rtspu";
   "rsync"; "svn"; "svn+ssh"; "sftp"; "nfs"; "git"; "git+ssh"; "ws"; "wss"].

Definition uses_params : list string :=
  [EmptyString; "ftp"; "hdl"; "prospero"; "http"; "imap"; "https"; "shttp";
   "rtsp"; "rtspu"; "sip"; "sips"; "mms"; "sftp"; "tel"].

Definition mem (x : string) (l : list string) : bool := existsb (String.eqb x) l.

Definition is_scheme_char (c : ascii) : bool :=
  is_alpha c || is_digit c || char_in c "+-.".

Definition has_char (c : ascii) (s : string) : bool :=
  existsb (Ascii.eqb c) (chars s).

(** [s.split(c, 1)] when [c] occurs in [s]: the text before the first
    occurrence and the text after it. *)
Definition cut (c : ascii) (s : string) : option (string * string) :=
  match find_char (Ascii.eqb c) s with
  | Some i => Some (take i s, drop (S i) s)
  | None => None
  end.

Definition remove_chars (p : ascii -> bool) (s : string) : string :=
  str (filter (fun c => negb (p c)) (chars s)).

(** [urlsplit(url, scheme)]: leading control characters and spaces are
    stripped, tabs and line ends removed; a scheme is a letter followed by
    scheme characters up to the first colon; a netloc follows two slashes
    and ends at the first slash, question mark or hash.  Raises ValueError
    when only one of the two square brackets occurs in the netloc.  The
    validation of the address between a matched pair of brackets, which
    CPython has since 3.11.4, is not modelled. *)
Definition urlsplit (url default_scheme : string) : exn + parts :=
  let url := lstrip_with (fun c => (code c <=? 32)%nat) url in
  let url := remove_chars (fun c => char_in c (String "009" (String "013" (String "010" EmptyString)))) url in
  let '(sch, url) :=
    match find_char (Ascii.eqb ":") url with
    | Some (S i) =>
        match url with
        | String c0 _ =>
            if is_alpha c0 && forallb is_scheme_char (chars (take (S i) url))
            then (lower (take (S i) url), drop (S (S i)) url)
            else (default_scheme, url)
        | EmptyString => (default_scheme, url)
        end
    | _ => (default_scheme, url)
    end in
  let '(loc, url) :=
    if startswith url "//" then
      let rest := drop 2 url in
      match find_char (fun c => char_in c "/?#") rest with
      | Some d => (take d rest, drop d rest)
      | None => (rest, EmptyString)
      end
    else (EmptyString, url) in
  if (has_char "[" loc && negb (has_char "]" loc))
     || (has_char "]" loc && negb (has_char "[" loc))
  then inl (value_error "Invalid IPv6 URL")
  else
    let '(url, frag) :=
      match cut "#" url with
      | Some (u, f) => (u, f)
      | None => (url, EmptyString)
      end in
    let '(url, qry) :=
      match cut "?" url with
      | Some (u, q) => (u, q)
      | None => (url, EmptyString)
      end in
    inr {| scheme := sch; netloc := loc; path := url;
           params := EmptyString; query := qry; fragment := frag |}.

(** Index of the last occurrence of a character. *)
Fixpoint rfind_char (c : ascii) (s : string) : option nat :=
  match s with
  | EmptyString => None
  | String x s' =>
      match rfind_char c s' with
      | Some i => Some (S i)
      | None => if Ascii.eqb x c then Some 0%nat else None
      end
  end.

(** [_splitparams(url)]: the parameters start at the first semicolon of the
    last path segment. *)
Definition splitparams (url : string) : string * string :=
  let from :=
    match rfind_char "/" url with
    | Some r => r
    | None => 0%nat
    end in
  match find_char (Ascii.eqb ";") (drop from url) with
  | Some i => (take (from + i) url, drop (S (from + i)) url)
  | None => (url, EmptyString)
  end.

(** [urlparse(url, scheme)] *)
Definition urlparse (url default_scheme : string) : exn + parts :=
  match urlsplit url default_scheme with
  | inl e => inl e
  | inr p =>
      if mem (scheme p) uses_params && has_char ";" (path p) then
        let (u, prm) := splitparams (path p) in
        inr {| scheme := scheme p; netloc := netloc p; path := u;
               params := prm; query := query p; fragment := fragment p |}
      else inr p
  end.

(** [urlunparse(parts)] *)
Definition urlunparse (p : parts) : string :=
  let url := if truthy (params p) then path p ++ ";" ++ params p else path p in
  let url :=
    if truthy (netloc p)
       || (truthy (scheme p) && mem (scheme p) uses_netloc
           && negb (startswith url "//"))
    then
      let url := if truthy url && negb (startswith url "/")
                 then "/" ++ url else url in
      "//" ++ netloc p ++ url
    else url in
  let url := if truthy (scheme p) then scheme p ++ ":" ++ url else url in
  let url := if truthy (query p) then url ++ "?" ++ query p else url in
  if truthy (fragment p) then url ++ "#" ++ fragment p else url.

(** [segments[1:-1] = filter(None, segments[1:-1])]: the empty segments
    strictly inside the list are dropped. *)
Definition drop_inner_empty (segments : list string) : list string :=
  match segments with
  | first :: (_ :: _) as rest =>
      first :: (filter truthy (removelast rest) ++ [List.last rest EmptyString])%list
  | _ => segments
  end.

(** The loop over the segments: [..] pops, [.] is skipped. *)
Definition resolve_segments (segments : list string) : list string :=
  fold_left
    (fun resolved seg =>
       if String.eqb seg ".." then removelast resolved
       else if String.eqb seg "." then resolved
       else (resolved ++ [seg])%list)
    segments [].

(** [urljoin(base, url)] *)
Definition urljoin (base url : string) : exn + string :=
  if negb (truthy base) then inr url
  else if negb (truthy url) then inr base
  else
    match urlparse base EmptyString with
    | inl e => inl e
    | inr b =>
    match urlparse url (scheme b) with
    | inl e => inl e
    | inr u =>
        if negb (String.eqb (scheme u) (scheme b))
           || negb (mem (scheme u) uses_relative)
        then inr url
        else
          let with_netloc :=
            if mem (scheme u) uses_netloc then
              if truthy (netloc u) then inl (urlunparse u)
              else inr (netloc b)
            else inr (netloc u) in
          match with_netloc with
          | inl result => inr result
          | inr loc =>
              if negb (truthy (path u)) && negb (truthy (params u)) then
                inr (urlunparse
                       {| scheme := scheme u; netloc := loc; path := path b;
                          params := params b;
                          query := if truthy (query u) then query u else query b;
                          fragment := fragment u |})
              else
                let base_parts := split_on "/" (path b) in
                let base_parts :=
                  if truthy (List.last base_parts EmptyString)
                  then removelast base_parts else base_parts in
                let segments :=
                  if startswith (path u) "/" then split_on "/" (path u)
                  else drop_inner_empty (base_parts ++ split_on "/" (path u))%list in
                let resolved := resolve_segments segments in
                let resolved :=
                  if mem (List.last segments EmptyString) ["."; ".."]
                  then (resolved ++ [EmptyString])%list else resolved in
                let joined := join "/" resolved in
                inr (urlunparse
                       {| scheme := scheme u; netloc := loc;
                          path := if truthy joined then joined else "/";
                          params := params u; query := query u;
                          fragment := fragment u |})
          end
    end
    end.

End Url.

(* ================================================================== *)
(** * app/models.py *)
(* ================================================================== *)

Module Models.
Import Html.

(** class QuizResult *)
Record QuizResult : Type := {
  correct : bool;
  url : option string;
  reason : option string }.

(** class QuizContent.  [raw_html] is carried as the tree of the markup. *)
Record QuizContent : Type := {
  question : string;
  submission_url : string;
  download_url : option string;
  quiz_type : string;
  raw_html : html }.

End Models.

(* ================================================================== *)
(** * app/services/quiz_parser.py *)
(* ================================================================== *)

Module QuizParser.
Import Py Re Json Html Url Models.

(** The character sets of the patterns. *)
Definition quotes : string := dq ++ "'".
Definition url_set : string := "<>" ++ quotes ++ "{}[]".

(** [https?://] *)
Definition http_prefix (ci : bool) : regex :=
  seq [lit ci "http"; opt (ch ci "s"); lit ci "://"].

(** line 64: a line break followed by a slash (the slash is looked at, not
    consumed). *)
Definition re_break_before_slash : regex :=
  Cat (Chr (Ascii.eqb LF)) (Ahead (ch false "/")).

(** line 65: a URL cut by a line break, groups 1 and 2 around the break. *)
Definition re_broken_url : regex :=
  seq [Grp 1 (Cat (http_prefix false) (plus (none_of true EmptyString)));
       Chr (Ascii.eqb LF);
       Grp 2 (plus (none_of true EmptyString))].

(** lines 78-83: the four text patterns, searched with re.IGNORECASE. *)
Definition submission_patterns : list regex :=
  [ seq [http_prefix true; plus (none_of true url_set); lit true "/submit";
         opt (star (none_of true url_set))];
    seq [http_prefix true; plus (none_of true url_set); lit true "/answer";
         opt (star (none_of true url_set))];
    seq [lit true "Post your answer to"; plus space;
         Grp 1 (Cat (http_prefix true) (plus (none_of true url_set)))];
    seq [lit true "POST"; lazy_star dot; lit true "to"; plus space;
         Grp 1 (Cat (http_prefix true) (plus (none_of true url_set)))] ].

(** line 90 and line 101: trailing characters that are not part of a URL. *)
Definition re_trailing : regex :=
  Cat (plus (Chr (fun c => is_space c || char_in c ("{}[]<>" ++ quotes ++ ".,;:")))) Eol.
Definition re_trailing_constructed : regex :=
  Cat (plus (Chr (fun c => is_space c || char_in c ("{}[]<>" ++ quotes)))) Eol.

(** line 95: scheme and host. *)
Definition re_base_url : regex :=
  Grp 1 (Cat (http_prefix false) (plus (none_of true ("<>" ++ quotes ++ "/" ++ nl)))).

(** line 106: any absolute URL. *)
Definition re_any_url : regex :=
  Cat (http_prefix false) (plus (none_of true ("<>" ++ quotes))).

(** First element of a list that a partial function accepts. *)
Fixpoint first_some {A B : Type} (f : A -> option B) (l : list A) : option B :=
  match l with
  | [] => None
  | x :: l' => match f x with
               | Some y => Some y
               | None => first_some f l'
               end
  end.

(** lines 59-112.  [html] is the parsed markup. *)
Definition _extract_submission_url (text : string) (html : html) : string :=
  let normalized_text := sub re_break_before_slash [] text in
  let normalized_text := sub re_broken_url [Ref 1; Ref 2] normalized_text in
  let soup := html in
  match find (fun href => contains (lower href) "submit") (anchor_hrefs soup) with
  | Some href => href
  | None =>
  match first_some
          (fun pattern =>
             match search pattern normalized_text with
             | Some m =>
                 let url :=
                   if has_lastindex m
                   then match group normalized_text m 1 with
                        | Some g => g
                        | None => EmptyString
                        end
                   else group0 normalized_text m in
                 Some (sub re_trailing [] url)
             | None => None
             end) submission_patterns with
  | Some url => url
  | None =>
  let constructed :=
    match search re_base_url text with
    | Some m =>
        let base_url := match group text m 1 with
                        | Some g => g
                        | None => EmptyString
                        end in
        if contains (lower text) "/submit"
        then Some (sub re_trailing_constructed [] (base_url ++ "/submit"))
        else None
    | None => None
    end in
  match constructed with
  | Some url => url
  | None =>
  match find (fun url => contains (lower url) "submit"
                         || contains (lower url) "answer")
             (findall re_any_url normalized_text) with
  | Some url => rstrip url (".,;:" ++ quotes)
  | None => EmptyString
  end end end end.

(** lines 114-123 *)
Definition make_absolute_url (url base_url : string) : exn + string :=
  if startswith url "http" then inr url
  else
    match urlparse base_url EmptyString with
    | inl e => inl e
    | inr parsed =>
        let base := scheme parsed ++ "://" ++ netloc parsed in
        urljoin base url
    end.

(** line 131 *)
Definition file_extensions : list string :=
  [".pdf"; ".csv"; ".json"; ".xlsx"; ".txt"; ".zip"].

(** line 146: the extension is spliced into the pattern as it is, so its
    point stands for any character but a line break. *)
Definition ext_regex (ext : string) : regex :=
  seq (map (fun c => if Ascii.eqb c "." then dot else ch true c) (chars ext)).

Definition re_download (ext : string) : regex :=
  Grp 1 (seq [http_prefix true; plus (none_of true ("<>" ++ quotes));
              ext_regex ext; star (none_of true ("<>" ++ quotes))]).

(** lines 125-151 *)
Definition _extract_download_url (html : html) : option string :=
  let soup := html in
  match find (fun href => existsb (fun ext => contains (lower href) ext)
                                  file_extensions)
             (anchor_hrefs soup) with
  | Some href => Some href
  | None =>
      let text := get_text soup in
      first_some
        (fun ext =>
           match search (re_download ext) text with
           | Some m =>
               match group text m 1 with
               | Some g => Some (rstrip g (".,;:" ++ quotes))
               | None => None
               end
           | None => None
           end) file_extensions
  end.

(** lines 153-176.  The two tests on the download endpoint come first and
    return early; [None] and the empty string skip them. *)
Definition _determine_quiz_type (text : string) (download_url : option string)
  : string :=
  let text_lower := lower text in
  let by_endpoint :=
    match download_url with
    | Some url =>
        if truthy url then
          if contains (lower url) ".pdf" then Some "pdf"
          else if existsb (fun ext => contains (lower url) ext)
                          [".csv"; ".xlsx"; ".json"]
          then Some "data"
          else None
        else None
    | None => None
    end in
  match by_endpoint with
  | Some category => category
  | None =>
      if contains text_lower "api" || contains text_lower "endpoint" then "api"
      else if any_in ["chart"; "plot"; "graph"; "visualiz"] text_lower
      then "visualization"
      else if any_in ["sum"; "average"; "count"; "filter"; "sort"; "aggregate"]
                     text_lower
      then "data"
      else if any_in ["scrape"; "extract"; "website"; "page"] text_lower
      then "scraping"
      else "general"
  end.

(** lines 178-200 *)
Definition keep_line (line : string) : bool :=
  truthy line
  && negb (startswith line "{" || startswith line "}")
  && negb (contains (lower line) "email" && contains (lower line) "secret")
  && negb (contains (lower line) "post your answer").

Definition _extract_question (text : string) : string :=
  let lines := split_on LF text in
  let question_lines := filter keep_line (map strip lines) in
  join nl (firstn 10 question_lines).

(** lines 14-57.  When an element with id [result] exists the text and the
    markup are those of that element alone. *)
Definition parse_quiz_page (html_content : html) (quiz_url : string)
  : QuizContent :=
  let soup := html_content in
  let '(content_text, content_html) :=
    match find_id soup "result" with
    | Some result_div =>
        (get_text_strip nl [result_div], [result_div])
    | None => (get_text_strip nl soup, html_content)
    end in
  let submission_url := _extract_submission_url content_text content_html in
  let download_url := _extract_download_url content_html in
  let quiz_type := _determine_quiz_type content_text download_url in
  let question := _extract_question content_text in
  {| question := question;
     submission_url := submission_url;
     download_url := download_url;
     quiz_type := quiz_type;
     raw_html := content_html |}.

(** line 206: a brace, characters that are not braces, a brace. *)
Definition re_brace_group : regex :=
  seq [ch false "{"; star (none_of false "{}"); ch false "}"].

(** lines 202-217.  The groups are tried from left to right; the handler
    takes every exception, so a group that json.loads refuses is passed
    over. *)
Definition extract_json_payload_format (text : string) : pyval :=
  match first_some (fun group => match loads group with
                                 | inr v => Some v
                                 | inl _ => None
                                 end)
                   (findall re_brace_group text) with
  | Some v => v
  | None => PDict []
  end.

End QuizParser.

(* ================================================================== *)
(** * The world outside the process, and the monad of calls *)
(* ================================================================== *)

Module Effects.
Import Py Json Html.

(** What [client.post] returns: the status and the body. *)
Record Response : Type := { status_code : Z; text : string }.

(** A call that leaves the process.
    - [Render url]: BrowserService.execute_and_get_content(url)
    - [GetElement url]: BrowserService.get_element_content(url)
    - [Chat system image text]: client.chat.completions.create with a system
      message and a user message made of an optional image and a text
    - [PdfSolve question download_url]: PDFHandler.solve
    - [DataSolve question download_url raw_html]: DataHandler.solve
    - [Post url payload]: client.post(url, json=payload)
    - [Close]: AnswerSubmitter.close *)
Inductive call : Type :=
| Render (url : string)
| GetElement (url : string)
| Chat (system : string) (image : option string) (text : string)
| PdfSolve (question download_url : string)
| DataSolve (question : string) (download_url : option string) (raw_html : html)
| Post (url : string) (payload : pyval)
| Close.

Definition trace : Type := list call.

(** The answers of the world, each a function of the calls made before.
    A rendering gives the markup and the screenshot; a chat completion
    gives the content of its first choice, which may be missing.
    What a call raises is an instance of [Exception]: a world does not
    cancel the task.  PDFHandler.solve takes every exception it meets
    and so only returns; the other calls may raise. *)
Record World : Type := {
  w_render : trace -> string -> exn + (html * string);
  w_get_element : trace -> string -> exn + string;
  w_chat : trace -> string -> option string -> string -> exn + option string;
  w_pdf_solve : trace -> string -> string -> pyval;
  w_data_solve : trace -> string -> option string -> html -> exn + pyval;
  w_post : trace -> string -> pyval -> exn + Response }.

(** A computation reads the trace, may extend it, and returns or raises. *)
Definition M (A : Type) : Type := trace -> (exn + A) * trace.

Definition ret {A : Type} (a : A) : M A := fun tr => (inr a, tr).

Definition raise {A : Type} (e : exn) : M A := fun tr => (inl e, tr).

Definition bind {A B : Type} (m : M A) (k : A -> M B) : M B :=
  fun tr =>
    match m tr with
    | (inr a, tr') => k a tr'
    | (inl e, tr') => (inl e, tr')
    end.

(** [try: m except Exception as e: h e].  Every [exn] is an instance of
    [Exception], so the handler takes whatever [m] raises. *)
Definition catch {A : Type} (m : M A) (h : exn -> M A) : M A :=
  fun tr =>
    match m tr with
    | (inr a, tr') => (inr a, tr')
    | (inl e, tr') => h e tr'
    end.

(** A pure step that may raise. *)
Definition lift {A : Type} (r : exn + A) : M A := fun tr => (r, tr).

(** One call: the world answers from the trace so far, the call is recorded. *)
Definition perform {A : Type} (c : call) (answer : trace -> exn + A) : M A :=
  fun tr => (answer tr, (tr ++ [c])%list).

End Effects.

Declare Scope quiz_scope.
Delimit Scope quiz_scope with quiz.
Notation "x <- m ;; k" := (Effects.bind m (fun x => k))
  (at level 61, m at next level, right associativity) : quiz_scope.
Notation "' p <- m ;; k" := (Effects.bind m (fun x => let p := x in k))
  (at level 61, p pattern, m at next level, right associativity) : quiz_scope.

(* ================================================================== *)
(** * app/services/llm.py *)
(* ================================================================== *)

Module LLMService.
Import Py Re Json Html Effects.
Local Open Scope quiz_scope.

(** [except cls]: the handler takes the exceptions of the class and of its
    subclasses (JSONDecodeError is a ValueError). *)
Definition caught_by (cls : string) (e : exn) : bool :=
  String.eqb cls "Exception"
  || String.eqb (exn_class e) cls
  || (String.eqb cls "ValueError" && String.eqb (exn_class e) "JSONDecodeError").

(** [int(s)] for a text made of minus signs followed by digits, which is
    what the test before the call lets through: one sign at most, and no
    more digits than the conversion limit. *)
Definition py_int (s : string) : exn + Z :=
  let '(neg, body) :=
    match s with
    | String c r => if Ascii.eqb c "-" then (true, r) else (false, s)
    | EmptyString => (false, s)
    end in
  if isdigit body then
    if (int_max_str_digits <? String.length body)%nat
    then inl digits_limit_error
    else inr (if neg then (- Z.of_N (N_of_digits body))%Z
              else Z.of_N (N_of_digits body))
  else inl (value_error "invalid literal for int() with base 10").

(** [float(s)] for a text of the shape the pattern before the call lets
    through: an optional minus sign, digits, an optional point, digits. *)
Definition py_float (s : string) : exn + pyfloat :=
  let s := strip s in
  let '(neg, body) :=
    match s with
    | String c r => if Ascii.eqb c "-" then (true, r) else (false, s)
    | EmptyString => (false, s)
    end in
  let '(ip, rest) := span is_digit (chars body) in
  let '(frac, rest') :=
    match rest with
    | p :: r => if Ascii.eqb p "." then span is_digit r else ([], rest)
    | [] => ([], [])
    end in
  match ip, rest' with
  | _ :: _, [] =>
      inr (FDec neg (nat_digits (ip ++ frac)%list) (- Z.of_nat (List.length frac)))
  | _, _ => inl (value_error "could not convert string to float")
  end.

(** line 129: [^-?\d+\.?\d*$] *)
Definition re_decimal : regex :=
  seq [Bol; opt (ch false "-"); plus digit; opt (ch false "."); star digit; Eol].

Definition fence : string := "```".

(** lines 95-141 *)
Definition _parse_answer (answer_text : string) : exn + pyval :=
  let answer_text := strip answer_text in
  let answer_text :=
    if startswith answer_text fence then
      let lines := split_on LF answer_text in
      let lines := filter (fun l => negb (startswith l fence)) lines in
      strip (join nl lines)
    else answer_text in
  (* a JSON object with an answer field: the value of the field *)
  let answer_field : option (exn + pyval) :=
    if startswith answer_text "{" && contains answer_text (dq ++ "answer" ++ dq)
    then
      match loads answer_text with
      | inr (PDict parsed) =>
          match dict_get parsed "answer" with
          | Some v => Some (inr v)
          | None => None
          end
      | inr _ => None
      | inl e => if caught_by "JSONDecodeError" e then None else Some (inl e)
      end
    else None in
  match answer_field with
  | Some r => r
  | None =>
  (* boolean *)
  if String.eqb (lower answer_text) "true" || String.eqb (lower answer_text) "false"
  then inr (PBool (String.eqb (lower answer_text) "true"))
  else
  (* integer *)
  let as_int : option (exn + pyval) :=
    if negb (contains answer_text ".") && isdigit (lstrip answer_text "-") then
      match py_int answer_text with
      | inr z => Some (inr (PInt z))
      | inl e => if caught_by "ValueError" e then None else Some (inl e)
      end
    else None in
  match as_int with
  | Some r => r
  | None =>
  (* float *)
  let as_float : option (exn + pyval) :=
    match match_ re_decimal answer_text with
    | Some _ =>
        match py_float answer_text with
        | inr f => Some (inr (PFloat f))
        | inl e => if caught_by "ValueError" e then None else Some (inl e)
        end
    | None => None
    end in
  match as_float with
  | Some r => r
  | None =>
  (* any JSON *)
  match loads answer_text with
  | inr v => inr v
  | inl e =>
      if caught_by "JSONDecodeError" e then inr (PStr answer_text) else inl e
  end end end end.

Section Calls.
Variable W : World.

Definition attribute_error : exn :=
  {| exn_class := "AttributeError";
     exn_msg := "'NoneType' object has no attribute 'strip'" |}.

(** [response.choices[0].message.content.strip()] *)
Definition completion (system : string) (image : option string) (text : string)
  : M string :=
  content <- perform (Chat system image text)
                     (fun tr => w_chat W tr system image text) ;;
  match content with
  | Some c => ret (strip c)
  | None => raise attribute_error
  end.

(** lines 37-52: the system prompt of analyze_quiz. *)
Definition quiz_system_prompt : string :=
  "You are an expert quiz solver. Analyze the question carefully and provide ONLY the answer value." ++ nl ++ nl
  ++ "CRITICAL RULES:" ++ nl
  ++ "1. Return ONLY the answer value that should go in the " ++ dq ++ "answer" ++ dq ++ " field" ++ nl
  ++ "2. DO NOT return the entire JSON payload structure - just the answer value itself" ++ nl
  ++ "3. For numeric answers: return just the number (e.g., 42 or 3.14)" ++ nl
  ++ "4. For boolean answers: return true or false (lowercase)" ++ nl
  ++ "5. For string answers: return just the string without quotes" ++ nl
  ++ "6. For list/object answers: return valid JSON" ++ nl
  ++ "7. If the question shows an example like " ++ dq ++ "answer" ++ dq ++ ": " ++ dq ++ "something" ++ dq ++ ", return just: something" ++ nl
  ++ "8. Be precise and accurate" ++ nl
  ++ "9. If the question asks for a sum, calculate it exactly" ++ nl
  ++ "10. DO NOT include explanations, just the answer value" ++ nl ++ nl
  ++ "Example: If asked " ++ dq ++ "What is 2+2?" ++ dq ++ " return: 4" ++ nl
  ++ "Example: If the quiz shows " ++ dq ++ "answer" ++ dq ++ ": " ++ dq ++ "anything you want" ++ dq ++ ", return: anything you want".

(** lines 20-93.  The handler of the try block logs and raises again. *)
Definition analyze_quiz (question context : string) (image_base64 : option string)
  : M pyval :=
  let text_content := "Question: " ++ question in
  let text_content :=
    if truthy context
    then text_content ++ nl ++ nl ++ "Context/Data:" ++ nl ++ context
    else text_content in
  catch
    (answer_text <- completion quiz_system_prompt image_base64 text_content ;;
     lift (_parse_answer answer_text))
    (fun e => raise e).

Definition vision_system_prompt : string :=
  "You are an expert at analyzing images and extracting information. Provide precise, accurate answers.".

(** lines 143-176 *)
Definition analyze_with_vision (image_base64 prompt : string) : M string :=
  completion vision_system_prompt (Some image_base64) prompt.

End Calls.

End LLMService.

(* ================================================================== *)
(** * app/services/submitter.py *)
(* ================================================================== *)

Module AnswerSubmitter.
Import Py Json Html Models Effects.
Local Open Scope quiz_scope.

(** ** Building a QuizResult: the validation pydantic does

    [correct] is declared [bool], [url] and [reason] are [Optional[str]].
    In pydantic's default mode a bool field also takes the integers and
    floats 0 and 1 and a few words; a string field takes a string only. *)
Definition validation_error : exn :=
  {| exn_class := "ValidationError";
     exn_msg := "validation error for QuizResult" |}.

Definition float_is_one (f : pyfloat) : bool :=
  match f with
  | FDec false m e => (e <=? 0)%Z && (m =? 10 ^ Z.to_N (- e))%N
  | _ => false
  end.

Definition float_is_zero (f : pyfloat) : bool :=
  match f with
  | FDec _ m _ => (m =? 0)%N
  | _ => false
  end.

Definition validate_bool (v : pyval) : exn + bool :=
  match v with
  | PBool b => inr b
  | PInt z => if (z =? 0)%Z then inr false
              else if (z =? 1)%Z then inr true
              else inl validation_error
  | PFloat f => if float_is_zero f then inr false
                else if float_is_one f then inr true
                else inl validation_error
  | PStr s =>
      if existsb (String.eqb (lower s)) ["0"; "off"; "f"; "false"; "n"; "no"]
      then inr false
      else if existsb (String.eqb (lower s)) ["1"; "on"; "t"; "true"; "y"; "yes"]
      then inr true
      else inl validation_error
  | _ => inl validation_error
  end.

Definition validate_opt_str (v : pyval) : exn + option string :=
  match v with
  | PNone => inr None
  | PStr s => inr (Some s)
  | _ => inl validation_error
  end.

(** [QuizResult(correct=c, url=u, reason=r)] *)
Definition QuizResult_init (c u r : pyval) : exn + QuizResult :=
  match validate_bool c, validate_opt_str u, validate_opt_str r with
  | inr c', inr u', inr r' =>
      inr {| correct := c'; url := u'; reason := r' |}
  | _, _, _ => inl validation_error
  end.

(** [response.json()] *)
Definition response_json (response : Response) : exn + pyval :=
  loads (text response).

(** [data.get(key, default)]: only a dict has the method. *)
Definition data_get (data : pyval) (key : string) (default : pyval)
  : exn + pyval :=
  match data with
  | PDict d => inr (match dict_get d key with
                    | Some v => v
                    | None => default
                    end)
  | _ => inl {| exn_class := "AttributeError";
                exn_msg := "object has no attribute 'get'" |}
  end.

Section Submitter.
Variable W : World.
Variables email secret : string.

(** lines 35-40 *)
Definition payload_of (quiz_url : string) (answer : pyval) : pyval :=
  PDict [("email", PStr email); ("secret", PStr secret);
         ("url", PStr quiz_url); ("answer", answer)].

(** lines 55-67: what is done with the response, inside the try block. *)
Definition read_response (response : Response) : exn + QuizResult :=
  if (status_code response =? 200)%Z then
    match response_json response with
    | inl e => inl e
    | inr data =>
        match data_get data "correct" (PBool false),
              data_get data "url" PNone,
              data_get data "reason" PNone with
        | inr c, inr u, inr r => QuizResult_init c u r
        | inl e, _, _ => inl e
        | _, inl e, _ => inl e
        | _, _, inl e => inl e
        end
    end
  else
    inr {| correct := false;
           url := None;
           reason := Some ("HTTP " ++ str_of_Z (status_code response) ++ ": "
                           ++ text response) |}.

(** lines 18-74 *)
Definition submit_answer (submission_url quiz_url : string) (answer : pyval)
  : M QuizResult :=
  let payload := payload_of quiz_url answer in
  catch
    (response <- perform (Post submission_url payload)
                         (fun tr => w_post W tr submission_url payload) ;;
     lift (read_response response))
    (fun e =>
       ret {| correct := false; url := None; reason := Some (exn_msg e) |}).

(** lines 76-78 *)
Definition close : M unit := perform Close (fun _ => inr tt).

End Submitter.

End AnswerSubmitter.

(* ================================================================== *)
(** * app/services/orchestrator.py *)
(* ================================================================== *)

Module QuizOrchestrator.
Import Py Re Json Html Url Models Effects.
Local Open Scope quiz_scope.

(** lines 181-186: the patterns that name a path to scrape. *)
Definition path_group : regex :=
  Grp 1 (Cat (ch false "/") (plus (none_of true ("<>" ++ QuizParser.quotes)))).

Definition url_patterns : list regex :=
  [ seq [one_of "Ss"; lit false "crape"; plus space; path_group];
    seq [one_of "Vv"; lit false "isit"; plus space; path_group];
    seq [one_of "Gg"; lit false "et"; lazy_star dot; lit false "from";
         plus space; path_group];
    seq [lit false ("href=" ++ dq);
         Grp 1 (Cat (ch false "/") (plus (none_of false dq)));
         lit false dq] ].

(** lines 188-193: the loop over the patterns.  The text searched is the
    question followed by the markup; the result is the first group of the
    first pattern that matches. *)
Definition scrape_url (subject : string) : option string :=
  QuizParser.first_some
    (fun pattern =>
       match search pattern subject with
       | Some m => group subject m 1
       | None => None
       end) url_patterns.

(** line 146 *)
Definition describe_prompt : string :=
  "Describe this quiz page. What exactly is the question asking? What data operation is needed? What format should the answer be in?".

(** lines 220-230 *)
Definition vision_prompt (question : string) : string :=
  "Look at this quiz page screenshot and answer the question." ++ nl ++ nl
  ++ "Question from page:" ++ nl
  ++ question ++ nl ++ nl
  ++ "Instructions:" ++ nl
  ++ "1. Analyze the screenshot carefully" ++ nl
  ++ "2. Follow any instructions in the quiz" ++ nl
  ++ "3. Compute the exact answer requested" ++ nl
  ++ "4. Return ONLY the answer value (number, string, boolean, or JSON)" ++ nl
  ++ "5. Do NOT include explanations".

Section Orchestrator.
Variable W : World.
Variables email secret : string.

(** lines 214-233 *)
Definition _solve_with_vision (quiz_content : QuizContent) (screenshot : string)
  : M pyval :=
  let prompt := vision_prompt (question quiz_content) in
  answer <- LLMService.analyze_with_vision W screenshot prompt ;;
  lift (LLMService._parse_answer answer).

(** lines 235-241 *)
Definition _solve_api_task (quiz_content : QuizContent) (base_url : string)
  : M pyval :=
  LLMService.analyze_quiz W (question quiz_content)
                          (Html.print (raw_html quiz_content)) None.

(** lines 167-212 *)
Definition _solve_scraping_task (quiz_content : QuizContent)
  (base_url screenshot : string) : M pyval :=
  let question := question quiz_content in
  let raw_html := Html.print (raw_html quiz_content) in
  let subject := question ++ raw_html in
  let scrape_url := scrape_url subject in
  match scrape_url with
  | Some scrape_url =>
      if truthy scrape_url then
        absolute_url <- lift (QuizParser.make_absolute_url scrape_url base_url) ;;
        scraped_content <- perform (GetElement absolute_url)
                             (fun tr => w_get_element W tr absolute_url) ;;
        LLMService.analyze_quiz W question
          ("Scraped content from " ++ absolute_url ++ ":" ++ nl ++ scraped_content)
          None
      else _solve_with_vision quiz_content screenshot
  | None => _solve_with_vision quiz_content screenshot
  end.

(** lines 123-165 *)
Definition _solve_by_type (quiz_content : QuizContent)
  (screenshot base_url : string) : M pyval :=
  let not_pdf : M pyval :=
    if String.eqb (quiz_type quiz_content) "data" then
      download_url <-
        match download_url quiz_content with
        | Some d =>
            if truthy d
            then (u <- lift (QuizParser.make_absolute_url d base_url) ;;
                  ret (Some u))
            else ret None
        | None => ret None
        end ;;
      vision_analysis <-
        LLMService.analyze_with_vision W screenshot describe_prompt ;;
      let enhanced_question :=
        question quiz_content ++ nl ++ nl ++ "Page Analysis: "
          ++ vision_analysis in
      perform (DataSolve enhanced_question download_url (raw_html quiz_content))
              (fun tr => w_data_solve W tr enhanced_question download_url
                                      (raw_html quiz_content))
    else if String.eqb (quiz_type quiz_content) "scraping" then
      _solve_scraping_task quiz_content base_url screenshot
    else if String.eqb (quiz_type quiz_content) "api" then
      _solve_api_task quiz_content base_url
    else _solve_with_vision quiz_content screenshot in
  match download_url quiz_content with
  | Some d =>
      if String.eqb (quiz_type quiz_content) "pdf" && truthy d then
        download_url <- lift (QuizParser.make_absolute_url d base_url) ;;
        perform (PdfSolve (question quiz_content) download_url)
                (fun tr => inr (w_pdf_solve W tr (question quiz_content)
                                            download_url))
      else not_pdf
  | None => not_pdf
  end.

(** lines 66-121 *)
Definition solve_single_quiz (url : string) : M QuizResult :=
  (* Step 1 *)
  page_data <- perform (Render url) (fun tr => w_render W tr url) ;;
  let html_content := fst page_data in
  let screenshot := snd page_data in
  (* Step 2 *)
  let quiz_content := QuizParser.parse_quiz_page html_content url in
  if negb (truthy (submission_url quiz_content)) then
    ret {| correct := false; Models.url := None;
           reason := Some "No submission URL found" |}
  else
    submission_url <-
      lift (QuizParser.make_absolute_url (submission_url quiz_content) url) ;;
    (* Step 3 *)
    answer <- _solve_by_type quiz_content screenshot url ;;
    (* Step 4 *)
    result <- AnswerSubmitter.submit_answer W email secret submission_url url answer ;;
    (* Step 5 *)
    if negb (correct result)
       && match Models.url result with None => true | Some _ => false end
    then
      answer <- _solve_with_vision quiz_content screenshot ;;
      result <- AnswerSubmitter.submit_answer W email secret submission_url url answer ;;
      ret result
    else ret result.

(** The state of the loop of solve_quiz_chain when it is left: the counter,
    the recorded results and the trace. *)
Record chain_state : Type := {
  question_count : Z;
  results : list QuizResult;
  calls : trace }.

(** lines 41-61: the while loop.  The exception of a step is taken by
    the handler of the try block, which leaves the loop.  [fuel] bounds
    the number of iterations; [None] is the budget used up. *)
Fixpoint chain_loop (fuel : nat) (max_questions : Z)
  (current_url : option string) (count : Z) (res : list QuizResult)
  (tr : trace) : option chain_state :=
  match current_url with
  | Some cur =>
      if truthy cur && (count <? max_questions)%Z then
        match fuel with
        | O => None
        | S fuel' =>
            let count := (count + 1)%Z in
            match solve_single_quiz cur tr with
            | (inr result, tr') =>
                chain_loop fuel' max_questions (Models.url result) count
                           (res ++ [result])%list tr'
            | (inl e, tr') =>
                Some {| question_count := count; results := res; calls := tr' |}
            end
        end
      else Some {| question_count := count; results := res; calls := tr |}
  | None => Some {| question_count := count; results := res; calls := tr |}
  end.

(** lines 30-64: the loop, then the submitter is closed.  The loop is
    given as many iterations as the maximum allows. *)
Definition solve_quiz_chain (initial_url : string) (max_questions : Z)
  (res : list QuizResult) (tr : trace) : option chain_state :=
  match chain_loop (Z.to_nat max_questions) max_questions (Some initial_url)
                   0 res tr with
  | Some st =>
      Some {| question_count := question_count st;
              results := results st;
              calls := snd (AnswerSubmitter.close (calls st)) |}
  | None => None
  end.

End Orchestrator.

(** The default of max_questions (line 30). *)
Definition default_max_questions : Z := 20.

End QuizOrchestrator.

(* ================================================================== *)
(** * app/handlers/pdf.py *)
(* ================================================================== *)

Module PDFHandler.
Import Py Json.

(** What the libraries hand to the handler.
    - A table of pdfplumber is a list of rows, a row a list of cells, a
      cell a text or [None].
    - A page gives its text, which may be [None], and its tables; each of
      the two calls may raise.
    - A response of the HTTP client: [raise_for_status()] raises or
      returns, [content] is the body.
    - An image of pdf2image is carried as the base64 text of its PNG
      encoding, which may fail. *)
Definition table : Type := list (list (option string)).

Record page : Type := {
  extract_text : exn + option string;
  extract_tables : exn + list table }.

Record response : Type := {
  raise_for_status : option exn;
  content : string }.

(** A call that leaves the handler.
    - [Get url]: self.client.get(url)
    - [AnalyzeQuiz question context]: self.llm.analyze_quiz
    - [Convert pdf_bytes]: convert_from_bytes(pdf_bytes, first_page=1,
      last_page=3)
    - [AnalyzeWithVision image prompt]: self.llm.analyze_with_vision *)
Inductive event : Type :=
| Get (url : string)
| AnalyzeQuiz (question context : string)
| Convert (pdf_bytes : string)
| AnalyzeWithVision (image_base64 prompt : string).

Definition log : Type := list event.

(** The answers to the calls, each a function of the calls made before.
    The three calls that are awaited (the download and the two calls of
    the language model) return, raise an exception, or raise what the task
    is cancelled with.  Opening a PDF is a function of its bytes; importing
    pdf2image succeeds or raises ImportError. *)
Record Outside : Type := {
  client_get : log -> string -> failure + response;
  pdfplumber_open : string -> exn + list page;
  llm_analyze_quiz : log -> string -> string -> failure + pyval;
  import_pdf2image : option exn;
  convert_from_bytes : log -> string -> exn + list (exn + string);
  llm_analyze_with_vision : log -> string -> string -> failure + string }.

(** A computation of the handler reads the log, may extend it, and returns
    or raises. *)
Definition H (A : Type) : Type := log -> (failure + A) * log.

Definition hret {A : Type} (a : A) : H A := fun l => (inr a, l).

Definition hbind {A B : Type} (m : H A) (k : A -> H B) : H B :=
  fun l =>
    match m l with
    | (inr a, l') => k a l'
    | (inl f, l') => (inl f, l')
    end.

(** [try: m except Exception: h].  The handler takes the instances of
    [Exception] only: what is no [Exception] goes through. *)
Definition hcatch {A : Type} (m : H A) (h : exn -> H A) : H A :=
  fun l =>
    match m l with
    | (inr a, l') => (inr a, l')
    | (inl (Exception e), l') => h e l'
    | (inl (BaseException e), l') => (inl (BaseException e), l')
    end.

(** A step without an await, which may raise. *)
Definition hlift {A : Type} (r : exn + A) : H A := fun l => (raising r, l).

Definition hperform {A : Type} (c : event) (answer : log -> failure + A)
  : H A :=
  fun l => (answer l, (l ++ [c])%list).

(** [str(n)] for a page or table number. *)
Definition str_of_nat (n : nat) : string := str_of_N (N.of_nat n).

(** line 89: [str(cell) if cell else ""] *)
Definition clean_cell (cell : option string) : string :=
  match cell with
  | Some s => if truthy s then s else EmptyString
  | None => EmptyString
  end.

(** lines 80-92.  A row without cells gives no line. *)
Definition _format_table (t : table) : string :=
  match t with
  | [] => EmptyString
  | _ =>
      join nl
        (flat_map (fun row =>
                     match row with
                     | [] => []
                     | _ => [join " | " (map clean_cell row)]
                     end) t)
  end.

(** lines 69-73: the parts of the tables of page [i], from table [j] on.
    A table without rows gives no part. *)
Fixpoint table_parts (i j : nat) (tables : list table) : list string :=
  match tables with
  | [] => []
  | t :: ts =>
      match t with
      | [] => table_parts i (S j) ts
      | _ =>
          ("--- Table " ++ str_of_nat (j + 1) ++ " on Page "
             ++ str_of_nat (i + 1) ++ " ---" ++ nl ++ _format_table t)
            :: table_parts i (S j) ts
      end
  end.

(** lines 63-73: the loop over the pages, from page [i] on.  The first call
    that raises ends it; the parts collected before are kept. *)
Fixpoint page_parts (i : nat) (pages : list page) : list string :=
  match pages with
  | [] => []
  | p :: ps =>
      match extract_text p with
      | inl _ => []
      | inr text =>
          let text := match text with
                      | Some t => if truthy t then t else EmptyString
                      | None => EmptyString
                      end in
          let header :=
            "=== Page " ++ str_of_nat (i + 1) ++ " ===" ++ nl ++ text in
          match extract_tables p with
          | inl _ => [header]
          | inr tables =>
              header :: (table_parts i 0 tables ++ page_parts (S i) ps)%list
          end
      end
  end.

Section Handler.
Variable O : Outside.

(** lines 57-78.  Every exception is taken by the handler of the try
    block; nothing is awaited inside it. *)
Definition _extract_text (pdf_bytes : string) : string :=
  join (nl ++ nl)
    (match pdfplumber_open O pdf_bytes with
     | inl _ => []
     | inr pages => page_parts 0 pages
     end).

(** lines 107-118: the loop over the images, from image [i] on.  [Some] is
    the value returned from inside the loop, [None] the loop left at its
    end. *)
Fixpoint vision_loop (question : string) (i : nat)
  (images : list (exn + string)) : H (option pyval) :=
  match images with
  | [] => hret None
  | img :: rest =>
      hbind (hlift img) (fun img_base64 =>
      let prompt :=
        "This is page " ++ str_of_nat (i + 1) ++ " of a PDF. " ++ question in
      hbind (hperform (AnalyzeWithVision img_base64 prompt)
                      (fun l => llm_analyze_with_vision O l img_base64 prompt))
            (fun answer =>
      if truthy answer && truthy (strip answer)
      then hbind (hlift (LLMService._parse_answer answer))
                 (fun v => hret (Some v))
      else vision_loop question (S i) rest))
  end.

(** lines 94-125 *)
Definition _solve_with_vision (question download_url : string) : H pyval :=
  hcatch
    (hbind (hperform (Get download_url)
                     (fun l => client_get O l download_url)) (fun response =>
     let pdf_bytes := content response in
     hbind (hlift (match import_pdf2image O with
                   | Some e => inl e
                   | None => inr tt
                   end)) (fun _ =>
     hbind (hperform (Convert pdf_bytes)
                     (fun l => raising (convert_from_bytes O l pdf_bytes)))
           (fun images =>
     hbind (vision_loop question 0 images) (fun returned =>
     hret (match returned with
           | Some v => v
           | None => PNone
           end))))))
    (fun _ => hret PNone).

(** lines 21-55 *)
Definition solve (question download_url : string) : H pyval :=
  hcatch
    (hbind (hperform (Get download_url)
                     (fun l => client_get O l download_url)) (fun response =>
     hbind (hlift (match raise_for_status response with
                   | Some e => inl e
                   | None => inr tt
                   end)) (fun _ =>
     let pdf_bytes := content response in
     let text_content := _extract_text pdf_bytes in
     let context := "PDF Content:" ++ nl ++ text_content in
     hperform (AnalyzeQuiz question context)
              (fun l => llm_analyze_quiz O l question context))))
    (fun _ => _solve_with_vision question download_url).

End Handler.

End PDFHandler.

(* ================================================================== *)
(** * The same calls when the task can be cancelled

    The modules above describe the runs in which every call that leaves
    the process returns or raises an instance of [Exception]: a [World]
    answers with nothing else.  The chain runs under a deadline
    (main.py, line 102: asyncio.wait_for), and a task that is cancelled is
    resumed at the call it awaits with asyncio.CancelledError, which is a
    [BaseException] and no [Exception].  The modules below embed the same
    functions of submitter.py, llm.py and orchestrator.py with that
    outcome added: an awaited call answers with a [failure], and a handler
    [except Exception] takes the exceptions only. *)
(* ================================================================== *)

Module Awaiting.
Import Py Json Html Effects.

(** The answers to the awaited calls, each a function of the calls made
    before.  Closing the HTTP client is awaited too. *)
Record Awaited : Type := {
  a_render : trace -> string -> failure + (html * string);
  a_get_element : trace -> string -> failure + string;
  a_chat : trace -> string -> option string -> string
           -> failure + option string;
  a_pdf_solve : trace -> string -> string -> failure + pyval;
  a_data_solve : trace -> string -> option string -> html -> failure + pyval;
  a_post : trace -> string -> pyval -> failure + Response;
  a_close : trace -> failure + unit }.

(** A task reads the trace, may extend it, and returns or raises. *)
Definition T (A : Type) : Type := trace -> (failure + A) * trace.

Definition tret {A : Type} (a : A) : T A := fun tr => (inr a, tr).

(** [raise e] for an exception built by the code. *)
Definition traise {A : Type} (e : exn) : T A :=
  fun tr => (inl (Exception e), tr).

Definition tbind {A B : Type} (m : T A) (k : A -> T B) : T B :=
  fun tr =>
    match m tr with
    | (inr a, tr') => k a tr'
    | (inl f, tr') => (inl f, tr')
    end.

(** [try: m except Exception as e: h e].  What is no [Exception] goes
    through. *)
Definition tcatch {A : Type} (m : T A) (h : exn -> T A) : T A :=
  fun tr =>
    match m tr with
    | (inr a, tr') => (inr a, tr')
    | (inl (Exception e), tr') => h e tr'
    | (inl (BaseException e), tr') => (inl (BaseException e), tr')
    end.

(** A step without an await, which may raise. *)
Definition tlift {A : Type} (r : exn + A) : T A := fun tr => (raising r, tr).

(** [await call]: the call is recorded, and the task is resumed with its
    answer. *)
Definition await {A : Type} (c : call) (answer : trace -> failure + A) : T A :=
  fun tr => (answer tr, (tr ++ [c])%list).

(** A world seen as answers to awaited calls: nothing is cancelled, the PDF
    handler returns and the client closes. *)
Definition uncancelled (W : World) : Awaited :=
  {| a_render := fun tr url => raising (w_render W tr url);
     a_get_element := fun tr url => raising (w_get_element W tr url);
     a_chat := fun tr system image text =>
                 raising (w_chat W tr system image text);
     a_pdf_solve := fun tr question download_url =>
                      inr (w_pdf_solve W tr question download_url);
     a_data_solve := fun tr question download_url raw_html =>
                       raising (w_data_solve W tr question download_url
                                             raw_html);
     a_post := fun tr url payload => raising (w_post W tr url payload);
     a_close := fun _ => inr tt |}.

End Awaiting.

Declare Scope task_scope.
Delimit Scope task_scope with task.
Notation "x <- m ;; k" := (Awaiting.tbind m (fun x => k))
  (at level 61, m at next level, right associativity) : task_scope.

Module Tasks.
Import Py Re Json Html Url Models Effects Awaiting.
Local Open Scope task_scope.

Section Program.
Variable E : Awaited.
Variables email secret : string.

(** llm.py: [response.choices[0].message.content.strip()] *)
Definition completion (system : string) (image : option string) (text : string)
  : T string :=
  content <- await (Chat system image text)
                   (fun tr => a_chat E tr system image text) ;;
  match content with
  | Some c => tret (strip c)
  | None => traise LLMService.attribute_error
  end.

(** llm.py, lines 20-93.  The handler of the try block logs and raises
    again. *)
Definition analyze_quiz (question context : string) (image_base64 : option string)
  : T pyval :=
  let text_content := "Question: " ++ question in
  let text_content :=
    if truthy context
    then text_content ++ nl ++ nl ++ "Context/Data:" ++ nl ++ context
    else text_content in
  tcatch
    (answer_text <- completion LLMService.quiz_system_prompt image_base64
                               text_content ;;
     tlift (LLMService._parse_answer answer_text))
    (fun e => traise e).

(** llm.py, lines 143-176 *)
Definition analyze_with_vision (image_base64 prompt : string) : T string :=
  completion LLMService.vision_system_prompt (Some image_base64) prompt.

(** submitter.py, lines 18-74 *)
Definition submit_answer (submission_url quiz_url : string) (answer : pyval)
  : T QuizResult :=
  let payload := AnswerSubmitter.payload_of email secret quiz_url answer in
  tcatch
    (response <- await (Post submission_url payload)
                       (fun tr => a_post E tr submission_url payload) ;;
     tlift (AnswerSubmitter.read_response response))
    (fun e =>
       tret {| correct := false; url := None; reason := Some (exn_msg e) |}).

(** submitter.py, lines 76-78 *)
Definition close : T unit := await Close (fun tr => a_close E tr).

(** orchestrator.py, lines 214-233 *)
Definition _solve_with_vision (quiz_content : QuizContent) (screenshot : string)
  : T pyval :=
  let prompt := QuizOrchestrator.vision_prompt (question quiz_content) in
  answer <- analyze_with_vision screenshot prompt ;;
  tlift (LLMService._parse_answer answer).

(** orchestrator.py, lines 235-241 *)
Definition _solve_api_task (quiz_content : QuizContent) (base_url : string)
  : T pyval :=
  analyze_quiz (question quiz_content) (Html.print (raw_html quiz_content)) None.

(** orchestrator.py, lines 167-212 *)
Definition _solve_scraping_task (quiz_content : QuizContent)
  (base_url screenshot : string) : T pyval :=
  let question := question quiz_content in
  let raw_html := Html.print (raw_html quiz_content) in
  let subject := question ++ raw_html in
  let scrape_url := QuizOrchestrator.scrape_url subject in
  match scrape_url with
  | Some scrape_url =>
      if truthy scrape_url then
        absolute_url <- tlift (QuizParser.make_absolute_url scrape_url base_url) ;;
        scraped_content <- await (GetElement absolute_url)
                             (fun tr => a_get_element E tr absolute_url) ;;
        analyze_quiz question
          ("Scraped content from " ++ absolute_url ++ ":" ++ nl ++ scraped_content)
          None
      else _solve_with_vision quiz_content screenshot
  | None => _solve_with_vision quiz_content screenshot
  end.

(** orchestrator.py, lines 123-165 *)
Definition _solve_by_type (quiz_content : QuizContent)
  (screenshot base_url : string) : T pyval :=
  let not_pdf : T pyval :=
    if String.eqb (quiz_type quiz_content) "data" then
      download_url <-
        match download_url quiz_content with
        | Some d =>
            if truthy d
            then (u <- tlift (QuizParser.make_absolute_url d base_url) ;;
                  tret (Some u))
            else tret None
        | None => tret None
        end ;;
      vision_analysis <-
        analyze_with_vision screenshot QuizOrchestrator.describe_prompt ;;
      let enhanced_question :=
        question quiz_content ++ nl ++ nl ++ "Page Analysis: "
          ++ vision_analysis in
      await (DataSolve enhanced_question download_url (raw_html quiz_content))
            (fun tr => a_data_solve E tr enhanced_question download_url
                                    (raw_html quiz_content))
    else if String.eqb (quiz_type quiz_content) "scraping" then
      _solve_scraping_task quiz_content base_url screenshot
    else if String.eqb (quiz_type quiz_content) "api" then
      _solve_api_task quiz_content base_url
    else _solve_with_vision quiz_content screenshot in
  match download_url quiz_content with
  | Some d =>
      if String.eqb (quiz_type quiz_content) "pdf" && truthy d then
        download_url <- tlift (QuizParser.make_absolute_url d base_url) ;;
        await (PdfSolve (question quiz_content) download_url)
              (fun tr => a_pdf_solve E tr (question quiz_content) download_url)
      else not_pdf
  | None => not_pdf
  end.

(** orchestrator.py, lines 66-121 *)
Definition solve_single_quiz (url : string) : T QuizResult :=
  (* Step 1 *)
  page_data <- await (Render url) (fun tr => a_render E tr url) ;;
  let html_content := fst page_data in
  let screenshot := snd page_data in
  (* Step 2 *)
  let quiz_content := QuizParser.parse_quiz_page html_content url in
  if negb (truthy (submission_url quiz_content)) then
    tret {| correct := false; Models.url := None;
            reason := Some "No submission URL found" |}
  else
    submission_url <-
      tlift (QuizParser.make_absolute_url (submission_url quiz_content) url) ;;
    (* Step 3 *)
    answer <- _solve_by_type quiz_content screenshot url ;;
    (* Step 4 *)
    result <- submit_answer submission_url url answer ;;
    (* Step 5 *)
    if negb (correct result)
       && match Models.url result with None => true | Some _ => false end
    then
      answer <- _solve_with_vision quiz_content screenshot ;;
      result <- submit_answer submission_url url answer ;;
      tret result
    else tret result.

(** orchestrator.py, lines 41-61: the while loop; it gives the counter and
    the recorded results when it is left.  The handler of the try block
    takes the exceptions of a step and leaves the loop; what is no
    [Exception] leaves the loop and the function.  [fuel] bounds the
    number of iterations; [None] is the budget used up. *)
Fixpoint chain_loop (fuel : nat) (max_questions : Z)
  (current_url : option string) (count : Z) (res : list QuizResult)
  : T (option (Z * list QuizResult)) :=
  match current_url with
  | Some cur =>
      if truthy cur && (count <? max_questions)%Z then
        match fuel with
        | O => tret None
        | S fuel' =>
            let count := (count + 1)%Z in
            fun tr =>
              match solve_single_quiz cur tr with
              | (inr result, tr') =>
                  chain_loop fuel' max_questions (Models.url result) count
                             (res ++ [result])%list tr'
              | (inl (Exception e), tr') => (inr (Some (count, res)), tr')
              | (inl (BaseException e), tr') => (inl (BaseException e), tr')
              end
        end
      else tret (Some (count, res))
  | None => tret (Some (count, res))
  end.

(** orchestrator.py, lines 30-64: the loop, then the submitter is closed.
    The loop is given as many iterations as the maximum allows. *)
Definition solve_quiz_chain (initial_url : string) (max_questions : Z)
  (res : list QuizResult) : T (option (Z * list QuizResult)) :=
  ended <- chain_loop (Z.to_nat max_questions) max_questions (Some initial_url)
                     0 res ;;
  _ <- close ;;
  tret ended.

End Program.

End Tasks.

(* ================================================================== *)
(** * The vocabulary of the properties *)
(* ================================================================== *)

(** ** Category classification: the rules as a list *)

Module ClassifySpec.
Import Py Models QuizParser.

(** The extension [ext] occurs in the download endpoint, which is present
    and not empty. *)
Definition endpoint_has (download_url : option string) (ext : string) : bool :=
  match download_url with
  | Some url => truthy url && contains (lower url) ext
  | None => false
  end.

(** The keyword rules in their order: the words of a rule and its category. *)
Definition keyword_rules : list (list string * string) :=
  [ (["api"; "endpoint"], "api");
    (["chart"; "plot"; "graph"; "visualiz"], "visualization");
    (["sum"; "average"; "count"; "filter"; "sort"; "aggregate"], "data");
    (["scrape"; "extract"; "website"; "page"], "scraping") ].

(** First rule with a word in the text; [general] when none has. *)
Fixpoint first_rule (rules : list (list string * string)) (text_lower : string)
  : string :=
  match rules with
  | [] => "general"
  | (words, category) :: rules' =>
      if any_in words text_lower then category
      else first_rule rules' text_lower
  end.

(** The priority order, the endpoint tests being tests of occurrence. *)
Definition classify_by_priority (text : string) (download_url : option string)
  : string :=
  if endpoint_has download_url ".pdf" then "pdf"
  else if endpoint_has download_url ".csv"
          || endpoint_has download_url ".xlsx"
          || endpoint_has download_url ".json" then "data"
  else first_rule keyword_rules (lower text).

(** The priority order as the specification words it: the endpoint tests
    look at the end of the download endpoint. *)
Definition classify_by_suffix (text : string) (download_url : option string)
  : string :=
  match download_url with
  | Some url =>
      if endswith (lower url) ".pdf" then "pdf"
      else if endswith (lower url) ".csv" || endswith (lower url) ".xlsx"
              || endswith (lower url) ".json" then "data"
      else first_rule keyword_rules (lower text)
  | None => first_rule keyword_rules (lower text)
  end.

End ClassifySpec.

(** ** Regular expressions: the words a pattern consumes *)

Module ReSpec.
Import Py Re.

(** Zero or more words of a language, one after the other. *)
Inductive star_lang (L : list ascii -> Prop) : list ascii -> Prop :=
| star_nil : star_lang L []
| star_app (w1 w2 : list ascii) :
    L w1 -> star_lang L w2 -> star_lang L (w1 ++ w2).

(** The words a pattern can consume.  A lookahead and the two anchors
    consume nothing. *)
Fixpoint lang (r : regex) (w : list ascii) : Prop :=
  match r with
  | Eps => w = []
  | Chr p => exists c, w = [c] /\ p c = true
  | Cat r1 r2 => exists w1 w2, w = (w1 ++ w2)%list /\ lang r1 w1 /\ lang r2 w2
  | Alt r1 r2 => lang r1 w \/ lang r2 w
  | Star _ r1 => star_lang (lang r1) w
  | Grp _ r1 => lang r1 w
  | Ahead _ => w = []
  | Bol => w = []
  | Eol => w = []
  end.

(** A matcher is sound for a language when each of its successes is a
    success of its continuation after a word of the language. *)
Definition sound {R : Type} (m : matcher R) (L : list ascii -> Prop) : Prop :=
  forall pos s cs k x,
    m pos s cs k = Some x ->
    exists w s' cs',
      s = (w ++ s')%list /\ L w
      /\ k (pos + List.length w)%nat s' cs' = Some x.

(** A matcher that fails when its continuation always fails, and that
    only looks at the results of its continuation. *)
Definition regular {R : Type} (m : matcher R) : Prop :=
  (forall pos s cs k,
      (forall a b c, k a b c = None) -> m pos s cs k = None)
  /\ (forall pos s cs k1 k2,
        (forall a b c, k1 a b c = k2 a b c) ->
        m pos s cs k1 = m pos s cs k2).

End ReSpec.

(** ** The parser: what it looks for *)

Module ParserSpec.
Import Py Re Html Models QuizParser.

(** The href names a submission endpoint: [submit] occurs in it, in any
    case. *)
Definition has_submit (href : string) : bool := contains (lower href) "submit".

(** The markup the parser works on: the element with id [result] when the
    page has one, the whole page otherwise. *)
Definition content_of (page : html) : html :=
  match find_id page "result" with
  | Some result_div => [result_div]
  | None => page
  end.








End ParserSpec.

(** ** Traces: counting calls *)

Module TraceSpec.
Import Py Json Html Effects.

Definition is_render (c : call) : bool :=
  match c with Render _ => true | _ => false end.

Definition is_post (c : call) : bool :=
  match c with Post _ _ => true | _ => false end.

(** Number of calls of a kind in a trace. *)
Definition count (P : call -> bool) (tr : trace) : nat :=
  List.length (filter P tr).

(** A computation only adds calls that satisfy [P] to the trace. *)
Definition adds {A : Type} (P : call -> bool) (m : M A) : Prop :=
  forall tr, exists added,
    snd (m tr) = (tr ++ added)%list /\ forallb P added = true.

(** A call that is neither a rendering nor a POST. *)
Definition quiet (c : call) : bool := negb (is_render c) && negb (is_post c).

Definition not_render (c : call) : bool := negb (is_render c).

End TraceSpec.

(** ** The submission protocol: verdicts and response bodies *)

Module SubmitterSpec.
Import Py Json Html Models Effects AnswerSubmitter.

(** The result of a failed submission. *)
Definition failed (why : string) : QuizResult :=
  {| correct := false; url := None; reason := Some why |}.

(** The verdict read from what the world answers to the POST. *)
Definition verdict_of (reply : exn + Response) : QuizResult :=
  match reply with
  | inl e => failed (exn_msg e)
  | inr response =>
      match read_response response with
      | inr result => result
      | inl e => failed (exn_msg e)
      end
  end.

(** The fields of a response body, as the specification reads them: each
    is optional, a missing [correct] is false; the value of [correct] is a
    boolean, the values of [url] and [reason] are strings or null. *)
Definition body_correct (d : list (string * pyval)) : option bool :=
  match dict_get d "correct" with
  | None => Some false
  | Some (PBool b) => Some b
  | Some _ => None
  end.

Definition body_string (d : list (string * pyval)) (key : string)
  : option (option string) :=
  match dict_get d key with
  | None => Some None
  | Some PNone => Some None
  | Some (PStr s) => Some (Some s)
  | Some _ => None
  end.

End SubmitterSpec.

(** ** The orchestrator: the retry call and the conditions of the loop *)

Module OrchestratorSpec.
Import Py Json Html Url Models Effects TraceSpec SubmitterSpec.
Import AnswerSubmitter LLMService QuizParser QuizOrchestrator.

(** The visual-analysis call made for a page: the screenshot with the
    fallback prompt built from the question. *)
Definition vision_call (quiz_content : QuizContent) (screenshot : string) : call :=
  Chat vision_system_prompt (Some screenshot)
       (vision_prompt (question quiz_content)).

(** The condition of the while loop. *)
Definition goes_on (max_questions : Z) (current_url : option string)
  (count : Z) : bool :=
  truthy_opt current_url && (count <? max_questions)%Z.



End OrchestratorSpec.

(** ** URLs: bases of the usual shape *)

Module UrlSpec.
Import Py Url.





End UrlSpec.

(** ** Pages, response bodies and worlds used as examples *)

Module Examples.
Import Py Json Html Models Effects.

(** The text of an object with an answer field, [{"answer": 42}]. *)
Definition answer_object : string := "{" ++ dq ++ "answer" ++ dq ++ ": 42}".

(** A page whose anchor to [/submit] is found although its text names
    another endpoint. *)
Definition page_with_anchor : html :=
  [Elem "div" [("id", "result")]
     [Text "Post your answer to https://x/y";
      Elem "a" [("href", "/Submit")] [Text "send"]]].

(** A page whose anchor to [/submit] stands outside the element with id
    [result]. *)
Definition page_anchor_outside : html :=
  [Elem "div" [("id", "result")] [Text "What is 2 + 2?"];
   Elem "a" [("href", "/submit")] [Text "send"]].


(** A world in which only the answer to a POST matters. *)
Definition quiet_world (post : exn + Response) : World :=
  {| w_render := fun _ _ => inr ([], EmptyString);
     w_get_element := fun _ _ => inr EmptyString;
     w_chat := fun _ _ _ _ => inr None;
     w_pdf_solve := fun _ _ _ => PNone;
     w_data_solve := fun _ _ _ _ => inr PNone;
     w_post := fun _ _ _ => post |}.

(** The body [{"correct": true, "url": "https://h/q2"}]. *)
Definition body_accepted : string :=
  "{" ++ dq ++ "correct" ++ dq ++ ": true, "
      ++ dq ++ "url" ++ dq ++ ": " ++ dq ++ "https://h/q2" ++ dq ++ "}".

(** The body [{"url": "https://h/q2"}], without a verdict. *)
Definition body_no_verdict : string :=
  "{" ++ dq ++ "url" ++ dq ++ ": " ++ dq ++ "https://h/q2" ++ dq ++ "}".

Definition connection_refused : exn :=
  {| exn_class := "ConnectError"; exn_msg := "All connection attempts failed" |}.

(** A page that asks a question and links to its submission endpoint. *)
Definition question_page : html :=
  [Elem "p" [] [Text "What is 2 + 2?"];
   Elem "a" [("href", "/submit")] [Text "send"]].

(** A page of the data category. *)
Definition table_page : html :=
  [Elem "p" [] [Text "Sum the values of the table"];
   Elem "a" [("href", "/submit")] [Text "send"]].

Definition body_next : string :=
  "{" ++ dq ++ "correct" ++ dq ++ ": true, "
      ++ dq ++ "url" ++ dq ++ ": " ++ dq ++ "https://h/next" ++ dq ++ "}".

Definition body_wrong : string := "{" ++ dq ++ "correct" ++ dq ++ ": false}".

(** The server accepts every answer and always names a next URL. *)
Definition world_always_next : World :=
  {| w_render := fun _ _ => inr (question_page, "shot");
     w_get_element := fun _ _ => inr EmptyString;
     w_chat := fun _ _ _ _ => inr (Some "4");
     w_pdf_solve := fun _ _ _ => PNone;
     w_data_solve := fun _ _ _ _ => inr PNone;
     w_post := fun _ _ _ => inr {| status_code := 200; text := body_next |} |}.

(** The server refuses every answer and names no next URL. *)
Definition world_always_wrong : World :=
  {| w_render := fun _ _ => inr (question_page, "shot");
     w_get_element := fun _ _ => inr EmptyString;
     w_chat := fun _ _ _ _ => inr (Some "4");
     w_pdf_solve := fun _ _ _ => PNone;
     w_data_solve := fun _ _ _ _ => inr PNone;
     w_post := fun _ _ _ => inr {| status_code := 200; text := body_wrong |} |}.

Definition solver_failure : exn :=
  {| exn_class := "RuntimeError"; exn_msg := "no data" |}.

(** The data solver raises. *)
Definition world_solver_fails : World :=
  {| w_render := fun _ _ => inr (table_page, "shot");
     w_get_element := fun _ _ => inr EmptyString;
     w_chat := fun _ _ _ _ => inr (Some "a table of numbers");
     w_pdf_solve := fun _ _ _ => PNone;
     w_data_solve := fun _ _ _ _ => inl solver_failure;
     w_post := fun _ _ _ => inr {| status_code := 200; text := body_next |} |}.

(** The error a cancelled task is resumed with. *)
Definition cancelled_error : exn :=
  {| exn_class := "CancelledError"; exn_msg := EmptyString |}.

Definition rate_limited : exn :=
  {| exn_class := "RateLimitError"; exn_msg := "Rate limit reached" |}.

(** The server refuses every answer and names no next URL; the language
    model answers until an answer has been submitted and raises after. *)
Definition world_retry_fails : World :=
  {| w_render := fun _ _ => inr (question_page, "shot");
     w_get_element := fun _ _ => inr EmptyString;
     w_chat := fun tr _ _ _ =>
                 if existsb (fun c => match c with Post _ _ => true | _ => false end) tr
                 then inl rate_limited else inr (Some "4");
     w_pdf_solve := fun _ _ _ => PNone;
     w_data_solve := fun _ _ _ _ => inr PNone;
     w_post := fun _ _ _ => inr {| status_code := 200; text := body_wrong |} |}.


End Examples.

(** ** Texts: what stripping and splitting leave *)

Module TextSpec.
Import Py.

(** A text that does not begin with a character of [p]. *)
Definition head_kept (p : ascii -> bool) (s : string) : bool :=
  match s with
  | EmptyString => true
  | String c _ => negb (p c)
  end.

(** A text without the separator. *)
Definition free_of (sep : ascii) (s : string) : bool :=
  forallb (fun c => negb (Ascii.eqb c sep)) (chars s).

End TextSpec.

(** ** The parser: the lines of the question, the categories *)

Module QuestionSpec.
Import Py QuizParser.

(** The lines the question is made of. *)
Definition question_lines (text : string) : list string :=
  firstn 10 (filter keep_line (map strip (split_on LF text))).

(** The six categories. *)
Definition categories : list string :=
  ["pdf"; "data"; "api"; "visualization"; "scraping"; "general"].

End QuestionSpec.

(** ** The normalizer: the text its rules work on *)

Module NormalizerSpec.
Import Py LLMService.

(** The text after the first two steps of the normalizer: stripped, and
    without the lines of a code fence when it begins with one. *)
Definition unfenced (answer_text : string) : string :=
  let answer_text := strip answer_text in
  if startswith answer_text fence then
    let lines := split_on LF answer_text in
    let lines := filter (fun l => negb (startswith l fence)) lines in
    strip (join nl lines)
  else answer_text.

(** The words json.loads reads as values. *)
Definition json_words : list string := ["null"; "NaN"; "Infinity"].

End NormalizerSpec.

(** ** Traces: the closing of the submitter *)

Module ChainSpec.
Import Py Json Html Models Effects.

Definition is_close (c : call) : bool :=
  match c with Close => true | _ => false end.

Definition not_close (c : call) : bool := negb (is_close c).

Definition is_chat (c : call) : bool :=
  match c with Chat _ _ _ => true | _ => false end.

(** A task handed to the PDF handler or to the data handler.  What a
    handler does with it, the chat completions it asks for among it, is
    inside the call. *)
Definition is_handler (c : call) : bool :=
  match c with PdfSolve _ _ | DataSolve _ _ _ => true | _ => false end.

(** A computation adds at most [n] calls of the kind [P] to the trace. *)
Definition bounded {A : Type} (P : call -> bool) (n : nat) (m : M A) : Prop :=
  forall tr, exists added,
    snd (m tr) = (tr ++ added)%list /\ (TraceSpec.count P added <= n)%nat.

(** The result of a step whose page names no submission endpoint. *)
Definition no_submission_url : QuizResult :=
  {| correct := false; url := None; reason := Some "No submission URL found" |}.

End ChainSpec.

(** ** The PDF handler: rows, pages and calls *)

Module PdfSpec.
Import Py Json PDFHandler.

(** A row with at least one cell, and the line it gives. *)
Definition has_cells (row : list (option string)) : bool :=
  match row with [] => false | _ => true end.

Definition row_line (row : list (option string)) : string :=
  join " | " (map clean_cell row).

(** No cell of the table holds a line break. *)
Definition cells_on_one_line (t : table) : bool :=
  forallb (forallb (fun cell => TextSpec.free_of LF (clean_cell cell))) t.


Definition is_get (c : event) : bool :=
  match c with Get _ => true | _ => false end.

Definition is_analyze_quiz (c : event) : bool :=
  match c with AnalyzeQuiz _ _ => true | _ => false end.

Definition is_convert (c : event) : bool :=
  match c with Convert _ => true | _ => false end.

Definition is_vision (c : event) : bool :=
  match c with AnalyzeWithVision _ _ => true | _ => false end.

(** Number of calls of a kind in a log. *)
Definition hcount (P : event -> bool) (l : log) : nat :=
  List.length (filter P l).

(** No awaited call raises what is no [Exception]: the task is not
    cancelled while the handler runs. *)
Definition patient (O : Outside) : Prop :=
  (forall l url e, client_get O l url <> inl (BaseException e))
  /\ (forall l q c e, llm_analyze_quiz O l q c <> inl (BaseException e))
  /\ (forall l i p e, llm_analyze_with_vision O l i p <> inl (BaseException e)).

(** A computation adds at most [n] calls of the kind [P] to the log. *)
Definition hbounded {A : Type} (P : event -> bool) (n : nat) (m : H A) : Prop :=
  forall l, exists added,
    snd (m l) = (l ++ added)%list /\ (hcount P added <= n)%nat.

(** A computation that raises no [Exception]: it returns, or what it
    raises is no [Exception]. *)
Definition no_exception {A : Type} (m : H A) : Prop :=
  forall l f, fst (m l) = inl f -> exists e, f = BaseException e.

(** A computation that raises nothing but exceptions. *)
Definition calm {A : Type} (m : H A) : Prop :=
  forall l e, fst (m l) <> inl (BaseException e).

(** A server that answers every download with a text that is not a PDF,
    and a language model that answers 7. *)
Definition outside_not_a_pdf : Outside :=
  {| client_get := fun _ _ =>
       inr {| raise_for_status := None; content := "not a pdf" |};
     pdfplumber_open := fun _ => inl (value_error "No /Root object");
     llm_analyze_quiz := fun _ _ _ => inr (PInt 7);
     import_pdf2image := None;
     convert_from_bytes := fun _ _ => inr [];
     llm_analyze_with_vision := fun _ _ _ => inr EmptyString |}.

End PdfSpec.

(** ** The parser: patterns that need a URL *)

Module SubmissionSpec.
Import Py Re ReSpec.

(** Every word of the pattern holds [http], in some case of the letters. *)
Definition needs_http (r : regex) : Prop :=
  forall w, lang r w -> contains (lower (str w)) "http" = true.

End SubmissionSpec.

(** ** Regular expressions: what a group captured *)

Module CaptureSpec.
Import Py Re ReSpec.

(** The words the groups numbered [n] of a pattern can capture. *)
Fixpoint group_lang (r : regex) (n : nat) (w : list ascii) : Prop :=
  match r with
  | Cat r1 r2 => group_lang r1 n w \/ group_lang r2 n w
  | Alt r1 r2 => group_lang r1 n w \/ group_lang r2 n w
  | Star _ r1 => group_lang r1 n w
  | Ahead r1 => group_lang r1 n w
  | Grp m r1 => (m = n /\ lang r1 w) \/ group_lang r1 n w
  | _ => False
  end.

(** The captures lie in the subject, and each holds a word of a group of
    the pattern with its number. *)
Definition caps_within (subject : list ascii) (root : regex) (cs : caps)
  : Prop :=
  forall n b e,
    In (n, (b, e)) cs ->
    (b <= e)%nat /\ group_lang root n (firstn (e - b) (skipn b subject)).

(** The groups of [r] are groups of [root]. *)
Definition part_of (r root : regex) : Prop :=
  forall n w, group_lang r n w -> group_lang root n w.

End CaptureSpec.

(** ** The scraping task: the pages it fetches *)

Module ScrapeSpec.
Import Py Html Models Effects.

(** A path named in a text: it begins with a slash, has something after
    it, holds no double quote, and occurs in the text. *)
Definition named_path (text path : string) : bool :=
  startswith path "/" && (1 <? String.length path)%nat
  && forallb (fun c => negb (Ascii.eqb c dquote)) (chars path)
  && contains text path.

End ScrapeSpec.

(** ** Tasks: calls, failures and two servers *)

Module TaskSpec.
Import Py Json Html Models Effects TraceSpec Awaiting Examples.

(** Every call the task adds to the trace is of the kind [P]. *)
Definition tadds {A : Type} (P : call -> bool) (m : T A) : Prop :=
  forall tr, exists added,
    snd (m tr) = (tr ++ added)%list /\ forallb P added = true.

(** The task raises no exception: it returns, or what it raises is no
    [Exception]. *)
Definition exception_free {A : Type} (m : T A) : Prop :=
  forall tr f, fst (m tr) = inl f -> exists e, f = BaseException e.

(** The task raises nothing but exceptions. *)
Definition tcalm {A : Type} (m : T A) : Prop :=
  forall tr e, fst (m tr) <> inl (BaseException e).

(** No awaited call raises what is no [Exception]: nothing is cancelled. *)
Definition unhurried (E : Awaited) : Prop :=
  (forall tr u e, a_render E tr u <> inl (BaseException e))
  /\ (forall tr u e, a_get_element E tr u <> inl (BaseException e))
  /\ (forall tr s i t e, a_chat E tr s i t <> inl (BaseException e))
  /\ (forall tr q d e, a_pdf_solve E tr q d <> inl (BaseException e))
  /\ (forall tr q d h e, a_data_solve E tr q d h <> inl (BaseException e))
  /\ (forall tr u p e, a_post E tr u p <> inl (BaseException e))
  /\ (forall tr e, a_close E tr <> inl (BaseException e)).

(** The task model and the model without cancellation agree on a
    computation. *)
Definition agree {A : Type} (m : M A) (t : T A) : Prop :=
  forall tr, t tr = (raising (fst (m tr)), snd (m tr)).

(** The deadline passes while an answer is being submitted: the task is
    cancelled at every POST.  The rest is the server that refuses every
    answer. *)
Definition deadline_at_post : Awaited :=
  {| a_render := fun _ _ => inr (question_page, "shot");
     a_get_element := fun _ _ => inr EmptyString;
     a_chat := fun _ _ _ _ => inr (Some "4");
     a_pdf_solve := fun _ _ _ => inr PNone;
     a_data_solve := fun _ _ _ _ => inr PNone;
     a_post := fun _ _ _ => inl (BaseException cancelled_error);
     a_close := fun _ => inr tt |}.

(** The deadline passes while the page is rendered. *)
Definition deadline_at_render : Awaited :=
  {| a_render := fun _ _ => inl (BaseException cancelled_error);
     a_get_element := fun _ _ => inr EmptyString;
     a_chat := fun _ _ _ _ => inr (Some "4");
     a_pdf_solve := fun _ _ _ => inr PNone;
     a_data_solve := fun _ _ _ _ => inr PNone;
     a_post := fun _ _ _ => inr {| status_code := 200; text := body_wrong |};
     a_close := fun _ => inr tt |}.

End TaskSpec.

(* ================================================================== *)
(** * Properties *)
(* ================================================================== *)

(** ** Strings *)

Module PyFacts.
Import Py.

Lemma startswith_refl (s : string) : startswith s s = true.
Proof.
  induction s as [|c s IH]; simpl; [reflexivity|].
  now rewrite Ascii.eqb_refl, IH.
Qed.

Lemma startswith_app (s t : string) : startswith (s ++ t) s = true.
Proof.
  induction s as [|c s IH]; simpl; [reflexivity|].
  now rewrite Ascii.eqb_refl, IH.
Qed.

Lemma contains_prefix (s sub : string) :
  startswith s sub = true -> contains s sub = true.
Proof.
  intros H. destruct s; simpl in *; rewrite H; reflexivity.
Qed.

Lemma contains_cons (c : ascii) (s sub : string) :
  contains s sub = true -> contains (String c s) sub = true.
Proof.
  intros H. simpl. rewrite H. apply orb_true_r.
Qed.

Lemma contains_app_l (pre s sub : string) :
  contains s sub = true -> contains (pre ++ s) sub = true.
Proof.
  intros H. induction pre as [|c pre IH]; simpl; [exact H|].
  change (contains (pre ++ s) sub) with (contains (pre ++ s)%string sub).
  rewrite IH. apply orb_true_r.
Qed.

Lemma startswith_app_r (s t sub : string) :
  startswith s sub = true -> startswith (s ++ t) sub = true.
Proof.
  revert s. induction sub as [|c sub IH]; intros s H; [reflexivity|].
  destruct s as [|a s]; simpl in *; [discriminate|].
  apply andb_true_iff in H as [-> H]. simpl. now apply IH.
Qed.

Lemma contains_app_r (s t sub : string) :
  contains s sub = true -> contains (s ++ t) sub = true.
Proof.
  induction s as [|a s IH]; intros H.
  - simpl in H. rewrite orb_false_r in H.
    destruct sub; [|discriminate]. destruct t; reflexivity.
  - simpl in H. apply orb_true_iff in H as [H|H].
    + apply contains_prefix. now apply (startswith_app_r (String a s)).
    + apply (contains_cons a (s ++ t)). now apply IH.
Qed.

Lemma contains_middle (pre sub post : string) :
  contains (pre ++ sub ++ post) sub = true.
Proof.
  apply contains_app_l, contains_prefix, startswith_app.
Qed.

(** A substring taken at any offset is contained in the string. *)
Lemma substring_contains (n : nat) (s t : string) :
  substring n (String.length t) s = t -> contains s t = true.
Proof.
  revert s. induction n as [|n IH]; intros s H.
  - apply contains_prefix. revert s H.
    induction t as [|c t IHt]; intros s H; [reflexivity|].
    destruct s as [|d s]; simpl in H; [discriminate|].
    injection H as -> H. simpl. rewrite Ascii.eqb_refl. simpl.
    now apply IHt.
  - destruct s as [|d s].
    + destruct t; simpl in H; [reflexivity | discriminate].
    + simpl in H. apply contains_cons. now apply IH.
Qed.

Lemma endswith_contains (s suf : string) :
  endswith s suf = true -> contains s suf = true.
Proof.
  unfold endswith. intros H.
  apply andb_true_iff in H as [_ H].
  apply String.eqb_eq in H.
  now apply substring_contains with (n := (String.length s - String.length suf)%nat).
Qed.

Lemma lower_app (s t : string) : lower (s ++ t) = lower s ++ lower t.
Proof.
  induction s as [|c s IH]; simpl; [reflexivity|]. now rewrite IH.
Qed.

End PyFacts.

(** ** [json.loads] never uses up its budget *)

Module JsonFacts.
Import Py Json.

Lemma skip_ws_le (s : list ascii) : (List.length (skip_ws s) <= List.length s)%nat.
Proof.
  induction s as [|c s IH]; simpl; [lia|].
  destruct (is_json_ws c); simpl; lia.
Qed.

Lemma span_length (p : ascii -> bool) (s a b : list ascii) :
  span p s = (a, b) ->
  List.length s = (List.length a + List.length b)%nat.
Proof.
  revert a b. induction s as [|c s IH]; intros a b H; simpl in H.
  - now injection H as <- <-.
  - destruct (p c).
    + destruct (span p s) as [a' b'] eqn:E. injection H as <- <-.
      simpl. now rewrite (IH a' b' eq_refl).
    + now injection H as <- <-.
Qed.

Lemma eat_length (w s r : list ascii) :
  eat w s = Some r -> List.length s = (List.length w + List.length r)%nat.
Proof.
  revert s. induction w as [|a w IH]; intros s H; simpl in H.
  - now injection H as ->.
  - destruct s as [|c s]; [discriminate|].
    destruct (Ascii.eqb a c); [|discriminate].
    simpl. now rewrite (IH s H).
Qed.

Lemma parse_string_cons (c : ascii) (s1 : list ascii) :
  parse_string (c :: s1)
  = if Ascii.eqb c dquote then Some ([], s1)
    else if Ascii.eqb c "\" then
      match s1 with
      | [] => None
      | e :: s2 =>
          if Ascii.eqb e "u" then
            match s2 with
            | h1 :: h2 :: h3 :: h4 :: s3 =>
                match hex4 h1 h2 h3 h4 with
                | None => None
                | Some cp =>
                    let lone :=
                      match parse_string s3 with
                      | Some (t, r) => Some ((utf8 cp ++ t)%list, r)
                      | None => None
                      end in
                    if is_high_surrogate cp then
                      match s3 with
                      | b :: u :: l1 :: l2 :: l3 :: l4 :: s4 =>
                          if Ascii.eqb b "\" && Ascii.eqb u "u" then
                            match hex4 l1 l2 l3 l4 with
                            | Some lo =>
                                if is_low_surrogate lo then
                                  match parse_string s4 with
                                  | Some (t, r) =>
                                      Some ((utf8 (65536 + (cp - 55296) * 1024
                                                   + (lo - 56320))%N ++ t)%list, r)
                                  | None => None
                                  end
                                else lone
                            | None => lone
                            end
                          else lone
                      | _ => lone
                      end
                    else lone
                end
            | _ => None
            end
          else
            match simple_escape e with
            | Some x =>
                match parse_string s2 with
                | Some (t, r) => Some (x :: t, r)
                | None => None
                end
            | None => None
            end
      end
    else if (code c <? 32)%nat then None
    else
      match parse_string s1 with
      | Some (t, r) => Some (c :: t, r)
      | None => None
      end.
Proof. reflexivity. Qed.

(** A string literal ends after its input has been shortened. *)
Lemma parse_string_shorter (n : nat) :
  forall s t r,
    (List.length s <= n)%nat ->
    parse_string s = Some (t, r) ->
    (List.length r < List.length s)%nat.
Proof.
  induction n as [|n IH]; intros s t r Hn H.
  - destruct s; [discriminate H | cbn [List.length] in Hn; lia].
  - destruct s as [|c s1]; [discriminate H|].
    cbn [List.length] in Hn |- *.
    rewrite parse_string_cons in H.
    assert (Rec : forall s' t' r',
              (List.length s' <= List.length s1)%nat ->
              parse_string s' = Some (t', r') ->
              (List.length r' < S (List.length s1))%nat).
    { intros s' t' r' Hl Hp.
      assert (List.length r' < List.length s')%nat
        by (apply (IH s' t' r'); [lia | exact Hp]).
      lia. }
    clear IH.
    destruct (Ascii.eqb c dquote); [injection H as <- <-; lia|].
    destruct (Ascii.eqb c "\").
    + destruct s1 as [|e s2]; [discriminate|].
      destruct (Ascii.eqb e "u").
      * destruct s2 as [|h1 [|h2 [|h3 [|h4 s3]]]]; try discriminate.
        destruct (hex4 h1 h2 h3 h4) as [cp|]; [|discriminate].
        cbv zeta in H.
        assert (Lone : match parse_string s3 with
                       | Some (t1, r1) => Some ((utf8 cp ++ t1)%list, r1)
                       | None => None
                       end = Some (t, r) ->
                       (List.length r
                        < S (List.length (e :: h1 :: h2 :: h3 :: h4 :: s3)))%nat).
        { intros H0.
          destruct (parse_string s3) as [[t1 r1]|] eqn:P3; [|discriminate].
          injection H0 as <- <-.
          apply (Rec s3 t1 r1); [cbn [List.length]; lia | exact P3]. }
        destruct (is_high_surrogate cp); [|exact (Lone H)].
        destruct s3 as [|b [|u [|l1 [|l2 [|l3 [|l4 s4]]]]]];
          try exact (Lone H).
        destruct (Ascii.eqb b "\" && Ascii.eqb u "u"); [|exact (Lone H)].
        destruct (hex4 l1 l2 l3 l4) as [lo|]; [|exact (Lone H)].
        destruct (is_low_surrogate lo); [|exact (Lone H)].
        clear Lone.
        destruct (parse_string s4) as [[t1 r1]|] eqn:P4; [|discriminate].
        injection H as <- <-.
        apply (Rec s4 t1 r1); [cbn [List.length]; lia | exact P4].
      * destruct (simple_escape e); [|discriminate].
        destruct (parse_string s2) as [[t1 r1]|] eqn:P2; [|discriminate].
        injection H as <- <-.
        apply (Rec s2 t1 r1); [cbn [List.length]; lia | exact P2].
    + destruct (code c <? 32)%nat; [discriminate|].
      destruct (parse_string s1) as [[t1 r1]|] eqn:P1; [|discriminate].
      injection H as <- <-. apply (Rec s1 t1 r1); [lia | exact P1].
Qed.

Lemma span_rest_le (p : ascii -> bool) (s : list ascii) :
  (List.length (snd (span p s)) <= List.length s)%nat.
Proof.
  destruct (span p s) as [a b] eqn:E. apply span_length in E. simpl. lia.
Qed.

(** A number consumes at least one character. *)
Lemma parse_number_shorter (neg : bool) (s : list ascii) (v : pyval)
  (r : list ascii) :
  parse_number neg s = Parsed v r -> (List.length r < List.length s)%nat.
Proof.
  unfold parse_number.
  set (head := match s with
               | c :: s' =>
                   if Ascii.eqb c "0" then ([c], s')
                   else if is_digit c then span is_digit s else ([], s)
               | [] => ([], [])
               end).
  assert (Hhead : fst head = [] \/ (List.length (snd head) < List.length s)%nat).
  { subst head. destruct s as [|c s']; [now left|].
    destruct (Ascii.eqb c "0"); [right; simpl; lia|].
    destruct (is_digit c) eqn:D; [|now left].
    right. simpl. rewrite D.
    destruct (span is_digit s') as [a b] eqn:E. apply span_length in E.
    simpl. lia. }
  destruct head as [ip r0]. simpl in Hhead.
  destruct ip as [|i ip]; [discriminate|].
  destruct Hhead as [Hhead|Hhead]; [discriminate|].
  match goal with
  | |- context [let (frac, r1) := ?fr in _] =>
      assert (Hfr : (List.length (snd fr) <= List.length r0)%nat);
      [ destruct r0 as [|p [|d rr]]; simpl; try lia;
        destruct (Ascii.eqb p "." && is_digit d); [|simpl; lia];
        pose proof (span_rest_le is_digit (d :: rr)); simpl in *; lia
      | destruct fr as [frac r1] ]
  end.
  simpl in Hfr.
  match goal with
  | |- context [let '(ex, r2) := ?e in _] =>
      assert (Hex : (List.length (snd e) <= List.length r1)%nat);
      [ destruct r1 as [|e1 rr]; simpl; [lia|];
        destruct (Ascii.eqb e1 "e" || Ascii.eqb e1 "E"); [|simpl; lia];
        destruct rr as [|c r3]; [simpl; lia|];
        destruct (Ascii.eqb c "-");
        [ destruct (span is_digit r3) as [[|d ds] r4] eqn:E; [simpl; lia|];
          apply span_length in E; simpl in *; lia
        | destruct (Ascii.eqb c "+");
          [ destruct (span is_digit r3) as [[|d ds] r4] eqn:E; [simpl; lia|];
            apply span_length in E; simpl in *; lia
          | destruct (span is_digit (c :: r3)) as [[|d ds] r4] eqn:E;
            [simpl; lia|]; apply span_length in E; simpl in *; lia ] ]
      | destruct e as [ex r2] ]
  end.
  simpl in Hex. intros H.
  assert (r = r2).
  { destruct frac, ex; try (now injection H);
      destruct (int_max_str_digits <? _)%nat; try discriminate; now injection H. }
  subst r. lia.
Qed.

(** A scalar consumes at least one character. *)
Lemma parse_scalar_shorter (s : list ascii) (v : pyval) (r : list ascii) :
  parse_scalar s = Parsed v r -> (List.length r < List.length s)%nat.
Proof.
  unfold parse_scalar. intros H.
  repeat match type of H with
         | context [match eat ?w s with _ => _ end] =>
             let E := fresh "E" in
             destruct (eat w s) eqn:E;
             [ injection H as <- <-; apply eat_length in E; simpl in E; lia | ]
         end.
  destruct s as [|c s']; [discriminate|].
  destruct (Ascii.eqb c "-").
  - apply parse_number_shorter in H. simpl. lia.
  - now apply parse_number_shorter in H.
Qed.

Lemma parse_value_S (f : nat) (s : list ascii) :
  parse_value (S f) s
  = match s with
    | [] => Raised decode_error
    | c :: r =>
        if Ascii.eqb c "{" then
          match skip_ws r with
          | c' :: r' =>
              if Ascii.eqb c' "}" then Parsed (PDict []) r'
              else parse_members f (c' :: r') []
          | [] => Raised decode_error
          end
        else if Ascii.eqb c "[" then
          match skip_ws r with
          | c' :: r' =>
              if Ascii.eqb c' "]" then Parsed (PList []) r'
              else parse_elements f (c' :: r') []
          | [] => Raised decode_error
          end
        else if Ascii.eqb c dquote then
          match parse_string r with
          | Some (t, r') => Parsed (PStr (str t)) r'
          | None => Raised decode_error
          end
        else parse_scalar s
    end.
Proof. reflexivity. Qed.

Lemma parse_elements_S (f : nat) (s : list ascii) (acc : list pyval) :
  parse_elements (S f) s acc
  = match parse_value f s with
    | Parsed v r =>
        match skip_ws r with
        | c :: r' =>
            if Ascii.eqb c "," then parse_elements f (skip_ws r') (acc ++ [v])%list
            else if Ascii.eqb c "]" then Parsed (PList (acc ++ [v])%list) r'
            else Raised decode_error
        | [] => Raised decode_error
        end
    | Raised e => Raised e
    | Fuel => Fuel
    end.
Proof. reflexivity. Qed.

Lemma parse_members_S (f : nat) (s : list ascii) (acc : list (string * pyval)) :
  parse_members (S f) s acc
  = match s with
    | q :: s0 =>
        if Ascii.eqb q dquote then
          match parse_string s0 with
          | Some (key, r0) =>
              match skip_ws r0 with
              | colon :: r1 =>
                  if Ascii.eqb colon ":" then
                    match parse_value f (skip_ws r1) with
                    | Parsed v r =>
                        match skip_ws r with
                        | c :: r' =>
                            if Ascii.eqb c "," then
                              parse_members f (skip_ws r')
                                            (dict_set acc (str key) v)
                            else if Ascii.eqb c "}" then
                              Parsed (PDict (dict_set acc (str key) v)) r'
                            else Raised decode_error
                        | [] => Raised decode_error
                        end
                    | Raised e => Raised e
                    | Fuel => Fuel
                    end
                  else Raised decode_error
              | [] => Raised decode_error
              end
          | None => Raised decode_error
          end
        else Raised decode_error
    | [] => Raised decode_error
    end.
Proof. reflexivity. Qed.

(** What the scanner returns is shorter than what it was given. *)
Lemma scanner_shorter (f : nat) :
  (forall s v r, parse_value f s = Parsed v r ->
                 (List.length r < List.length s)%nat)
  /\ (forall s acc v r, parse_elements f s acc = Parsed v r ->
                        (List.length r < List.length s)%nat)
  /\ (forall s acc v r, parse_members f s acc = Parsed v r ->
                        (List.length r < List.length s)%nat).
Proof.
  induction f as [|f (IHv & IHe & IHm)];
    [repeat split; intros; discriminate|].
  assert (Sk : forall r c r', skip_ws r = c :: r' ->
                 (S (List.length r') <= List.length r)%nat).
  { intros r c r' E. pose proof (skip_ws_le r) as L. rewrite E in L.
    exact L. }
  split; [|split].
  - intros s v r. rewrite parse_value_S.
    destruct s as [|c s']; [discriminate|].
    destruct (Ascii.eqb c "{").
    { destruct (skip_ws s') as [|c' r'] eqn:E; [discriminate|].
      apply Sk in E.
      destruct (Ascii.eqb c' "}").
      - intros [= <- <-]. simpl. lia.
      - intros H. apply IHm in H. simpl in *. lia. }
    destruct (Ascii.eqb c "[").
    { destruct (skip_ws s') as [|c' r'] eqn:E; [discriminate|].
      apply Sk in E.
      destruct (Ascii.eqb c' "]").
      - intros [= <- <-]. simpl. lia.
      - intros H. apply IHe in H. simpl in *. lia. }
    destruct (Ascii.eqb c dquote).
    { destruct (parse_string s') as [[t r']|] eqn:P; [|discriminate].
      intros [= <- <-].
      apply (parse_string_shorter (List.length s')) in P; [simpl; lia | lia]. }
    apply parse_scalar_shorter.
  - intros s acc v r. rewrite parse_elements_S.
    destruct (parse_value f s) as [v1 r1| |] eqn:P; try discriminate.
    apply IHv in P.
    destruct (skip_ws r1) as [|c r'] eqn:E; [discriminate|]. apply Sk in E.
    destruct (Ascii.eqb c ",").
    + intros H. apply IHe in H. pose proof (skip_ws_le r'). lia.
    + destruct (Ascii.eqb c "]"); [|discriminate]. intros [= <- <-]. lia.
  - intros s acc v r. rewrite parse_members_S.
    destruct s as [|q s0]; [discriminate|].
    destruct (Ascii.eqb q dquote); [|discriminate].
    destruct (parse_string s0) as [[key r0]|] eqn:P; [|discriminate].
    apply (parse_string_shorter (List.length s0)) in P; [|lia].
    destruct (skip_ws r0) as [|colon r1] eqn:E0; [discriminate|]. apply Sk in E0.
    destruct (Ascii.eqb colon ":"); [|discriminate].
    destruct (parse_value f (skip_ws r1)) as [v1 r2| |] eqn:PV; try discriminate.
    apply IHv in PV. pose proof (skip_ws_le r1).
    destruct (skip_ws r2) as [|c r'] eqn:E2; [discriminate|]. apply Sk in E2.
    destruct (Ascii.eqb c ",").
    + intros H'. apply IHm in H'. pose proof (skip_ws_le r'). simpl. lia.
    + destruct (Ascii.eqb c "}"); [|discriminate]. intros [= <- <-]. simpl. lia.
Qed.

(** With a budget of twice the length of its input the scanner never
    runs out. *)
Lemma scanner_budget (f : nat) :
  (forall s, (2 * List.length s + 1 <= f)%nat -> parse_value f s <> Fuel)
  /\ (forall s acc, (2 * List.length s + 2 <= f)%nat ->
                    parse_elements f s acc <> Fuel)
  /\ (forall s acc, (2 * List.length s + 2 <= f)%nat ->
                    parse_members f s acc <> Fuel).
Proof.
  induction f as [|f (IHv & IHe & IHm)]; [repeat split; intros; lia|].
  destruct (scanner_shorter f) as (Shv & _ & _).
  assert (Sk : forall r c r', skip_ws r = c :: r' ->
                 (S (List.length r') <= List.length r)%nat).
  { intros r c r' E. pose proof (skip_ws_le r) as L. rewrite E in L.
    exact L. }
  split; [|split].
  - intros s Hf. rewrite parse_value_S.
    destruct s as [|c s']; [discriminate|]. simpl in Hf.
    destruct (Ascii.eqb c "{").
    { destruct (skip_ws s') as [|c' r'] eqn:E; [discriminate|]. apply Sk in E.
      destruct (Ascii.eqb c' "}"); [discriminate|].
      apply IHm. simpl. lia. }
    destruct (Ascii.eqb c "[").
    { destruct (skip_ws s') as [|c' r'] eqn:E; [discriminate|]. apply Sk in E.
      destruct (Ascii.eqb c' "]"); [discriminate|].
      apply IHe. simpl. lia. }
    destruct (Ascii.eqb c dquote).
    { destruct (parse_string s') as [[t r']|]; discriminate. }
    unfold parse_scalar.
    repeat match goal with
           | |- context [match eat ?w ?x with _ => _ end] =>
               destruct (eat w x); [discriminate|]
           end.
    destruct (Ascii.eqb c "-"); unfold parse_number;
      repeat match goal with
             | |- context [let (_, _) := ?x in _] => destruct x
             | |- context [match ?x with _ => _ end] => destruct x
             end; discriminate.
  - intros s acc Hf. rewrite parse_elements_S.
    destruct (parse_value f s) as [v1 r1| |] eqn:P; [|discriminate|].
    + apply Shv in P.
      destruct (skip_ws r1) as [|c r'] eqn:E; [discriminate|]. apply Sk in E.
      destruct (Ascii.eqb c ",").
      * apply IHe. pose proof (skip_ws_le r'). lia.
      * destruct (Ascii.eqb c "]"); discriminate.
    + exfalso. revert P. apply IHv. lia.
  - intros s acc Hf. rewrite parse_members_S.
    destruct s as [|q s0]; [discriminate|]. simpl in Hf.
    destruct (Ascii.eqb q dquote); [|discriminate].
    destruct (parse_string s0) as [[key r0]|] eqn:P; [|discriminate].
    apply (parse_string_shorter (List.length s0)) in P; [|lia].
    destruct (skip_ws r0) as [|colon r1] eqn:E0; [discriminate|]. apply Sk in E0.
    destruct (Ascii.eqb colon ":"); [|discriminate].
    pose proof (skip_ws_le r1).
    destruct (parse_value f (skip_ws r1)) as [v1 r2| |] eqn:PV; [|discriminate|].
    + apply Shv in PV.
      destruct (skip_ws r2) as [|c r'] eqn:E2; [discriminate|]. apply Sk in E2.
      destruct (Ascii.eqb c ",").
      * apply IHm. pose proof (skip_ws_le r'). lia.
      * destruct (Ascii.eqb c "}"); discriminate.
    + exfalso. revert PV. apply IHv. lia.
Qed.

(** [json.loads] is total: its scanner returns a value or raises, within
    the budget it is given. *)
Theorem loads_within_budget (s : string) :
  parse_value (loads_fuel s) (skip_ws (chars s)) <> Fuel.
Proof.
  apply (proj1 (scanner_budget (loads_fuel s))).
  pose proof (skip_ws_le (chars s)) as L.
  assert (List.length (chars s) = String.length s) as E.
  { clear L. induction s as [|c s IH]; simpl; [reflexivity | now rewrite IH]. }
  unfold loads_fuel. lia.
Qed.

End JsonFacts.

(** ** Category classification *)

Module ClassifyFacts.
Import Py PyFacts Models QuizParser ClassifySpec.

Lemma any_in_two (a b s : string) :
  any_in [a; b] s = contains s a || contains s b.
Proof. unfold any_in; simpl. now rewrite orb_false_r. Qed.

Lemma determine_quiz_type_rules (text : string) (download_url : option string) :
  _determine_quiz_type text download_url
  = classify_by_priority text download_url.
Proof.
  unfold _determine_quiz_type, classify_by_priority, endpoint_has.
  cbn [first_rule keyword_rules]. rewrite any_in_two.
  destruct download_url as [url|]; [|reflexivity].
  destruct (truthy url); [|reflexivity].
  cbn [andb existsb].
  destruct (contains (lower url) ".pdf"); [reflexivity|].
  destruct (contains (lower url) ".csv"); [reflexivity|].
  destruct (contains (lower url) ".xlsx"); [reflexivity|].
  destruct (contains (lower url) ".json"); reflexivity.
Qed.

Lemma truthy_of_contains (s sub : string) :
  truthy sub = true -> contains (lower s) sub = true -> truthy s = true.
Proof.
  destruct s; [|reflexivity].
  destruct sub; [discriminate|]. simpl. discriminate.
Qed.

(** C1, as the code has it.  Classification follows the fixed priority
    order, the two endpoint rules testing whether the extension OCCURS in
    the lower-cased download endpoint: an endpoint in which [.pdf] occurs
    gives pdf whatever the text says; otherwise one in which [.csv],
    [.xlsx] or [.json] occurs gives data (tabular-data) whatever the text
    says; only then the api, visualization, data-keyword and scraping rules
    are tried in that order, the first with a word in the text winning, and
    general is left.  In particular an endpoint that ENDS in [.pdf] is pdf
    for every text, and one that ends in [.csv], [.xlsx] or [.json] and in
    which [.pdf] does not occur is data for every text. *)
Theorem determine_quiz_type_priority :
  forall (text : string) (download_url : option string),
    _determine_quiz_type text download_url
    = classify_by_priority text download_url
    /\ (forall url, download_url = Some url ->
          endswith (lower url) ".pdf" = true ->
          _determine_quiz_type text download_url = "pdf")
    /\ (forall url, download_url = Some url ->
          contains (lower url) ".pdf" = false ->
          endswith (lower url) ".csv" = true
          \/ endswith (lower url) ".xlsx" = true
          \/ endswith (lower url) ".json" = true ->
          _determine_quiz_type text download_url = "data")
    /\ (endpoint_has download_url ".pdf" = false ->
        endpoint_has download_url ".csv" = false ->
        endpoint_has download_url ".xlsx" = false ->
        endpoint_has download_url ".json" = false ->
        _determine_quiz_type text download_url
        = first_rule keyword_rules (lower text)).
Proof.
  intros text download_url.
  rewrite determine_quiz_type_rules.
  split; [reflexivity|]. split; [|split].
  - intros url -> H. apply endswith_contains in H.
    unfold classify_by_priority, endpoint_has.
    now rewrite H, (truthy_of_contains url ".pdf" eq_refl H).
  - intros url -> Hpdf H.
    unfold classify_by_priority, endpoint_has. rewrite Hpdf, andb_false_r.
    destruct H as [H|[H|H]]; apply endswith_contains in H;
      rewrite H, (fun E => truthy_of_contains url _ E H) by reflexivity;
      simpl; rewrite ?orb_true_r; reflexivity.
  - intros H1 H2 H3 H4. unfold classify_by_priority.
    now rewrite H1, H2, H3, H4.
Qed.

(** The page of the specification: download URL [.../data.pdf] and the
    word chart in the text classify as pdf, not visualization. *)
Lemma determine_quiz_type_pdf_chart :
  _determine_quiz_type "Describe the chart" (Some "https://host/data.pdf") = "pdf"
  /\ _determine_quiz_type "Describe the chart" None = "visualization".
Proof. split; reflexivity. Qed.

(** C1 as stated fails: an endpoint that ends in [.csv] is classified pdf
    when [.pdf] occurs before, and an endpoint that ends in none of the
    four extensions is still classified by the endpoint rules, before any
    keyword rule, when an extension occurs inside it. *)
Lemma determine_quiz_type_suffix_counterexample :
  (endswith (lower "http://h/a.pdf.csv") ".csv" = true
   /\ classify_by_suffix "" (Some "http://h/a.pdf.csv") = "data"
   /\ _determine_quiz_type "" (Some "http://h/a.pdf.csv") = "pdf")
  /\ (endswith (lower "http://h/report.pdf?v=1") ".pdf" = false
      /\ classify_by_suffix "call the api" (Some "http://h/report.pdf?v=1") = "api"
      /\ _determine_quiz_type "call the api" (Some "http://h/report.pdf?v=1") = "pdf").
Proof. repeat split; reflexivity. Qed.

End ClassifyFacts.

(** ** The answer normalizer *)

Module NormalizerFacts.
Import Py PyFacts Re Json LLMService Examples.

Ltac ascii_cases c :=
  destruct c as [[|] [|] [|] [|] [|] [|] [|] [|]].

(** What a digit is not. *)
Lemma digit_not_special (c : ascii) :
  is_digit c = true ->
  is_space c = false /\ lower_char c = c
  /\ Ascii.eqb c "-" = false /\ Ascii.eqb c "." = false
  /\ Ascii.eqb c "`" = false /\ Ascii.eqb c "{" = false
  /\ Ascii.eqb c "t" = false /\ Ascii.eqb c "f" = false.
Proof. ascii_cases c; vm_compute; intros H; try discriminate H; repeat split. Qed.

Lemma rstrip_with_none (p : ascii -> bool) (s : string) :
  forallb (fun c => negb (p c)) (chars s) = true -> rstrip_with p s = s.
Proof.
  induction s as [|c s IH]; simpl; [reflexivity|].
  intros H. apply andb_true_iff in H as [Hc Hs].
  rewrite (IH Hs). destruct s; [|reflexivity].
  now apply negb_true_iff in Hc as ->.
Qed.

Section Digits.
Variable s : string.
Hypothesis Hdigits : isdigit s = true.

Lemma digits_nonempty : exists c s', s = String c s' /\ is_digit c = true.
Proof.
  unfold isdigit in Hdigits. destruct s as [|c s']; [discriminate|].
  simpl in Hdigits. apply andb_true_iff in Hdigits as [H _].
  now exists c, s'.
Qed.

Lemma digits_all : forallb is_digit (chars s) = true.
Proof. unfold isdigit in Hdigits. now apply andb_true_iff in Hdigits. Qed.

Lemma digits_strip : strip s = s.
Proof.
  destruct digits_nonempty as (c & s' & E & Hc).
  unfold strip.
  assert (L : lstrip_with is_space s = s).
  { rewrite E. cbn [lstrip_with].
    now destruct (digit_not_special c Hc) as (-> & _). }
  rewrite L. apply rstrip_with_none. apply forallb_forall. intros a Ha.
  pose proof (proj1 (forallb_forall _ _) digits_all a Ha) as Hd.
  now destruct (digit_not_special a Hd) as (-> & _).
Qed.

Lemma digits_lower : lower s = s.
Proof.
  pose proof digits_all as H. clear Hdigits.
  induction s as [|c s' IH]; simpl in *; [reflexivity|].
  apply andb_true_iff in H as [Hc Hs].
  destruct (digit_not_special c Hc) as (_ & -> & _). now rewrite IH.
Qed.

Lemma digits_no_point : contains s "." = false.
Proof.
  pose proof digits_all as H. clear Hdigits.
  induction s as [|c s' IH]; simpl in *; [reflexivity|].
  apply andb_true_iff in H as [Hc Hs].
  destruct (digit_not_special c Hc) as (_ & _ & _ & -> & _). simpl.
  now apply IH.
Qed.

Lemma digits_first :
  startswith s fence = false /\ startswith s "{" = false
  /\ String.eqb s "true" = false /\ String.eqb s "false" = false
  /\ lstrip s "-" = s.
Proof.
  destruct digits_nonempty as (c & s' & -> & Hc).
  destruct (digit_not_special c Hc) as (_ & _ & Hm & _ & Hf & Hb & Ht & Hfa).
  unfold lstrip, char_in. simpl. rewrite Hf, Hb, Ht, Hfa, Hm. simpl.
  repeat split.
Qed.

End Digits.

Lemma py_int_digits (s : string) :
  isdigit s = true ->
  (String.length s <= int_max_str_digits)%nat ->
  py_int s = inr (Z.of_N (N_of_digits s)).
Proof.
  intros Hd Hlen.
  destruct (digits_nonempty s Hd) as (c & s' & E & Hc). subst s.
  destruct (digit_not_special c Hc) as (_ & _ & Hm & _).
  unfold py_int. rewrite Hm, Hd.
  destruct (Nat.ltb_spec int_max_str_digits (String.length (String c s')));
    [lia | reflexivity].
Qed.

(** An integer literal is returned as that integer, although the decimal
    pattern of the float rule accepts it too. *)
Lemma parse_answer_digits (s : string) :
  isdigit s = true ->
  (String.length s <= int_max_str_digits)%nat ->
  _parse_answer s = inr (PInt (Z.of_N (N_of_digits s))).
Proof.
  intros Hd Hlen. unfold _parse_answer.
  rewrite (digits_strip s Hd).
  destruct (digits_first s Hd) as (-> & -> & Ht & Hf & Hl).
  cbv zeta. cbn [andb]. rewrite (digits_lower s Hd), Ht, Hf. cbn [orb].
  rewrite (digits_no_point s Hd), Hl, Hd. cbn [negb andb].
  now rewrite (py_int_digits s Hd Hlen).
Qed.

(** C6.  The normalizer follows its rule order.  On the four texts of
    the specification: the object with an answer field gives the integer
    42 (generic JSON would give the whole object), [true] gives the
    boolean, [3.14] the float 3.14 and [hello] the string.  In general: an
    object with an answer field gives the value of the field, a text made
    of digits gives the integer it denotes (the float rule, which accepts
    it too, comes after), and a text is returned as a string only when no
    rule before took it. *)
Theorem parse_answer_rule_order :
  (_parse_answer answer_object = inr (PInt 42)
   /\ loads answer_object = inr (PDict [("answer", PInt 42)]))
  /\ _parse_answer "true" = inr (PBool true)
  /\ _parse_answer "3.14" = inr (PFloat (FDec false 314 (-2)))
  /\ _parse_answer "hello" = inr (PStr "hello")
  /\ (_parse_answer "42" = inr (PInt 42)
      /\ match_ re_decimal "42" <> None
      /\ py_float "42" = inr (FDec false 42 0))
  /\ (forall s entries v,
        strip s = s ->
        startswith s "{" = true ->
        contains s (dq ++ "answer" ++ dq) = true ->
        loads s = inr (PDict entries) ->
        dict_get entries "answer" = Some v ->
        _parse_answer s = inr v)
  /\ (forall s,
        isdigit s = true ->
        (String.length s <= int_max_str_digits)%nat ->
        _parse_answer s = inr (PInt (Z.of_N (N_of_digits s)))).
Proof.
  split; [split; vm_compute; reflexivity|].
  split; [vm_compute; reflexivity|].
  split; [vm_compute; reflexivity|].
  split; [vm_compute; reflexivity|].
  split; [repeat split; try (vm_compute; reflexivity); vm_compute; discriminate|].
  split; [|exact parse_answer_digits].
  intros s entries v Hs Hb Ha Hl Hg.
  unfold _parse_answer. rewrite Hs.
  assert (Hf : startswith s fence = false).
  { destruct s as [|c s']; [discriminate Hb|].
    simpl in Hb. apply andb_true_iff in Hb as [Hc _].
    apply Ascii.eqb_eq in Hc as ->. reflexivity. }
  rewrite Hf. cbv zeta. rewrite Hb, Ha, Hl, Hg. reflexivity.
Qed.

(** The general rules of C6 at concrete texts. *)
Lemma parse_answer_rule_order_witness :
  _parse_answer answer_object = inr (PInt 42)
  /\ _parse_answer "2024" = inr (PInt 2024).
Proof.
  split.
  - apply (proj1 (proj2 (proj2 (proj2 (proj2 (proj2 parse_answer_rule_order)))))
             answer_object [("answer", PInt 42)] (PInt 42));
      vm_compute; reflexivity.
  - apply (proj2 (proj2 (proj2 (proj2 (proj2 (proj2 parse_answer_rule_order)))))
             "2024"); [vm_compute; reflexivity | vm_compute; lia].
Defined.

End NormalizerFacts.

(** ** Relative URL resolution *)

Module UrlFacts.
Import Py PyFacts Json Url QuizParser UrlSpec.

(** *** Bases of the usual shape *)







Lemma append_nil_r (s : string) : s ++ EmptyString = s.
Proof. induction s as [|c s IH]; simpl; [reflexivity | now rewrite IH]. Qed.




Lemma forallb_weaken {A : Type} (p q : A -> bool) (l : list A) :
  (forall x, p x = true -> q x = true) ->
  forallb p l = true -> forallb q l = true.
Proof.
  intros Hpq H. apply forallb_forall. intros x Hx.
  apply Hpq. now apply (proj1 (forallb_forall _ _) H).
Qed.





Lemma split_on_nonempty (sep : ascii) (s : string) : split_on sep s <> [].
Proof.
  destruct s as [|c s]; simpl; [discriminate|].
  destruct (Ascii.eqb c sep); [discriminate|].
  destruct (split_on sep s); discriminate.
Qed.

(** Joining what was split gives the text back. *)
Lemma join_split_on (sep : ascii) (s : string) :
  join (String sep EmptyString) (split_on sep s) = s.
Proof.
  induction s as [|c s IH]; [reflexivity|].
  simpl split_on. destruct (Ascii.eqb_spec c sep) as [->|_].
  - destruct (split_on sep s) as [|w ws] eqn:E;
      [now apply split_on_nonempty in E|].
    change (join (String sep EmptyString) (EmptyString :: w :: ws))
      with (String sep (join (String sep EmptyString) (w :: ws))).
    now rewrite IH.
  - destruct (split_on sep s) as [|w ws] eqn:E;
      [now apply split_on_nonempty in E|].
    rewrite <- IH. destruct ws; reflexivity.
Qed.








End UrlFacts.

(** ** Regular expressions: what a match is made of *)

Module ReFacts.
Import Py PyFacts Re ReSpec.

Lemma star_loop_sound {R : Type} (body : matcher R) (L : list ascii -> Prop)
  (greedy : bool) :
  sound body L ->
  forall k n pos s cs x,
    star_loop body greedy k n pos s cs = Some x ->
    exists w s' cs',
      s = (w ++ s')%list /\ star_lang L w
      /\ k (pos + List.length w)%nat s' cs' = Some x.
Proof.
  intros Hbody k n. induction n as [|n IH]; intros pos s cs x H.
  - exists [], s, cs. simpl in *. rewrite Nat.add_0_r.
    repeat split; [constructor | exact H].
  - assert (Leave : k pos s cs = Some x ->
              exists w s' cs', s = (w ++ s')%list /\ star_lang L w
                /\ k (pos + List.length w)%nat s' cs' = Some x).
    { intros Hk. exists [], s, cs. simpl. rewrite Nat.add_0_r.
      repeat split; [constructor | exact Hk]. }
    assert (Again :
              body pos s cs
                (fun pos1 s1 cs1 =>
                   if (List.length s1 <? List.length s)%nat
                   then star_loop body greedy k n pos1 s1 cs1 else None)
              = Some x ->
              exists w s' cs', s = (w ++ s')%list /\ star_lang L w
                /\ k (pos + List.length w)%nat s' cs' = Some x).
    { intros Hb. apply Hbody in Hb as (w1 & s1 & cs1 & E1 & L1 & K1).
      destruct (List.length s1 <? List.length s)%nat; [|discriminate].
      apply IH in K1 as (w2 & s2 & cs2 & E2 & L2 & K2).
      exists (w1 ++ w2)%list, s2, cs2. subst s s1.
      rewrite <- app_assoc, length_app, Nat.add_assoc.
      repeat split; [now constructor | exact K2]. }
    simpl in H. destruct greedy.
    + destruct (body pos s cs _) eqn:E; [injection H as ->; now apply Again|].
      now apply Leave.
    + destruct (k pos s cs) eqn:E; [injection H as ->; now apply Leave|].
      now apply Again.
Qed.

(** Every success of the matcher consumed a word of the pattern. *)
Theorem mt_sound (r : regex) : forall R : Type, sound (@mt R r) (lang r).
Proof.
  induction r as [|p|r1 IH1 r2 IH2|r1 IH1 r2 IH2|g r1 IH1|n r1 IH1|r1 IH1| |];
    intros R pos s cs k x H; simpl in H.
  - exists [], s, cs. simpl. rewrite Nat.add_0_r. now repeat split.
  - destruct s as [|c s']; [discriminate|].
    destruct (p c) eqn:Hp; [|discriminate].
    exists [c], s', cs. simpl. rewrite Nat.add_1_r.
    repeat split; [now exists c | exact H].
  - apply IH1 in H as (w1 & s1 & cs1 & E1 & L1 & K1).
    apply IH2 in K1 as (w2 & s2 & cs2 & E2 & L2 & K2).
    exists (w1 ++ w2)%list, s2, cs2. subst s s1.
    rewrite <- app_assoc, length_app, Nat.add_assoc.
    repeat split; [now exists w1, w2 | exact K2].
  - destruct (mt r1 pos s cs k) eqn:E.
    + injection H as ->. apply IH1 in E as (w & s' & cs' & ? & ? & ?).
      exists w, s', cs'. simpl. auto.
    + apply IH2 in H as (w & s' & cs' & ? & ? & ?).
      exists w, s', cs'. simpl. auto.
  - now apply (star_loop_sound (mt r1) (lang r1) g (IH1 R)) in H.
  - apply IH1 in H as (w & s' & cs' & ? & ? & ?).
    now exists w, s', ((n, (pos, (pos + List.length w)%nat)) :: cs').
  - destruct (mt r1 pos s cs _) as [cs1|]; [|discriminate].
    exists [], s, cs1. simpl. rewrite Nat.add_0_r. now repeat split.
  - destruct (Nat.eqb pos 0); [|discriminate].
    exists [], s, cs. simpl. rewrite Nat.add_0_r. now repeat split.
  - exists [], s, cs. simpl. rewrite Nat.add_0_r.
    repeat split.
    destruct s as [|c [|c' s']]; [exact H| |discriminate].
    destruct (Ascii.eqb c LF); [exact H | discriminate].
Qed.

(** A match found by a search lies in the subject: it is a word of the
    pattern between what comes before and what comes after. *)
Lemma search_from_sound (r : regex) (s : list ascii) :
  forall pos m,
    search_from r pos s = Some m ->
    exists pre w post,
      s = (pre ++ w ++ post)%list /\ lang r w
      /\ m_start m = (pos + List.length pre)%nat
      /\ m_end m = (m_start m + List.length w)%nat.
Proof.
  induction s as [|c s IH]; intros pos m H; simpl in H.
  - destruct (match_at r pos []) as [m'|] eqn:E; [|discriminate].
    injection H as ->. unfold match_at in E.
    apply mt_sound in E as (w & s' & cs' & Es & Lw & K).
    injection K as <-. exists [], w, s'. simpl. rewrite Nat.add_0_r. auto.
  - destruct (match_at r pos (c :: s)) as [m'|] eqn:E.
    + injection H as ->. unfold match_at in E.
      apply mt_sound in E as (w & s' & cs' & Es & Lw & K).
      injection K as <-. exists [], w, s'. simpl. rewrite Nat.add_0_r. auto.
    + apply IH in H as (pre & w & post & Es & Lw & Hs & He).
      exists (c :: pre), w, post. subst s. simpl.
      rewrite Hs in *. repeat split; auto; lia.
Qed.


(** *** The bounds of the star and of the scans are never reached *)

Lemma star_loop_ext {R : Type} (body : matcher R) (greedy : bool) :
  regular body ->
  forall n pos s cs k1 k2,
    (forall a b c, k1 a b c = k2 a b c) ->
    star_loop body greedy k1 n pos s cs = star_loop body greedy k2 n pos s cs.
Proof.
  intros [_ Hext] n. induction n as [|n IH]; intros pos s cs k1 k2 Hk; simpl.
  - apply Hk.
  - rewrite (Hk pos s cs).
    rewrite (Hext pos s cs
               (fun pos1 s1 cs1 =>
                  if (List.length s1 <? List.length s)%nat
                  then star_loop body greedy k1 n pos1 s1 cs1 else None)
               (fun pos1 s1 cs1 =>
                  if (List.length s1 <? List.length s)%nat
                  then star_loop body greedy k2 n pos1 s1 cs1 else None)).
    + reflexivity.
    + intros a b c. destruct (List.length b <? List.length s)%nat; [|reflexivity].
      now apply IH.
Qed.

Lemma star_loop_fail {R : Type} (body : matcher R) (greedy : bool) :
  regular body ->
  forall n pos s cs k,
    (forall a b c, k a b c = None) ->
    star_loop body greedy k n pos s cs = None.
Proof.
  intros [Hfail _] n. induction n as [|n IH]; intros pos s cs k Hk; simpl.
  - apply Hk.
  - rewrite (Hk pos s cs), Hfail.
    + now destruct greedy.
    + intros a b c. destruct (List.length b <? List.length s)%nat; [|reflexivity].
      now apply IH.
Qed.

Lemma mt_regular (r : regex) : forall R : Type, regular (@mt R r).
Proof.
  induction r as [|p|r1 IH1 r2 IH2|r1 IH1 r2 IH2|g r1 IH1|n r1 IH1|r1 IH1| |];
    intros R; split; intros pos s cs; simpl.
  - intros k Hk. apply Hk.
  - intros k1 k2 Hk. apply Hk.
  - intros k Hk. destruct s as [|c s']; [reflexivity|].
    destruct (p c); [apply Hk | reflexivity].
  - intros k1 k2 Hk. destruct s as [|c s']; [reflexivity|].
    destruct (p c); [apply Hk | reflexivity].
  - intros k Hk. apply (proj1 (IH1 R)). intros a b c.
    now apply (proj1 (IH2 R)).
  - intros k1 k2 Hk. apply (proj2 (IH1 R)). intros a b c.
    now apply (proj2 (IH2 R)).
  - intros k Hk.
    now rewrite (proj1 (IH1 R) pos s cs k Hk), (proj1 (IH2 R) pos s cs k Hk).
  - intros k1 k2 Hk.
    now rewrite (proj2 (IH1 R) pos s cs k1 k2 Hk),
                (proj2 (IH2 R) pos s cs k1 k2 Hk).
  - intros k Hk. now apply star_loop_fail.
  - intros k1 k2 Hk. now apply star_loop_ext.
  - intros k Hk. apply (proj1 (IH1 R)). intros a b c. apply Hk.
  - intros k1 k2 Hk. apply (proj2 (IH1 R)). intros a b c. apply Hk.
  - intros k Hk. destruct (mt r1 pos s cs _); [apply Hk | reflexivity].
  - intros k1 k2 Hk. destruct (mt r1 pos s cs _); [apply Hk | reflexivity].
  - intros k Hk. destruct (Nat.eqb pos 0); [apply Hk | reflexivity].
  - intros k1 k2 Hk. destruct (Nat.eqb pos 0); [apply Hk | reflexivity].
  - intros k Hk. destruct s as [|c [|c' s']]; [apply Hk | | reflexivity].
    destruct (Ascii.eqb c LF); [apply Hk | reflexivity].
  - intros k1 k2 Hk. destruct s as [|c [|c' s']]; [apply Hk | | reflexivity].
    destruct (Ascii.eqb c LF); [apply Hk | reflexivity].
Qed.

(** The star: one more iteration allowed changes nothing, once the bound
    is the length of what is left.  The bound with which the matcher enters
    a star is that length, so it never ends a star early. *)
Theorem star_loop_bound_irrelevant {R : Type} (body : matcher R)
  (greedy : bool) (k : nat -> list ascii -> caps -> option R) :
  regular body ->
  forall n pos s cs,
    (List.length s <= n)%nat ->
    star_loop body greedy k (S n) pos s cs
    = star_loop body greedy k n pos s cs.
Proof.
  intros Hreg n. induction n as [|n IH]; intros pos s cs Hn.
  - destruct s; [|simpl in Hn; lia]. simpl.
    rewrite (proj1 Hreg); [now destruct greedy; destruct (k pos [] cs)|].
    reflexivity.
  - change (star_loop body greedy k (S (S n)) pos s cs)
      with (let again (_ : unit) :=
              body pos s cs
                (fun pos1 s1 cs1 =>
                   if (List.length s1 <? List.length s)%nat
                   then star_loop body greedy k (S n) pos1 s1 cs1 else None) in
            if greedy then
              match again tt with Some x => Some x | None => k pos s cs end
            else
              match k pos s cs with Some x => Some x | None => again tt end).
    change (star_loop body greedy k (S n) pos s cs)
      with (let again (_ : unit) :=
              body pos s cs
                (fun pos1 s1 cs1 =>
                   if (List.length s1 <? List.length s)%nat
                   then star_loop body greedy k n pos1 s1 cs1 else None) in
            if greedy then
              match again tt with Some x => Some x | None => k pos s cs end
            else
              match k pos s cs with Some x => Some x | None => again tt end).
    cbv zeta.
    rewrite (proj2 Hreg pos s cs
               (fun pos1 s1 cs1 =>
                  if (List.length s1 <? List.length s)%nat
                  then star_loop body greedy k (S n) pos1 s1 cs1 else None)
               (fun pos1 s1 cs1 =>
                  if (List.length s1 <? List.length s)%nat
                  then star_loop body greedy k n pos1 s1 cs1 else None));
      [reflexivity|].
    intros a b c.
    destruct (Nat.ltb_spec (List.length b) (List.length s)); [|reflexivity].
    apply IH. lia.
Qed.

Lemma search_from_bounds (r : regex) (s : list ascii) (pos : nat) (m : rmatch) :
  search_from r pos s = Some m ->
  (pos <= m_start m <= m_end m)%nat /\ (m_end m <= pos + List.length s)%nat.
Proof.
  intros H. apply search_from_sound in H as (pre & w & post & -> & _ & Hs & He).
  rewrite !length_app. lia.
Qed.

(** The scan of [re.sub]: a larger budget changes nothing, once the budget
    exceeds the length of what is left. *)
Theorem sub_from_budget_irrelevant (r : regex) (tpl : list piece)
  (subject : string) :
  forall fuel pos s,
    (S (List.length s) <= fuel)%nat ->
    sub_from (S fuel) r tpl subject pos s = sub_from fuel r tpl subject pos s.
Proof.
  induction fuel as [|fuel IH]; intros pos s Hf; [lia|].
  change (sub_from (S (S fuel)) r tpl subject pos s)
    with (match search_from r pos s with
          | None => str s
          | Some m =>
              let before := str (firstn (m_start m - pos) s) in
              let rest := skipn (m_end m - pos) s in
              if Nat.eqb (m_end m) (m_start m) then
                match skipn (m_start m - pos) s with
                | [] => before ++ expand subject m tpl
                | c :: rest' =>
                    before ++ expand subject m tpl ++ String c
                      (sub_from (S fuel) r tpl subject (S (m_end m)) rest')
                end
              else
                before ++ expand subject m tpl
                  ++ sub_from (S fuel) r tpl subject (m_end m) rest
          end).
  change (sub_from (S fuel) r tpl subject pos s)
    with (match search_from r pos s with
          | None => str s
          | Some m =>
              let before := str (firstn (m_start m - pos) s) in
              let rest := skipn (m_end m - pos) s in
              if Nat.eqb (m_end m) (m_start m) then
                match skipn (m_start m - pos) s with
                | [] => before ++ expand subject m tpl
                | c :: rest' =>
                    before ++ expand subject m tpl ++ String c
                      (sub_from fuel r tpl subject (S (m_end m)) rest')
                end
              else
                before ++ expand subject m tpl
                  ++ sub_from fuel r tpl subject (m_end m) rest
          end).
  destruct (search_from r pos s) as [m|] eqn:E; [|reflexivity].
  apply search_from_bounds in E as [[B1 B2] B3]. cbv zeta.
  destruct (Nat.eqb_spec (m_end m) (m_start m)) as [Q|Q].
  - destruct (skipn (m_start m - pos) s) as [|c rest'] eqn:K; [reflexivity|].
    rewrite IH; [reflexivity|].
    assert (L := length_skipn (m_start m - pos) s). rewrite K in L.
    simpl in L. lia.
  - rewrite IH; [reflexivity|]. rewrite length_skipn. lia.
Qed.

(** The scan of [re.findall], likewise. *)
Theorem findall_from_budget_irrelevant (r : regex) (subject : string) :
  forall fuel pos s,
    (S (List.length s) <= fuel)%nat ->
    findall_from (S fuel) r subject pos s = findall_from fuel r subject pos s.
Proof.
  induction fuel as [|fuel IH]; intros pos s Hf; [lia|].
  change (findall_from (S (S fuel)) r subject pos s)
    with (match search_from r pos s with
          | None => []
          | Some m =>
              if Nat.eqb (m_end m) (m_start m) then
                match skipn (m_start m - pos) s with
                | [] => [group0 subject m]
                | _ :: rest' =>
                    group0 subject m
                      :: findall_from (S fuel) r subject (S (m_end m)) rest'
                end
              else
                group0 subject m
                  :: findall_from (S fuel) r subject (m_end m)
                                  (skipn (m_end m - pos) s)
          end).
  change (findall_from (S fuel) r subject pos s)
    with (match search_from r pos s with
          | None => []
          | Some m =>
              if Nat.eqb (m_end m) (m_start m) then
                match skipn (m_start m - pos) s with
                | [] => [group0 subject m]
                | _ :: rest' =>
                    group0 subject m
                      :: findall_from fuel r subject (S (m_end m)) rest'
                end
              else
                group0 subject m
                  :: findall_from fuel r subject (m_end m)
                                  (skipn (m_end m - pos) s)
          end).
  destruct (search_from r pos s) as [m|] eqn:E; [|reflexivity].
  apply search_from_bounds in E as [[B1 B2] B3].
  destruct (Nat.eqb_spec (m_end m) (m_start m)) as [Q|Q].
  - destruct (skipn (m_start m - pos) s) as [|c rest'] eqn:K; [reflexivity|].
    rewrite IH; [reflexivity|].
    assert (L := length_skipn (m_start m - pos) s). rewrite K in L.
    simpl in L. lia.
  - rewrite IH; [reflexivity|]. rewrite length_skipn. lia.
Qed.

End ReFacts.

(** ** The parser: submission endpoint and download endpoint *)

Module ParserFacts.
Import Py PyFacts Re ReSpec ReFacts Html Models QuizParser ParserSpec Examples.

(** The first element a predicate accepts, with what comes before it. *)
Lemma find_first {A : Type} (p : A -> bool) (l : list A) (x : A) :
  find p l = Some x ->
  exists pre post,
    l = (pre ++ x :: post)%list /\ forallb (fun y => negb (p y)) pre = true
    /\ p x = true.
Proof.
  induction l as [|a l IH]; simpl; [discriminate|].
  destruct (p a) eqn:Ha.
  - intros [= ->]. now exists [], l.
  - intros H. destruct (IH H) as (pre & post & -> & Hpre & Hx).
    exists (a :: pre), post. simpl. now rewrite Ha, Hpre.
Qed.

Lemma find_exists {A : Type} (p : A -> bool) (l : list A) (x : A) :
  In x l -> p x = true -> exists y, find p l = Some y.
Proof.
  intros Hin Hp. destruct (find p l) as [y|] eqn:E; [now exists y|].
  now rewrite (find_none p l E x Hin) in Hp.
Qed.

Lemma first_some_none {A B : Type} (f : A -> option B) (l : list A) :
  first_some f l = None <-> forall x, In x l -> f x = None.
Proof.
  induction l as [|a l IH]; simpl.
  - split; [intros _ x [] | reflexivity].
  - destruct (f a) eqn:Ha.
    + split; [discriminate|]. intros H. now rewrite (H a (or_introl eq_refl)) in Ha.
    + rewrite IH. split.
      * intros H x [<-|Hx]; auto.
      * intros H x Hx. apply H. now right.
Qed.

(** *** Submission endpoint *)

Lemma raw_html_content (page : html) (quiz_url : string) :
  raw_html (parse_quiz_page page quiz_url) = content_of page.
Proof.
  unfold parse_quiz_page, content_of.
  now destruct (find_id page "result").
Qed.

Lemma extract_submission_url_anchor (text : string) (html : html) (href : string) :
  find has_submit (anchor_hrefs html) = Some href ->
  _extract_submission_url text html = href.
Proof.
  intros H. unfold _extract_submission_url. cbv zeta.
  unfold has_submit in H. now rewrite H.
Qed.

(** C5, as the code has it.  The parser works on the element with id
    [result] when the page has one and on the whole page otherwise.  When
    that markup contains an anchor whose href contains [submit], in any
    case, the submission endpoint is the href of the FIRST such anchor in
    document order, verbatim, whatever the page text is: no text pattern,
    synthesized origin or fallback is consulted. *)
Theorem anchor_submit_href_wins :
  forall (page : html) (quiz_url href : string),
    In href (anchor_hrefs (content_of page)) ->
    has_submit href = true ->
    exists pre first post,
      anchor_hrefs (content_of page) = (pre ++ first :: post)%list
      /\ forallb (fun h => negb (has_submit h)) pre = true
      /\ has_submit first = true
      /\ submission_url (parse_quiz_page page quiz_url) = first
      /\ forall text, _extract_submission_url text (content_of page) = first.
Proof.
  intros page quiz_url href Hin Hs.
  destruct (find_exists has_submit _ href Hin Hs) as (first & F).
  destruct (find_first has_submit _ first F) as (pre & post & E & Hpre & Hf).
  exists pre, first, post. repeat split; auto.
  - unfold parse_quiz_page. fold (content_of page).
    unfold content_of in *.
    destruct (find_id page "result"); simpl;
      now apply extract_submission_url_anchor.
  - intros text. now apply extract_submission_url_anchor.
Qed.

Lemma anchor_submit_href_wins_witness :
  exists pre first post,
    anchor_hrefs (content_of page_with_anchor) = (pre ++ first :: post)%list
    /\ forallb (fun h => negb (has_submit h)) pre = true
    /\ has_submit first = true
    /\ submission_url (parse_quiz_page page_with_anchor "https://x/quiz") = first
    /\ forall text, _extract_submission_url text (content_of page_with_anchor) = first.
Proof.
  apply (anchor_submit_href_wins page_with_anchor "https://x/quiz" "/Submit").
  - vm_compute. now left.
  - vm_compute. reflexivity.
Defined.

(** C5 as stated fails: the page contains an anchor whose href contains
    [submit], and the submission endpoint is not that href (it is empty):
    the anchor is outside the element the parser works on. *)
Lemma anchor_outside_result_counterexample :
  In "/submit" (anchor_hrefs page_anchor_outside)
  /\ has_submit "/submit" = true
  /\ submission_url (parse_quiz_page page_anchor_outside "https://h/quiz")
     = EmptyString.
Proof. repeat split; vm_compute; auto. Qed.

End ParserFacts.

(** ** The parser: download endpoint *)

Module DownloadFacts.
Import Py PyFacts Re ReSpec ReFacts Html Models QuizParser ParserSpec ParserFacts Examples.

Lemma str_app (a b : list ascii) : str (a ++ b) = str a ++ str b.
Proof. induction a as [|c a IH]; simpl; [reflexivity|]. now rewrite IH. Qed.

Lemma str_chars (s : string) : str (chars s) = s.
Proof. apply string_of_list_ascii_of_string. Qed.


(** A word of a literal taken without regard to case is the literal, up to
    case. *)
Lemma lang_lit_ci (t : string) (w : list ascii) :
  lang (lit true t) w -> lower (str w) = lower t.
Proof.
  unfold lit. revert w. induction t as [|c t IH]; intros w H; simpl in H.
  - now subst w.
  - destruct H as (w1 & w2 & -> & (x & -> & Hx) & H2).
    apply Ascii.eqb_eq in Hx. simpl. rewrite Hx. f_equal. now apply IH.
Qed.










End DownloadFacts.

(** ** Calls and traces *)

Module EffectFacts.
Import Py Json Html Effects TraceSpec.
Local Open Scope quiz_scope.

Lemma count_app (P : call -> bool) (a b : trace) :
  count P (a ++ b)%list = (count P a + count P b)%nat.
Proof. unfold count. now rewrite filter_app, length_app. Qed.

Lemma count_none (P : call -> bool) (added : trace) :
  forallb (fun c => negb (P c)) added = true -> count P added = 0%nat.
Proof.
  unfold count. induction added as [|c l IH]; simpl; [reflexivity|].
  intros H. apply andb_true_iff in H as [Hc Hl].
  apply negb_true_iff in Hc. rewrite Hc. now apply IH.
Qed.

Section Adds.
Context {A B : Type} (P : call -> bool).

Lemma adds_ret (a : A) : adds P (ret a).
Proof. intros tr. exists []. simpl. now rewrite app_nil_r. Qed.

Lemma adds_raise (e : exn) : adds P (@raise A e).
Proof. intros tr. exists []. simpl. now rewrite app_nil_r. Qed.

Lemma adds_lift (r : exn + A) : adds P (lift r).
Proof. intros tr. exists []. simpl. now rewrite app_nil_r. Qed.

Lemma adds_perform (c : call) (answer : trace -> exn + A) :
  P c = true -> adds P (perform c answer).
Proof. intros H tr. exists [c]. simpl. now rewrite H. Qed.

Lemma adds_bind (m : M A) (k : A -> M B) :
  adds P m -> (forall a, adds P (k a)) -> adds P (bind m k).
Proof.
  intros Hm Hk tr. unfold bind.
  destruct (Hm tr) as (a1 & E1 & P1).
  destruct (m tr) as [[e|a] tr1]; simpl in E1; subst tr1.
  - now exists a1.
  - destruct (Hk a (tr ++ a1)%list) as (a2 & E2 & P2).
    exists (a1 ++ a2)%list. rewrite E2, app_assoc, forallb_app, P1, P2. auto.
Qed.

Lemma adds_catch (m : M A) (h : exn -> M A) :
  adds P m -> (forall e, adds P (h e)) -> adds P (catch m h).
Proof.
  intros Hm Hh tr. unfold catch.
  destruct (Hm tr) as (a1 & E1 & P1).
  destruct (m tr) as [[e|a] tr1]; simpl in E1; subst tr1.
  - destruct (Hh e (tr ++ a1)%list) as (a2 & E2 & P2).
    exists (a1 ++ a2)%list. rewrite E2, app_assoc, forallb_app, P1, P2. auto.
  - now exists a1.
Qed.

End Adds.

End EffectFacts.

(** ** The submission protocol *)

Module SubmitterFacts.
Import Py Json Html Models Effects TraceSpec EffectFacts AnswerSubmitter SubmitterSpec Examples.

Section Submitter.
Variable W : World.
Variables email secret : string.

(** One submission is one POST, and it returns. *)
Lemma submit_answer_run (submission_url quiz_url : string) (answer : pyval)
  (tr : trace) :
  submit_answer W email secret submission_url quiz_url answer tr
  = (inr (verdict_of (w_post W tr submission_url
                             (payload_of email secret quiz_url answer))),
     (tr ++ [Post submission_url (payload_of email secret quiz_url answer)])%list).
Proof.
  unfold submit_answer, catch, bind, perform, lift, ret, verdict_of.
  destruct (w_post W tr submission_url _) as [e|response]; [reflexivity|].
  now destruct (read_response response).
Qed.

Lemma read_response_well_typed (response : Response)
  (d : list (string * pyval)) (c : bool) (u r : option string) :
  status_code response = 200%Z ->
  loads (text response) = inr (PDict d) ->
  body_correct d = Some c ->
  body_string d "url" = Some u ->
  body_string d "reason" = Some r ->
  read_response response = inr {| correct := c; url := u; reason := r |}.
Proof.
  intros Hs Hl Hc Hu Hr. unfold read_response, response_json.
  rewrite Hs, Hl. simpl.
  unfold body_correct in Hc. unfold body_string in Hu, Hr.
  destruct (dict_get d "correct") as [[]|]; try discriminate;
    injection Hc as <-;
    (destruct (dict_get d "url") as [[]|]; try discriminate;
     injection Hu as <-;
     (destruct (dict_get d "reason") as [[]|]; try discriminate;
      injection Hr as <-; reflexivity)).
Qed.

End Submitter.

(** C4.  A submission POSTs the body [{email, secret, url, answer}] once
    (the trace grows by that single call: there is no retry inside) and
    returns a result.  On status 200 with a JSON object as body the result
    takes correct, url and reason from the body, each optional, a missing
    correct being false.  On any other status the result is incorrect, has
    no next URL, and its reason is the status code and the body.  When the
    POST raises the result is incorrect, has no next URL, and its reason is
    the text of the exception. *)
Theorem submit_answer_protocol :
  forall (W : World) (email secret submission_url quiz_url : string)
         (answer : pyval) (tr : trace),
    let payload :=
      PDict [("email", PStr email); ("secret", PStr secret);
             ("url", PStr quiz_url); ("answer", answer)] in
    exists result,
      submit_answer W email secret submission_url quiz_url answer tr
      = (inr result, (tr ++ [Post submission_url payload])%list)
      /\ (forall response d c u r,
            w_post W tr submission_url payload = inr response ->
            status_code response = 200%Z ->
            loads (text response) = inr (PDict d) ->
            body_correct d = Some c ->
            body_string d "url" = Some u ->
            body_string d "reason" = Some r ->
            result = {| correct := c; url := u; reason := r |})
      /\ (forall response d,
            w_post W tr submission_url payload = inr response ->
            status_code response = 200%Z ->
            loads (text response) = inr (PDict d) ->
            dict_get d "correct" = None ->
            body_string d "url" <> None ->
            body_string d "reason" <> None ->
            correct result = false)
      /\ (forall response,
            w_post W tr submission_url payload = inr response ->
            status_code response <> 200%Z ->
            result = {| correct := false; url := None;
                        reason := Some ("HTTP " ++ str_of_Z (status_code response)
                                        ++ ": " ++ text response) |})
      /\ (forall e,
            w_post W tr submission_url payload = inl e ->
            result = {| correct := false; url := None;
                        reason := Some (exn_msg e) |}).
Proof.
  intros W email secret submission_url quiz_url answer tr payload.
  eexists. split; [apply submit_answer_run|].
  fold payload. change (payload_of email secret quiz_url answer) with payload.
  split; [|split; [|split]].
  - intros response d c u r Hp Hs Hl Hc Hu Hr. rewrite Hp. simpl.
    now rewrite (read_response_well_typed response d c u r).
  - intros response d Hp Hs Hl Hc Hu Hr. rewrite Hp. simpl.
    destruct (body_string d "url") as [u|] eqn:Eu; [|contradiction].
    destruct (body_string d "reason") as [r|] eqn:Er; [|contradiction].
    rewrite (read_response_well_typed response d false u r); auto.
    unfold body_correct. now rewrite Hc.
  - intros response Hp Hs. rewrite Hp. simpl. unfold read_response.
    apply Z.eqb_neq in Hs. now rewrite Hs.
  - intros e Hp. now rewrite Hp.
Qed.

(** *** Three servers *)

(** C4 at four servers: one that accepts the answer, one that gives no
    verdict, one that answers 500, one that cannot be reached. *)
Lemma submit_answer_protocol_witness :
  fst (submit_answer (quiet_world (inr {| status_code := 200; text := body_accepted |}))
                     "me" "key" "https://h/submit" "https://h/q1" (PInt 4) [])
  = inr {| correct := true; url := Some "https://h/q2"; reason := None |}
  /\ (exists r,
        fst (submit_answer
               (quiet_world (inr {| status_code := 200; text := body_no_verdict |}))
               "me" "key" "https://h/submit" "https://h/q1" (PInt 4) []) = inr r
        /\ correct r = false)
  /\ fst (submit_answer (quiet_world (inr {| status_code := 500; text := "oops" |}))
                        "me" "key" "https://h/submit" "https://h/q1" (PInt 4) [])
     = inr {| correct := false; url := None; reason := Some "HTTP 500: oops" |}
  /\ fst (submit_answer (quiet_world (inl connection_refused))
                        "me" "key" "https://h/submit" "https://h/q1" (PInt 4) [])
     = inr {| correct := false; url := None;
              reason := Some "All connection attempts failed" |}.
Proof.
  split; [|split; [|split]].
  - destruct (submit_answer_protocol
                (quiet_world (inr {| status_code := 200; text := body_accepted |}))
                "me" "key" "https://h/submit" "https://h/q1" (PInt 4) [])
      as (result & E & H & _).
    rewrite E. cbn [fst]. f_equal.
    apply (H {| status_code := 200; text := body_accepted |}
             [("correct", PBool true); ("url", PStr "https://h/q2")]);
      vm_compute; reflexivity.
  - destruct (submit_answer_protocol
                (quiet_world (inr {| status_code := 200; text := body_no_verdict |}))
                "me" "key" "https://h/submit" "https://h/q1" (PInt 4) [])
      as (result & E & _ & H & _).
    rewrite E. exists result. split; [reflexivity|].
    apply (H {| status_code := 200; text := body_no_verdict |}
             [("url", PStr "https://h/q2")]);
      vm_compute; solve [reflexivity | discriminate].
  - destruct (submit_answer_protocol
                (quiet_world (inr {| status_code := 500; text := "oops" |}))
                "me" "key" "https://h/submit" "https://h/q1" (PInt 4) [])
      as (result & E & _ & _ & H & _).
    rewrite E. cbn [fst]. f_equal.
    apply (H {| status_code := 500; text := "oops" |});
      [reflexivity | vm_compute; discriminate].
  - destruct (submit_answer_protocol (quiet_world (inl connection_refused))
                "me" "key" "https://h/submit" "https://h/q1" (PInt 4) [])
      as (result & E & _ & _ & _ & H).
    rewrite E. cbn [fst]. f_equal. apply (H connection_refused). reflexivity.
Defined.

End SubmitterFacts.

(** ** The orchestrator *)

Module OrchestratorFacts.
Import Py Json Html Url Models Effects TraceSpec EffectFacts.
Import AnswerSubmitter SubmitterSpec SubmitterFacts LLMService QuizParser.
Import QuizOrchestrator OrchestratorSpec Examples.
Local Open Scope quiz_scope.

Lemma adds_weaken {A : Type} (P Q : call -> bool) (m : M A) :
  (forall c, P c = true -> Q c = true) -> adds P m -> adds Q m.
Proof.
  intros HPQ Hm tr. destruct (Hm tr) as (added & E & HP).
  exists added. split; [exact E|].
  apply forallb_forall. intros c Hc. apply HPQ.
  now apply (proj1 (forallb_forall _ _) HP).
Qed.

Ltac adds_step :=
  first
    [ apply adds_ret
    | apply adds_raise
    | apply adds_lift
    | apply adds_perform; reflexivity
    | apply adds_bind; [|intros ?]
    | apply adds_catch; [|intros ?]
    | match goal with
      | |- adds _ (match ?x with _ => _ end) => destruct x
      | |- adds _ (if ?b then _ else _) => destruct b
      end ].

Section Orchestrator.
Variable W : World.
Variables email secret : string.

Lemma completion_quiet (system : string) (image : option string) (text : string) :
  adds quiet (completion W system image text).
Proof. unfold completion. repeat adds_step. Qed.

Lemma analyze_quiz_quiet (q ctx : string) (img : option string) :
  adds quiet (analyze_quiz W q ctx img).
Proof.
  unfold analyze_quiz. repeat adds_step; apply completion_quiet.
Qed.

Lemma solve_with_vision_quiet (qc : QuizContent) (shot : string) :
  adds quiet (_solve_with_vision W qc shot).
Proof.
  unfold _solve_with_vision, analyze_with_vision.
  repeat adds_step; apply completion_quiet.
Qed.

Lemma solve_scraping_quiet (qc : QuizContent) (base shot : string) :
  adds quiet (_solve_scraping_task W qc base shot).
Proof.
  unfold _solve_scraping_task.
  repeat first [ apply solve_with_vision_quiet | apply analyze_quiz_quiet
               | adds_step ].
Qed.

(** The dispatch neither renders a page nor submits. *)
Lemma solve_by_type_quiet (qc : QuizContent) (shot base : string) :
  adds quiet (_solve_by_type W qc shot base).
Proof.
  unfold _solve_by_type, _solve_api_task, analyze_with_vision.
  repeat first [ apply solve_with_vision_quiet | apply analyze_quiz_quiet
               | apply solve_scraping_quiet | apply completion_quiet
               | adds_step ].
Qed.

(** The fallback: one visual-analysis call, whose answer is normalized. *)
Lemma solve_with_vision_run (qc : QuizContent) (shot : string) (tr : trace) :
  _solve_with_vision W qc shot tr
  = (match w_chat W tr vision_system_prompt (Some shot)
                  (vision_prompt (question qc)) with
     | inl e => inl e
     | inr None => inl attribute_error
     | inr (Some content) => _parse_answer (strip content)
     end,
     (tr ++ [vision_call qc shot])%list).
Proof.
  unfold _solve_with_vision, analyze_with_vision, completion, vision_call,
    bind, perform, lift, ret, raise.
  now destruct (w_chat W tr _ _ _) as [e|[content|]].
Qed.

(** One step, once the page is rendered and its submission endpoint is
    found: dispatch, submit, and the retry. *)
Lemma solve_single_quiz_run (url : string) (tr : trace)
  (page : html) (shot sub : string) :
  w_render W tr url = inr (page, shot) ->
  truthy (submission_url (parse_quiz_page page url)) = true ->
  make_absolute_url (submission_url (parse_quiz_page page url)) url = inr sub ->
  solve_single_quiz W email secret url tr
  = match _solve_by_type W (parse_quiz_page page url) shot url
                         (tr ++ [Render url])%list with
    | (inl e, tr1) => (inl e, tr1)
    | (inr answer, tr1) =>
        let r1 := verdict_of (w_post W tr1 sub (payload_of email secret url answer)) in
        let tr2 := (tr1 ++ [Post sub (payload_of email secret url answer)])%list in
        if negb (correct r1)
           && match Models.url r1 with None => true | Some _ => false end
        then
          match _solve_with_vision W (parse_quiz_page page url) shot tr2 with
          | (inl e, tr3) => (inl e, tr3)
          | (inr answer2, tr3) =>
              (inr (verdict_of (w_post W tr3 sub (payload_of email secret url answer2))),
               (tr3 ++ [Post sub (payload_of email secret url answer2)])%list)
          end
        else (inr r1, tr2)
    end.
Proof.
  intros Hr Ht Ha. unfold solve_single_quiz.
  unfold bind at 1. unfold perform at 1. rewrite Hr.
  cbn [fst snd]. rewrite Ht. cbn [negb].
  unfold bind at 1. unfold lift at 1. rewrite Ha.
  unfold bind at 1.
  destruct (_solve_by_type W _ shot url _) as [[e|answer] tr1]; [reflexivity|].
  unfold bind at 1. rewrite submit_answer_run.
  cbv zeta.
  destruct (negb _ && _); [|reflexivity].
  unfold bind at 1.
  destruct (_solve_with_vision W _ shot _) as [[e|answer2] tr3]; [reflexivity|].
  unfold bind at 1. rewrite submit_answer_run. reflexivity.
Qed.

(** Every step renders exactly once, whatever happens next. *)
Lemma solve_single_quiz_renders (url : string) (tr : trace) :
  count is_render (snd (solve_single_quiz W email secret url tr))
  = S (count is_render tr).
Proof.
  assert (K : forall page_data,
             adds not_render
               ((fun page_data : html * string =>
                   let html_content := fst page_data in
                   let screenshot := snd page_data in
                   let quiz_content := parse_quiz_page html_content url in
                   if negb (truthy (submission_url quiz_content)) then
                     ret {| correct := false; Models.url := None;
                            reason := Some "No submission URL found" |}
                   else
                     submission_url <-
                       lift (make_absolute_url (submission_url quiz_content) url) ;;
                     answer <- _solve_by_type W quiz_content screenshot url ;;
                     result <- submit_answer W email secret submission_url url answer ;;
                     if negb (correct result)
                        && match Models.url result with
                           | None => true
                           | Some _ => false
                           end
                     then
                       answer <- _solve_with_vision W quiz_content screenshot ;;
                       result <- submit_answer W email secret submission_url url answer ;;
                       ret result
                     else ret result) page_data)).
  { intros page_data. cbv beta zeta.
    assert (Q : forall c, quiet c = true -> not_render c = true).
    { intros c H. unfold quiet in H. now apply andb_true_iff in H as [H _]. }
    unfold submit_answer.
    repeat first
      [ apply (adds_weaken quiet not_render _ Q), solve_by_type_quiet
      | apply (adds_weaken quiet not_render _ Q), solve_with_vision_quiet
      | adds_step ]. }
  unfold solve_single_quiz, bind at 1, perform at 1.
  destruct (w_render W tr url) as [e|page_data]; simpl.
  - rewrite count_app. unfold count. simpl. lia.
  - destruct (K page_data (tr ++ [Render url])%list) as (added & E & HP).
    cbv beta zeta in E. rewrite E.
    rewrite !count_app, (count_none is_render added HP).
    unfold count. simpl. lia.
Qed.

(** *** The loop *)

Lemma chain_loop_stops (fuel : nat) (max_questions : Z)
  (current_url : option string) (n : Z) (res : list QuizResult) (tr : trace) :
  goes_on max_questions current_url n = false ->
  chain_loop W email secret fuel max_questions current_url n res tr
  = Some {| question_count := n; results := res; calls := tr |}.
Proof.
  unfold goes_on, truthy_opt. intros H.
  destruct fuel; simpl; destruct current_url as [cur|]; try reflexivity;
    now rewrite H.
Qed.

Lemma chain_loop_step (fuel : nat) (max_questions : Z) (cur : string)
  (n : Z) (res : list QuizResult) (tr : trace) :
  goes_on max_questions (Some cur) n = true ->
  chain_loop W email secret (S fuel) max_questions (Some cur) n res tr
  = match solve_single_quiz W email secret cur tr with
    | (inr result, tr') =>
        chain_loop W email secret fuel max_questions (Models.url result)
                   (n + 1) (res ++ [result])%list tr'
    | (inl e, tr') =>
        Some {| question_count := n + 1; results := res; calls := tr' |}
    end.
Proof. unfold goes_on, truthy_opt. intros H. simpl. now rewrite H. Qed.

(** The loop returns when it is given the iterations the maximum allows. *)
Lemma chain_loop_total (fuel : nat) (max_questions : Z) :
  forall (current_url : option string) (n : Z) (res : list QuizResult)
         (tr : trace),
    (Z.to_nat (max_questions - n) <= fuel)%nat ->
    exists st,
      chain_loop W email secret fuel max_questions current_url n res tr = Some st.
Proof.
  induction fuel as [|fuel IH]; intros current_url n res tr Hf.
  - destruct (goes_on max_questions current_url n) eqn:G.
    + unfold goes_on in G. apply andb_true_iff in G as [_ G].
      apply Z.ltb_lt in G. lia.
    + rewrite chain_loop_stops by exact G. eauto.
  - destruct (goes_on max_questions current_url n) eqn:G.
    + destruct current_url as [cur|]; [|discriminate G].
      rewrite chain_loop_step by exact G.
      destruct (solve_single_quiz W email secret cur tr) as [[e|r] tr']; eauto.
      apply IH. lia.
    + rewrite chain_loop_stops by exact G. eauto.
Qed.

(** What the loop leaves: the counter has grown by the number of pages
    rendered, never beyond the maximum, and at most one result is recorded
    per page. *)
Lemma chain_loop_counts (fuel : nat) (max_questions : Z) :
  forall (current_url : option string) (n : Z) (res : list QuizResult)
         (tr : trace) (st : chain_state),
    chain_loop W email secret fuel max_questions current_url n res tr = Some st ->
    (n <= question_count st <= Z.max n max_questions)%Z
    /\ count is_render (calls st)
       = (count is_render tr + Z.to_nat (question_count st - n))%nat
    /\ (List.length (results st)
        <= List.length res + Z.to_nat (question_count st - n))%nat
    /\ (goes_on max_questions current_url n = true ->
        (n < question_count st)%Z).
Proof.
  induction fuel as [|fuel IH]; intros current_url n res tr st H.
  - destruct (goes_on max_questions current_url n) eqn:G.
    + simpl in H. unfold goes_on, truthy_opt in G.
      destruct current_url as [cur|]; [|discriminate G].
      rewrite G in H. discriminate H.
    + rewrite chain_loop_stops in H by exact G. injection H as <-. simpl.
      rewrite Z.sub_diag. simpl. repeat split; try lia; try discriminate.
  - destruct (goes_on max_questions current_url n) eqn:G.
    + destruct current_url as [cur|]; [|discriminate G].
      rewrite chain_loop_step in H by exact G.
      pose proof (solve_single_quiz_renders cur tr) as R.
      assert (Lt : (n < max_questions)%Z).
      { unfold goes_on in G. apply andb_true_iff in G as [_ G].
        now apply Z.ltb_lt in G. }
      destruct (solve_single_quiz W email secret cur tr) as [[e|r] tr'];
        simpl in R.
      * injection H as <-. simpl. rewrite R.
        replace (n + 1 - n)%Z with 1%Z by lia. simpl.
        repeat split; try lia.
      * apply IH in H as (Hq & Hr & Hl & _).
        rewrite Hr, R. rewrite length_app in Hl. simpl in Hl.
        repeat split; try lia.
    + rewrite chain_loop_stops in H by exact G. injection H as <-. simpl.
      rewrite Z.sub_diag. simpl. repeat split; try lia; try discriminate.
Qed.

(** The loop, left by a step that raises. *)
Lemma chain_loop_raise (fuel : nat) (max_questions : Z) (cur : string)
  (n : Z) (res : list QuizResult) (tr tr1 : trace) (e : exn) :
  goes_on max_questions (Some cur) n = true ->
  solve_single_quiz W email secret cur tr = (inl e, tr1) ->
  chain_loop W email secret (S fuel) max_questions (Some cur) n res tr
  = Some {| question_count := n + 1; results := res; calls := tr1 |}.
Proof. intros G H. rewrite chain_loop_step by exact G. now rewrite H. Qed.

(** *** A server that always names a next URL *)



End Orchestrator.

(** C2, as the code has it.  A step whose first verdict is incorrect and
    names no next URL makes one more attempt: right after that verdict the
    visual analysis is called once, with the screenshot and the fallback
    prompt built from the question, whatever the category of the page.
    When it gives an answer, that answer is submitted once and the verdict
    of that submission is the result of the step, whatever it is; no other
    call follows.  When it raises, the exception leaves the step and
    nothing is submitted again.  In both cases at most one POST follows
    the first. *)
Theorem incorrect_verdict_single_retry :
  forall (W : World) (email secret url : string) (tr : trace)
         (page : html) (shot sub : string) (answer : pyval)
         (tr1 tr2 : trace) (r1 : QuizResult),
    w_render W tr url = inr (page, shot) ->
    truthy (submission_url (parse_quiz_page page url)) = true ->
    make_absolute_url (submission_url (parse_quiz_page page url)) url
    = inr sub ->
    _solve_by_type W (parse_quiz_page page url) shot url
                   (tr ++ [Render url])%list = (inr answer, tr1) ->
    submit_answer W email secret sub url answer tr1 = (inr r1, tr2) ->
    correct r1 = false ->
    Models.url r1 = None ->
    let quiz_content := parse_quiz_page page url in
    let retry := vision_call quiz_content shot in
    retry
    = Chat "You are an expert at analyzing images and extracting information. Provide precise, accurate answers."
           (Some shot)
           ("Look at this quiz page screenshot and answer the question."
              ++ nl ++ nl ++ "Question from page:" ++ nl
              ++ question quiz_content ++ nl ++ nl
              ++ "Instructions:" ++ nl
              ++ "1. Analyze the screenshot carefully" ++ nl
              ++ "2. Follow any instructions in the quiz" ++ nl
              ++ "3. Compute the exact answer requested" ++ nl
              ++ "4. Return ONLY the answer value (number, string, boolean, or JSON)" ++ nl
              ++ "5. Do NOT include explanations")
    /\ tr2 = (tr1 ++ [Post sub (payload_of email secret url answer)])%list
    /\ _solve_with_vision W quiz_content shot tr2
       = (fst (_solve_with_vision W quiz_content shot tr2),
          (tr2 ++ [retry])%list)
    /\ (forall answer2,
          fst (_solve_with_vision W quiz_content shot tr2) = inr answer2 ->
          exists r2,
            submit_answer W email secret sub url answer2 (tr2 ++ [retry])%list
            = (inr r2,
               (tr2 ++ [retry; Post sub (payload_of email secret url answer2)])%list)
            /\ solve_single_quiz W email secret url tr
               = (inr r2,
                  (tr2 ++ [retry; Post sub (payload_of email secret url answer2)])%list))
    /\ (forall e,
          fst (_solve_with_vision W quiz_content shot tr2) = inl e ->
          solve_single_quiz W email secret url tr
          = (inl e, (tr2 ++ [retry])%list))
    /\ (count is_post (snd (solve_single_quiz W email secret url tr))
        <= count is_post tr2 + 1)%nat.
Proof.
  intros W email secret url tr page shot sub answer tr1 tr2 r1
         Hr Ht Ha Hd Hs Hc Hu quiz_content retry.
  rewrite submit_answer_run in Hs. injection Hs as Hr1 Htr2.
  pose proof (solve_single_quiz_run W email secret url tr page shot sub Hr Ht Ha)
    as E.
  rewrite Hd in E. cbv zeta in E. rewrite Hr1, Htr2, Hc, Hu in E. simpl in E.
  fold quiz_content in E.
  pose proof (solve_with_vision_run W quiz_content shot tr2) as V.
  fold retry in V.
  assert (V' : _solve_with_vision W quiz_content shot tr2
               = (fst (_solve_with_vision W quiz_content shot tr2),
                  (tr2 ++ [retry])%list)).
  { rewrite V at 1. f_equal. now rewrite V. }
  split; [reflexivity|].
  split; [now symmetry|]. split; [exact V'|].
  rewrite V' in E.
  split; [|split].
  - intros answer2 H2. rewrite H2 in E. rewrite <- app_assoc in E. simpl in E.
    eexists. split; [|exact E].
    rewrite submit_answer_run, <- app_assoc. reflexivity.
  - intros e He. now rewrite He in E.
  - rewrite E.
    destruct (fst (_solve_with_vision W quiz_content shot tr2)); simpl;
      rewrite !count_app; unfold count; simpl; lia.
Qed.

(** X19.  A step whose first verdict is correct, or names a next URL,
    is not retried: after the one submission nothing more is called, and
    that verdict is the result of the step. *)
Lemma verdict_final_without_retry
  (W : World) (email secret url : string) (tr : trace)
  (page : html) (shot sub : string) (answer : pyval)
  (tr1 tr2 : trace) (r1 : QuizResult) :
  w_render W tr url = inr (page, shot) ->
  truthy (submission_url (parse_quiz_page page url)) = true ->
  make_absolute_url (submission_url (parse_quiz_page page url)) url = inr sub ->
  _solve_by_type W (parse_quiz_page page url) shot url
                 (tr ++ [Render url])%list = (inr answer, tr1) ->
  submit_answer W email secret sub url answer tr1 = (inr r1, tr2) ->
  correct r1 = true \/ Models.url r1 <> None ->
  solve_single_quiz W email secret url tr = (inr r1, tr2).
Proof.
  intros Hr Ht Ha Hd Hs Hc.
  rewrite submit_answer_run in Hs. injection Hs as Hr1 Htr2.
  rewrite (solve_single_quiz_run W email secret url tr page shot sub Hr Ht Ha), Hd.
  cbv zeta. rewrite Hr1, Htr2.
  destruct Hc as [Hc|Hc]; [now rewrite Hc|].
  destruct (Models.url r1); [|contradiction]. now rewrite andb_false_r.
Qed.

(** C8, as the code has it.  An exception raised by the dispatch of a
    step is not caught in the step and no visual-analysis attempt replaces
    the failed solver: the step raises the same exception without a further
    call.  The loop of the chain catches it and is left: no result is
    recorded for the step, no further page is fetched, and the chain ends
    by closing the submitter. *)
Theorem solver_exception_ends_chain :
  forall (W : World) (email secret url : string) (tr : trace)
         (page : html) (shot sub : string) (e : exn) (tr1 : trace),
    w_render W tr url = inr (page, shot) ->
    truthy (submission_url (parse_quiz_page page url)) = true ->
    make_absolute_url (submission_url (parse_quiz_page page url)) url
    = inr sub ->
    _solve_by_type W (parse_quiz_page page url) shot url
                   (tr ++ [Render url])%list = (inl e, tr1) ->
    solve_single_quiz W email secret url tr = (inl e, tr1)
    /\ (forall fuel max_questions n res,
          goes_on max_questions (Some url) n = true ->
          chain_loop W email secret (S fuel) max_questions (Some url) n res tr
          = Some {| question_count := n + 1; results := res; calls := tr1 |})
    /\ (forall max_questions res,
          truthy url = true -> (0 < max_questions)%Z ->
          solve_quiz_chain W email secret url max_questions res tr
          = Some {| question_count := 1; results := res;
                    calls := (tr1 ++ [Close])%list |}).
Proof.
  intros W email secret url tr page shot sub e tr1 Hr Ht Ha Hd.
  assert (E : solve_single_quiz W email secret url tr = (inl e, tr1)).
  { rewrite (solve_single_quiz_run W email secret url tr page shot sub Hr Ht Ha).
    now rewrite Hd. }
  split; [exact E|]. split.
  - intros fuel max_questions n res G. now apply (chain_loop_raise _ _ _ _ _ _ _ _ _ _ e).
  - intros max_questions res Hu Hm. unfold solve_quiz_chain.
    destruct (Z.to_nat max_questions) as [|fuel] eqn:F; [lia|].
    rewrite (chain_loop_raise W email secret fuel max_questions url 0 res tr tr1 e).
    + reflexivity.
    + unfold goes_on. simpl. rewrite Hu. now apply Z.ltb_lt.
    + exact E.
Qed.


(** *** Three worlds *)

(** C2 at the server that refuses every answer: the step makes two
    submissions and one visual-analysis call between them, and returns the
    second verdict. *)
Lemma incorrect_verdict_single_retry_witness :
  exists r2 tr2,
    solve_single_quiz world_always_wrong "me" "key" "https://h/q1" []
    = (inr r2,
       (tr2 ++ [vision_call (parse_quiz_page question_page "https://h/q1") "shot";
                Post "https://h/submit"
                     (payload_of "me" "key" "https://h/q1" (PInt 4))])%list)
    /\ count is_post tr2 = 1%nat.
Proof.
  destruct (incorrect_verdict_single_retry world_always_wrong "me" "key"
              "https://h/q1" [] question_page "shot" "https://h/submit"
              (PInt 4)
              [Render "https://h/q1";
               vision_call (parse_quiz_page question_page "https://h/q1") "shot"]
              [Render "https://h/q1";
               vision_call (parse_quiz_page question_page "https://h/q1") "shot";
               Post "https://h/submit"
                    (payload_of "me" "key" "https://h/q1" (PInt 4))]
              {| correct := false; url := None; reason := None |}
              eq_refl eq_refl eq_refl eq_refl eq_refl eq_refl eq_refl)
    as (_ & _ & _ & H & _).
  destruct (H (PInt 4) eq_refl) as (r2 & _ & E).
  exists r2. eexists. split; [exact E | reflexivity].
Defined.

(** C2 as stated fails: the server refuses the first answer and names no
    next URL, and the visual analysis of the retry raises.  The step makes
    one submission only: the exception of the visual analysis leaves the
    step, and nothing is submitted again. *)
Lemma incorrect_verdict_retry_counterexample :
  let quiz_content := parse_quiz_page question_page "https://h/q1" in
  let first := [Render "https://h/q1"; vision_call quiz_content "shot"] in
  submit_answer world_retry_fails "me" "key" "https://h/submit" "https://h/q1"
                (PInt 4) first
  = (inr {| correct := false; url := None; reason := None |},
     (first ++ [Post "https://h/submit"
                     (payload_of "me" "key" "https://h/q1" (PInt 4))])%list)
  /\ solve_single_quiz world_retry_fails "me" "key" "https://h/q1" []
     = (inl rate_limited,
        (first ++ [Post "https://h/submit"
                        (payload_of "me" "key" "https://h/q1" (PInt 4));
                   vision_call quiz_content "shot"])%list)
  /\ count is_post
       (snd (solve_single_quiz world_retry_fails "me" "key" "https://h/q1" []))
     = 1%nat.
Proof. repeat split; vm_compute; reflexivity. Qed.

(** C8 as stated fails: the data solver raises during the dispatch of the
    first step; the chain ends there.  The calls are the rendering, the
    description of the page that precedes the data solver, the data solver,
    and the closing of the submitter: no visual-analysis attempt follows
    the failure, nothing is submitted and no result is recorded. *)
Lemma solver_exception_counterexample :
  quiz_type (parse_quiz_page table_page "https://h/q1") = "data"
  /\ exists enhanced_question,
       solve_quiz_chain world_solver_fails "me" "key" "https://h/q1" 20 [] []
       = Some {| question_count := 1;
                 results := [];
                 calls := [Render "https://h/q1";
                           Chat vision_system_prompt (Some "shot") describe_prompt;
                           DataSolve enhanced_question None table_page;
                           Close] |}.
Proof. split; [reflexivity|]. eexists. vm_compute. reflexivity. Qed.

(** C8 at that world. *)
Lemma solver_exception_ends_chain_witness :
  exists tr1,
    solve_single_quiz world_solver_fails "me" "key" "https://h/q1" []
    = (inl solver_failure, tr1)
    /\ solve_quiz_chain world_solver_fails "me" "key" "https://h/q1" 20 [] []
       = Some {| question_count := 1; results := [];
                 calls := (tr1 ++ [Close])%list |}.
Proof.
  eexists.
  assert (T := fun tr1 D =>
    solver_exception_ends_chain world_solver_fails "me" "key" "https://h/q1" []
      table_page "shot" "https://h/submit" solver_failure tr1
      eq_refl eq_refl eq_refl D).
  split.
  - apply T. vm_compute. reflexivity.
  - apply T; [vm_compute; reflexivity | reflexivity | reflexivity].
Defined.




End OrchestratorFacts.

(** ** Texts: stripping, splitting and joining *)

Module TextFacts.
Import Py PyFacts UrlFacts TextSpec.

Lemma lstrip_with_head (p : ascii -> bool) (s : string) :
  head_kept p (lstrip_with p s) = true.
Proof.
  induction s as [|c s IH]; simpl; [reflexivity|].
  destruct (p c) eqn:E; [exact IH|]. simpl. now rewrite E.
Qed.

Lemma lstrip_with_kept (p : ascii -> bool) (s : string) :
  head_kept p s = true -> lstrip_with p s = s.
Proof.
  destruct s as [|c s]; simpl; [reflexivity|].
  intros H. apply negb_true_iff in H. now rewrite H.
Qed.

Lemma rstrip_with_head (p : ascii -> bool) (s : string) :
  head_kept p s = true -> head_kept p (rstrip_with p s) = true.
Proof.
  destruct s as [|c s]; simpl; [reflexivity|].
  intros H. destruct (rstrip_with p s); simpl; [|exact H].
  apply negb_true_iff in H. rewrite H. simpl. now rewrite H.
Qed.

Lemma rstrip_with_idem (p : ascii -> bool) (s : string) :
  rstrip_with p (rstrip_with p s) = rstrip_with p s.
Proof.
  induction s as [|c s IH]; simpl; [reflexivity|].
  destruct (rstrip_with p s) as [|d t] eqn:E.
  - destruct (p c) eqn:Pc; simpl; [reflexivity|]. now rewrite Pc.
  - simpl. simpl in IH. destruct (rstrip_with p t) as [|d' t'] eqn:E'.
    + destruct (p d); [discriminate IH|]. now rewrite IH.
    + now rewrite IH.
Qed.

(** Stripping twice is stripping once. *)
Lemma strip_idem (s : string) : strip (strip s) = strip s.
Proof.
  unfold strip.
  rewrite (lstrip_with_kept is_space (rstrip_with is_space (lstrip_with is_space s))).
  - apply rstrip_with_idem.
  - apply rstrip_with_head, lstrip_with_head.
Qed.

(** What stripping leaves is made of characters of the text. *)
Lemma lstrip_with_forallb (p q : ascii -> bool) (s : string) :
  forallb q (chars s) = true -> forallb q (chars (lstrip_with p s)) = true.
Proof.
  induction s as [|c s IH]; simpl; [reflexivity|].
  intros H. apply andb_true_iff in H as [Hc Hs].
  destruct (p c); [now apply IH|]. simpl. now rewrite Hc.
Qed.

Lemma rstrip_with_forallb (p q : ascii -> bool) (s : string) :
  forallb q (chars s) = true -> forallb q (chars (rstrip_with p s)) = true.
Proof.
  induction s as [|c s IH]; simpl; [reflexivity|].
  intros H. apply andb_true_iff in H as [Hc Hs]. specialize (IH Hs).
  destruct (rstrip_with p s) as [|d t].
  - destruct (p c); simpl; [reflexivity|]. now rewrite Hc.
  - simpl. simpl in IH. now rewrite Hc.
Qed.

Lemma strip_forallb (q : ascii -> bool) (s : string) :
  forallb q (chars s) = true -> forallb q (chars (strip s)) = true.
Proof.
  intros H. unfold strip. now apply rstrip_with_forallb, lstrip_with_forallb.
Qed.

Lemma split_on_free (sep : ascii) (s : string) :
  free_of sep s = true -> split_on sep s = [s].
Proof.
  unfold free_of. induction s as [|c s IH]; simpl; [reflexivity|].
  intros H. apply andb_true_iff in H as [Hc Hs]. apply negb_true_iff in Hc.
  now rewrite Hc, (IH Hs).
Qed.

(** The pieces of a split are free of the separator. *)
Lemma split_on_pieces (sep : ascii) (s : string) :
  forallb (free_of sep) (split_on sep s) = true.
Proof.
  induction s as [|c s IH]; [reflexivity|].
  simpl split_on. destruct (Ascii.eqb c sep) eqn:E.
  - simpl. exact IH.
  - destruct (split_on sep s) as [|w ws].
    + unfold free_of. simpl. now rewrite E.
    + simpl in IH. simpl. unfold free_of at 1. simpl. rewrite E. exact IH.
Qed.

Lemma split_on_app (sep : ascii) (a b : string) :
  split_on sep (a ++ String sep b) = (split_on sep a ++ split_on sep b)%list.
Proof.
  induction a as [|c a IH]; simpl.
  - now rewrite Ascii.eqb_refl.
  - destruct (Ascii.eqb c sep); [now rewrite IH|].
    rewrite IH.
    destruct (split_on sep a) as [|w ws] eqn:E;
      [now apply split_on_nonempty in E | reflexivity].
Qed.

(** Splitting what was joined gives the pieces back. *)
Lemma split_on_join (sep : ascii) (l : list string) :
  l <> [] -> forallb (free_of sep) l = true ->
  split_on sep (join (String sep EmptyString) l) = l.
Proof.
  induction l as [|w l IH]; [congruence|]. intros _ H.
  simpl in H. apply andb_true_iff in H as [Hw Hl].
  destruct l as [|w' l'].
  - simpl. now apply split_on_free.
  - change (join (String sep EmptyString) (w :: w' :: l'))
      with (w ++ String sep (join (String sep EmptyString) (w' :: l'))).
    rewrite split_on_app, (split_on_free sep w Hw), IH; [reflexivity| |exact Hl].
    discriminate.
Qed.

Lemma forallb_filter {A : Type} (p q : A -> bool) (l : list A) :
  forallb q l = true -> forallb q (filter p l) = true.
Proof.
  induction l as [|x l IH]; simpl; [reflexivity|].
  intros H. apply andb_true_iff in H as [Hx Hl].
  destruct (p x); simpl; [rewrite Hx|]; now apply IH.
Qed.

Lemma forallb_firstn {A : Type} (q : A -> bool) (n : nat) (l : list A) :
  forallb q l = true -> forallb q (firstn n l) = true.
Proof.
  revert l. induction n as [|n IH]; intros [|x l]; simpl; try reflexivity.
  intros H. apply andb_true_iff in H as [Hx Hl]. rewrite Hx. now apply IH.
Qed.

Lemma forallb_map {A B : Type} (f : A -> B) (q : B -> bool) (l : list A) :
  forallb q (map f l) = forallb (fun x => q (f x)) l.
Proof. induction l as [|x l IH]; simpl; [reflexivity | now rewrite IH]. Qed.

Lemma filter_all {A : Type} (p : A -> bool) (l : list A) :
  forallb p l = true -> filter p l = l.
Proof.
  induction l as [|x l IH]; simpl; [reflexivity|].
  intros H. apply andb_true_iff in H as [Hx Hl]. now rewrite Hx, IH.
Qed.

Lemma firstn_subset {A : Type} (n : nat) (l : list A) (x : A) :
  In x (firstn n l) -> In x l.
Proof.
  revert l. induction n as [|n IH]; intros [|y l]; simpl; try contradiction.
  intros [->|H]; [now left | right; now apply IH].
Qed.

End TextFacts.

(** ** The parser: the question *)

Module QuestionFacts.
Import Py PyFacts UrlFacts TextSpec TextFacts QuizParser QuestionSpec.

Lemma extract_question_join (text : string) :
  _extract_question text = join nl (question_lines text).
Proof. reflexivity. Qed.

Lemma filter_forallb {A : Type} (p : A -> bool) (l : list A) :
  forallb p (filter p l) = true.
Proof.
  induction l as [|x l IH]; simpl; [reflexivity|].
  destruct (p x) eqn:E; simpl; [now rewrite E|exact IH].
Qed.

Lemma question_lines_kept (text : string) :
  forallb keep_line (question_lines text) = true.
Proof. apply forallb_firstn, filter_forallb. Qed.

Lemma question_lines_free (text : string) :
  forallb (free_of LF) (question_lines text) = true.
Proof.
  apply forallb_firstn, forallb_filter. rewrite forallb_map.
  eapply forallb_weaken; [|apply (split_on_pieces LF text)].
  intros x Hx. now apply strip_forallb.
Qed.

Lemma question_lines_stripped (text line : string) :
  In line (question_lines text) ->
  strip line = line /\ In line (map strip (split_on LF text)).
Proof.
  intros H. unfold question_lines in H.
  assert (Hin : In line (map strip (split_on LF text))).
  { apply firstn_subset in H. now apply filter_In in H as [H _]. }
  split; [|exact Hin].
  apply in_map_iff in Hin as (x & <- & _). apply strip_idem.
Qed.

Lemma join_truthy (sep : string) (l : list string) :
  l <> [] -> forallb truthy l = true -> truthy (join sep l) = true.
Proof.
  destruct l as [|w l]; [congruence|]. intros _ H. simpl in H.
  apply andb_true_iff in H as [Hw _].
  destruct w as [|c w]; [discriminate|]. now destruct l.
Qed.

Lemma keep_line_truthy (line : string) :
  keep_line line = true -> truthy line = true.
Proof.
  unfold keep_line. intros H.
  apply andb_true_iff in H as [H _]. apply andb_true_iff in H as [H _].
  now apply andb_true_iff in H as [H _].
Qed.

(** The lines of a question that is not empty. *)
Lemma question_split (text : string) :
  question_lines text <> [] ->
  split_on LF (_extract_question text) = question_lines text.
Proof.
  intros H. rewrite extract_question_join.
  apply (split_on_join LF); [exact H | apply question_lines_free].
Qed.

Lemma question_empty (text : string) :
  _extract_question text = EmptyString <-> question_lines text = [].
Proof.
  rewrite extract_question_join. split.
  - intros E. destruct (question_lines text) as [|w l] eqn:Q; [reflexivity|].
    assert (T : truthy (join nl (w :: l)) = true).
    { apply join_truthy; [discriminate|]. rewrite <- Q.
      eapply forallb_weaken; [|apply question_lines_kept].
      apply keep_line_truthy. }
    rewrite E in T. discriminate.
  - now intros ->.
Qed.

(** X1.  The question is made of at most ten lines.  When it is not
    empty, each of its lines is a line of the text with the white space
    around it removed, is not empty, begins with no brace, does not name
    both [email] and [secret], and does not read [post your answer], in
    any case of the letters.  It is empty exactly when the text has no
    such line. *)
Theorem extract_question_lines :
  forall text : string,
    (List.length (split_on LF (_extract_question text)) <= 10)%nat
    /\ (_extract_question text <> EmptyString ->
        forall line,
          In line (split_on LF (_extract_question text)) ->
          In line (map strip (split_on LF text))
          /\ strip line = line
          /\ truthy line = true
          /\ startswith line "{" = false
          /\ startswith line "}" = false
          /\ contains (lower line) "email" && contains (lower line) "secret"
             = false
          /\ contains (lower line) "post your answer" = false)
    /\ (_extract_question text = EmptyString <->
        forall line,
          In line (split_on LF text) -> keep_line (strip line) = false).
Proof.
  intros text. split; [|split].
  - destruct (question_lines text) as [|w l] eqn:Q.
    + rewrite (proj2 (question_empty text) Q). simpl. lia.
    + rewrite question_split by (rewrite Q; discriminate).
      unfold question_lines. rewrite length_firstn. lia.
  - intros Hne line Hin.
    assert (Q : question_lines text <> []).
    { intros Q. now apply question_empty in Q. }
    rewrite (question_split text Q) in Hin.
    destruct (question_lines_stripped text line Hin) as [Hs Hfrom].
    pose proof (proj1 (forallb_forall _ _) (question_lines_kept text) line Hin)
      as K.
    unfold keep_line in K.
    apply andb_true_iff in K as [K K4]. apply andb_true_iff in K as [K K3].
    apply andb_true_iff in K as [K1 K2].
    apply negb_true_iff in K2, K3, K4.
    apply orb_false_iff in K2 as [K2 K2'].
    repeat split; assumption.
  - rewrite question_empty. unfold question_lines. split.
    + intros E line Hin.
      destruct (keep_line (strip line)) eqn:K; [|reflexivity].
      assert (In (strip line) (filter keep_line (map strip (split_on LF text)))).
      { apply filter_In. split; [now apply in_map | exact K]. }
      destruct (filter keep_line (map strip (split_on LF text))); [contradiction|].
      discriminate E.
    + intros H.
      replace (filter keep_line (map strip (split_on LF text))) with (@nil string);
        [reflexivity|].
      symmetry. induction (split_on LF text) as [|x l IH]; [reflexivity|].
      simpl. rewrite (H x (or_introl eq_refl)). apply IH.
      intros line Hl. apply H. now right.
Qed.

(** X2.  Extracting the question of a question gives it back: what the
    parser keeps of a text is kept whole when it is parsed again. *)
Theorem extract_question_idempotent :
  forall text : string,
    _extract_question (_extract_question text) = _extract_question text.
Proof.
  intros text.
  destruct (question_lines text) as [|w l] eqn:Q.
  - rewrite (proj2 (question_empty text) Q). reflexivity.
  - assert (Qne : question_lines text <> []) by (rewrite Q; discriminate).
    rewrite (extract_question_join (_extract_question text)).
    unfold question_lines at 1. rewrite (question_split text Qne).
    replace (map strip (question_lines text)) with (question_lines text).
    + rewrite (filter_all keep_line _ (question_lines_kept text)).
      unfold question_lines. rewrite firstn_firstn. reflexivity.
    + symmetry. rewrite <- (map_id (question_lines text)) at 2.
      apply map_ext_in. intros line Hin.
      now destruct (question_lines_stripped text line Hin).
Qed.

End QuestionFacts.

(** ** The parser: the page, its category and its solver *)

Module PageFacts.
Import Py PyFacts Json Html Models Effects QuizParser QuestionSpec.
Import LLMService QuizOrchestrator ParserSpec ParserFacts.

Lemma find_id_own (page : html) (ident : string) (div : node) :
  find_id page ident = Some div -> find_id [div] ident = Some div.
Proof.
  unfold find_id. intros H. apply find_some in H as [_ H].
  unfold all_elements. simpl. rewrite app_nil_r.
  destruct div as [s|tag attrs children]; [discriminate H|].
  simpl. simpl in H. now rewrite H.
Qed.

(** X3.  When the page has an element with id [result], the parse is the
    parse of that element alone: what lies outside it, and the URL of the
    page, play no part. *)
Theorem parse_quiz_page_result_local :
  forall (page : html) (quiz_url other_url : string) (result_div : node),
    find_id page "result" = Some result_div ->
    parse_quiz_page page quiz_url = parse_quiz_page [result_div] other_url.
Proof.
  intros page quiz_url other_url result_div H.
  unfold parse_quiz_page. now rewrite H, (find_id_own _ _ _ H).
Qed.

Lemma parse_quiz_page_result_local_witness :
  parse_quiz_page Examples.page_anchor_outside "https://h/quiz"
  = parse_quiz_page
      [Elem "div" [("id", "result")] [Text "What is 2 + 2?"]] EmptyString.
Proof.
  apply parse_quiz_page_result_local. vm_compute. reflexivity.
Defined.

(** The words of the text give one of five categories, never [pdf]. *)
Lemma keyword_category (text : string) :
  In (_determine_quiz_type text None) categories
  /\ _determine_quiz_type text None <> "pdf".
Proof.
  unfold _determine_quiz_type, categories. cbv zeta.
  destruct (contains (lower text) "api" || contains (lower text) "endpoint");
    [split; [simpl; auto 10 | discriminate]|].
  destruct (any_in ["chart"; "plot"; "graph"; "visualiz"] (lower text));
    [split; [simpl; auto 10 | discriminate]|].
  destruct (any_in _ (lower text));
    [split; [simpl; auto 10 | discriminate]|].
  destruct (any_in _ (lower text));
    split; solve [simpl; auto 10 | discriminate].
Qed.

(** A download endpoint that decides nothing leaves the category to the
    words of the text. *)
Lemma endpoint_undecided (text url : string) :
  truthy url = false
  \/ (contains (lower url) ".pdf" = false
      /\ existsb (fun ext => contains (lower url) ext)
                 [".csv"; ".xlsx"; ".json"] = false) ->
  _determine_quiz_type text (Some url) = _determine_quiz_type text None.
Proof.
  unfold _determine_quiz_type. cbv zeta.
  intros [T|[P D]]; [now rewrite T|].
  destruct (truthy url); [|reflexivity]. now rewrite P, D.
Qed.

(** The category [pdf] needs a download endpoint that holds [.pdf]. *)
Lemma pdf_needs_endpoint (text : string) (download_url : option string) :
  _determine_quiz_type text download_url = "pdf" ->
  exists url, download_url = Some url /\ contains (lower url) ".pdf" = true.
Proof.
  destruct download_url as [url|];
    [|intros E; now apply (proj2 (keyword_category text)) in E].
  destruct (contains (lower url) ".pdf") eqn:P; [intros _; now exists url|].
  destruct (truthy url) eqn:T.
  - destruct (existsb (fun ext => contains (lower url) ext)
                      [".csv"; ".xlsx"; ".json"]) eqn:D.
    + unfold _determine_quiz_type. cbv zeta. rewrite T, P, D. discriminate.
    + rewrite (endpoint_undecided text url) by (right; now split).
      intros E. now apply (proj2 (keyword_category text)) in E.
  - rewrite (endpoint_undecided text url) by now left.
    intros E. now apply (proj2 (keyword_category text)) in E.
Qed.

(** X4.  The category is one of six names.  It is [pdf] exactly when a
    download endpoint is present and [.pdf] occurs in it, in any case: the
    words of the text never give [pdf]. *)
Theorem determine_quiz_type_range :
  forall (text : string) (download_url : option string),
    In (_determine_quiz_type text download_url) categories
    /\ (_determine_quiz_type text download_url = "pdf" <->
        exists url, download_url = Some url
                    /\ contains (lower url) ".pdf" = true).
Proof.
  intros text download_url. split.
  - destruct download_url as [url|]; [|apply keyword_category].
    destruct (truthy url) eqn:T.
    + destruct (contains (lower url) ".pdf") eqn:P.
      * unfold _determine_quiz_type, categories. cbv zeta. rewrite T, P.
        simpl. auto.
      * destruct (existsb (fun ext => contains (lower url) ext)
                          [".csv"; ".xlsx"; ".json"]) eqn:D.
        -- unfold _determine_quiz_type, categories. cbv zeta.
           rewrite T, P, D. simpl. auto.
        -- rewrite (endpoint_undecided text url) by (right; now split).
           apply keyword_category.
    + rewrite (endpoint_undecided text url) by now left.
      apply keyword_category.
  - split; [apply pdf_needs_endpoint|].
    intros (url & -> & P).
    assert (T : truthy url = true) by (destruct url; [discriminate P | reflexivity]).
    unfold _determine_quiz_type. cbv zeta. now rewrite T, P.
Qed.

(** X5.  The dispatch of a parsed page.  A page of category [pdf] always
    carries a download endpoint, so its solver is the PDF handler, called
    once with the question and the endpoint made absolute, and nothing
    else is called.  A page of category [visualization] or [general] is
    solved by the visual analysis of the screenshot. *)
Theorem dispatch_of_parsed_page :
  forall (W : World) (page : html) (url shot : string),
    let quiz_content := parse_quiz_page page url in
    (quiz_type quiz_content = "pdf" ->
     exists d,
       download_url quiz_content = Some d
       /\ forall tr,
            _solve_by_type W quiz_content shot url tr
            = match make_absolute_url d url with
              | inl e => (inl e, tr)
              | inr absolute =>
                  (inr (w_pdf_solve W tr (question quiz_content) absolute),
                   (tr ++ [PdfSolve (question quiz_content) absolute])%list)
              end)
    /\ (quiz_type quiz_content = "visualization"
        \/ quiz_type quiz_content = "general" ->
        _solve_by_type W quiz_content shot url
        = _solve_with_vision W quiz_content shot).
Proof.
  intros W page url shot quiz_content. split.
  - intros Hpdf.
    assert (E : quiz_type quiz_content
                = _determine_quiz_type
                    (get_text_strip nl (content_of page))
                    (download_url quiz_content)).
    { unfold quiz_content, parse_quiz_page, content_of.
      now destruct (find_id page "result"). }
    pose proof Hpdf as Q. rewrite E in Hpdf.
    apply pdf_needs_endpoint in Hpdf as (d & Hd & Hc).
    exists d. split; [exact Hd|]. intros tr.
    unfold _solve_by_type. rewrite Hd.
    assert (T : truthy d = true) by (destruct d; [discriminate Hc | reflexivity]).
    rewrite Q, T. cbn [String.eqb Ascii.eqb Bool.eqb andb].
    unfold bind, lift, perform.
    now destruct (make_absolute_url d url).
  - intros Hq. unfold _solve_by_type.
    destruct Hq as [Hq|Hq]; rewrite Hq; cbn [String.eqb Ascii.eqb Bool.eqb andb];
      now destruct (download_url quiz_content).
Qed.

(** A page that links to a PDF: its step is one call of the PDF handler,
    with the absolute URL of the file. *)
Lemma dispatch_of_parsed_page_witness :
  exists answer,
    _solve_by_type (Examples.quiet_world (inl Examples.connection_refused))
      (parse_quiz_page
         [Elem "a" [("href", "/files/report.pdf")] [Text "Sum the table"]]
         "https://h/q")
      "shot" "https://h/q" []
    = (inr answer, [PdfSolve "Sum the table" "https://h/files/report.pdf"]).
Proof.
  destruct (dispatch_of_parsed_page
              (Examples.quiet_world (inl Examples.connection_refused))
              [Elem "a" [("href", "/files/report.pdf")] [Text "Sum the table"]]
              "https://h/q" "shot") as [H _].
  destruct H as (d & Hd & Hrun); [vm_compute; reflexivity|].
  injection Hd as <-. eexists. rewrite Hrun. vm_compute. reflexivity.
Defined.

End PageFacts.

(** ** The parser: the payload format *)

Module PayloadFacts.
Import Py PyFacts Json JsonFacts Re ReSpec ReFacts Html Models QuizParser.
Import ParserFacts DownloadFacts.

Lemma substring_middle (a w b : list ascii) :
  substring (List.length a) (List.length w) (str (a ++ w ++ b)) = str w.
Proof.
  induction a as [|c a IH]; simpl; [|exact IH].
  induction w as [|d w IHw]; simpl; [now destruct (str b)|].
  now rewrite IHw.
Qed.

Lemma chars_str (l : list ascii) : chars (str l) = l.
Proof. apply list_ascii_of_string_of_list_ascii. Qed.

Lemma length_chars (s : string) : List.length (chars s) = String.length s.
Proof. induction s as [|c s IH]; simpl; [reflexivity | now rewrite IH]. Qed.

(** The text of a match found at or after [pos], in a subject of which [s]
    is what follows [pos]: a word of the pattern. *)
Lemma group0_word (r : regex) (subject : string) (pos : nat) (s : list ascii)
  (m : rmatch) :
  (pos <= String.length subject)%nat ->
  s = skipn pos (chars subject) ->
  search_from r pos s = Some m ->
  exists w, lang r w /\ group0 subject m = str w
            /\ (pos <= m_start m)%nat /\ (m_start m <= m_end m)%nat
            /\ (m_end m <= String.length subject)%nat.
Proof.
  intros Hpos Hs H.
  apply search_from_sound in H as (pre & w & post & Es & Lw & Hstart & Hend).
  exists w. split; [exact Lw|].
  assert (E : chars subject = ((firstn pos (chars subject) ++ pre) ++ w ++ post)%list).
  { rewrite <- app_assoc, <- Es, Hs. symmetry. apply firstn_skipn. }
  assert (Lf : List.length (firstn pos (chars subject)) = pos).
  { rewrite length_firstn, length_chars. lia. }
  split.
  - unfold group0, slice. rewrite Hend, Hstart.
    replace (pos + List.length pre + List.length w - (pos + List.length pre))%nat
      with (List.length w) by lia.
    rewrite <- (str_chars subject), E.
    replace (pos + List.length pre)%nat
      with (List.length (firstn pos (chars subject) ++ pre)%list)
      by (rewrite length_app, Lf; reflexivity).
    apply substring_middle.
  - repeat split; try lia.
    rewrite <- length_chars, E, !length_app, Lf. lia.
Qed.

(** Every text [findall] returns is a word of the pattern. *)
Lemma findall_from_words (r : regex) (subject : string) :
  forall fuel pos s x,
    (pos <= String.length subject)%nat ->
    s = skipn pos (chars subject) ->
    In x (findall_from fuel r subject pos s) ->
    exists w, lang r w /\ x = str w.
Proof.
  induction fuel as [|fuel IH]; intros pos s x Hpos Hs Hin; [contradiction|].
  simpl in Hin.
  destruct (search_from r pos s) as [m|] eqn:Hsearch; [|contradiction].
  destruct (group0_word r subject pos s m Hpos Hs Hsearch)
    as (w & Lw & Gw & H1 & H2 & H3).
  assert (Skip : forall n, (pos <= n)%nat ->
            skipn (n - pos) s = skipn n (chars subject)).
  { intros n Hn. rewrite Hs, skipn_skipn. f_equal. lia. }
  destruct (Nat.eqb (m_end m) (m_start m)) eqn:Eq.
  - apply Nat.eqb_eq in Eq.
    destruct (skipn (m_start m - pos) s) as [|c rest'] eqn:K.
    + destruct Hin as [<-|[]]. now exists w.
    + destruct Hin as [<-|Hin]; [now exists w|].
      rewrite Skip in K by exact H1.
      assert (Lt : (m_start m < String.length subject)%nat).
      { rewrite <- length_chars.
        destruct (Nat.lt_ge_cases (m_start m) (List.length (chars subject)))
          as [L|L]; [exact L|].
        rewrite skipn_all2 in K by exact L. discriminate K. }
      apply (IH (S (m_end m)) rest' x); [lia| |exact Hin].
      rewrite Eq.
      replace (S (m_start m)) with (1 + m_start m)%nat by reflexivity.
      rewrite <- skipn_skipn, K. reflexivity.
  - destruct Hin as [<-|Hin]; [now exists w|].
    apply (IH (m_end m) (skipn (m_end m - pos) s) x); [exact H3| |exact Hin].
    apply Skip. lia.
Qed.

Lemma findall_words (r : regex) (subject x : string) :
  In x (findall r subject) -> exists w, lang r w /\ x = str w.
Proof.
  unfold findall. apply findall_from_words; [lia | reflexivity].
Qed.

(** A brace group begins with a brace. *)
Lemma brace_group_shape (w : list ascii) :
  lang re_brace_group w -> exists r, w = ("{"%char :: r)%list.
Proof.
  unfold re_brace_group. simpl.
  intros (w1 & w2 & -> & (c & -> & Hc) & _).
  apply Ascii.eqb_eq in Hc. subst c. now exists w2.
Qed.

Lemma parse_members_object (f : nat) :
  forall s acc v r,
    parse_members f s acc = Parsed v r -> exists d, v = PDict d.
Proof.
  induction f as [|f IH]; intros s acc v r H; [discriminate H|].
  rewrite parse_members_S in H.
  destruct s as [|q s0]; [discriminate|].
  destruct (Ascii.eqb q dquote); [|discriminate].
  destruct (parse_string s0) as [[key r0]|]; [|discriminate].
  destruct (skip_ws r0) as [|colon r1]; [discriminate|].
  destruct (Ascii.eqb colon ":"); [|discriminate].
  destruct (parse_value f (skip_ws r1)) as [v' r'|e|]; try discriminate.
  destruct (skip_ws r') as [|c r'']; [discriminate|].
  destruct (Ascii.eqb c ",").
  - now apply IH in H.
  - destruct (Ascii.eqb c "}"); [|discriminate].
    injection H as <- _. eauto.
Qed.

(** What json.loads makes of a text that begins with a brace is an
    object. *)
Lemma loads_brace_object (t : list ascii) (v : pyval) :
  loads (str ("{"%char :: t)) = inr v -> exists d, v = PDict d.
Proof.
  unfold loads, loads_fuel. rewrite chars_str.
  change (skip_ws ("{"%char :: t)) with ("{"%char :: t)%list.
  replace (2 * String.length (str ("{"%char :: t)) + 2)%nat
    with (S (2 * String.length (str ("{"%char :: t)) + 1))%nat by lia.
  rewrite parse_value_S.
  change (Ascii.eqb "{" "{") with true. cbv iota.
  destruct (skip_ws t) as [|c' r']; [discriminate|].
  destruct (Ascii.eqb c' "}").
  - destruct (skip_ws r'); [|discriminate]. intros [= <-]. eauto.
  - destruct (parse_members _ _ _) as [v' r|e|] eqn:P; try discriminate.
    destruct (skip_ws r); [|discriminate]. intros [= <-].
    now apply parse_members_object in P.
Qed.

Lemma first_some_in {A B : Type} (f : A -> option B) (l : list A) (y : B) :
  first_some f l = Some y -> exists x, In x l /\ f x = Some y.
Proof.
  induction l as [|a l IH]; simpl; [discriminate|].
  destruct (f a) as [b|] eqn:E.
  - intros [= <-]. exists a. auto.
  - intros H. destruct (IH H) as (x & Hx & Hf). exists x. auto.
Qed.

(** X6.  The payload format is always an object, as the annotation of
    the function says: a brace group begins with a brace, and what
    json.loads makes of such a text is an object.  When the text has no
    opening brace, or no closing brace, the result is the empty object. *)
Theorem extract_json_payload_format_object :
  forall text : string,
    (exists d, extract_json_payload_format text = PDict d)
    /\ (contains text "{" = false \/ contains text "}" = false ->
        extract_json_payload_format text = PDict []).
Proof.
  intros text. unfold extract_json_payload_format. split.
  - destruct (first_some _ (findall re_brace_group text)) as [v|] eqn:F;
      [|now exists []].
    apply first_some_in in F as (x & Hx & Hl).
    destruct (loads x) as [e|v'] eqn:L; [discriminate|]. injection Hl as ->.
    apply findall_words in Hx as (w & Lw & ->).
    apply brace_group_shape in Lw as (r & ->).
    now apply loads_brace_object in L.
  - intros Hno.
    assert (E : findall re_brace_group text = []).
    { unfold findall. simpl.
      destruct (search_from re_brace_group 0 (chars text)) as [m|] eqn:Hsearch;
        [|reflexivity].
      exfalso.
      apply search_from_sound in Hsearch as (pre & w & post & Es & Lw & _).
      unfold re_brace_group in Lw. simpl in Lw.
      destruct Lw as (w1 & w2 & -> & (c1 & -> & Hc1)
                      & (w3 & w4 & -> & _ & (w5 & w6 & -> & (c2 & -> & Hc2) & ->))).
      apply Ascii.eqb_eq in Hc1, Hc2. subst c1 c2.
      assert (C1 : contains text "{" = true).
      { rewrite <- (str_chars text), Es, !str_app.
        apply contains_app_l. simpl str. apply contains_prefix. reflexivity. }
      assert (C2 : contains text "}" = true).
      { rewrite <- (str_chars text), Es, !str_app.
        apply contains_app_l, contains_app_r, contains_app_l, contains_app_l.
        simpl str. apply contains_prefix. reflexivity. }
      destruct Hno as [H|H]; congruence. }
    now rewrite E.
Qed.

End PayloadFacts.

(** ** The normalizer: booleans, code fences, words *)

Module NormalizerMore.
Import Py PyFacts UrlFacts TextSpec TextFacts Re Json JsonFacts LLMService.
Import NormalizerFacts NormalizerSpec.

(** The rules of the normalizer see the text only after the fence is
    removed. *)
Lemma parse_answer_unfenced (t1 t2 : string) :
  unfenced t1 = unfenced t2 -> _parse_answer t1 = _parse_answer t2.
Proof.
  unfold unfenced, _parse_answer. cbv zeta. intros H. now rewrite H.
Qed.

Lemma lower_char_letter (c x : ascii) :
  is_lower x = true -> lower_char c = x ->
  is_alpha c = true /\ Ascii.eqb c "`" = false /\ Ascii.eqb c "{" = false.
Proof.
  intros Hx <-. ascii_cases c; vm_compute in Hx; try discriminate Hx;
    repeat split.
Qed.

(** X7.  The words [true] and [false], in any case of the letters and
    with any white space around them, are the two booleans. *)
Theorem parse_answer_boolean :
  forall t : string,
    (lower (strip t) = "true" -> _parse_answer t = inr (PBool true))
    /\ (lower (strip t) = "false" -> _parse_answer t = inr (PBool false)).
Proof.
  intros t.
  assert (Core : forall b : bool,
            lower (strip t) = (if b then "true" else "false") ->
            _parse_answer t = inr (PBool b)).
  { intros b H. unfold _parse_answer. cbv zeta.
    destruct (strip t) as [|c r] eqn:S; [destruct b; discriminate H|].
    assert (Hc : Ascii.eqb c "`" = false /\ Ascii.eqb c "{" = false).
    { destruct b; simpl in H; injection H as Hc _;
        [destruct (lower_char_letter c "t" eq_refl Hc) as (_ & ? & ?)
        |destruct (lower_char_letter c "f" eq_refl Hc) as (_ & ? & ?)];
        now split. }
    destruct Hc as [Hf Hb].
    assert (F : startswith (String c r) fence = false)
      by (unfold fence; simpl; now rewrite Hf).
    rewrite F.
    assert (B : startswith (String c r) "{" = false)
      by (simpl; now rewrite Hb).
    rewrite B. cbn [andb]. rewrite H.
    destruct b; reflexivity. }
  split; [exact (Core true) | exact (Core false)].
Qed.

Lemma append_assoc (a b c : string) : (a ++ b) ++ c = a ++ (b ++ c).
Proof. induction a as [|x a IH]; simpl; [reflexivity | now rewrite IH]. Qed.

Lemma rstrip_with_app_kept (p : ascii -> bool) (s : string) (c : ascii)
  (t : string) :
  rstrip_with p (String c t) <> EmptyString ->
  rstrip_with p (s ++ String c t) = s ++ rstrip_with p (String c t).
Proof.
  intros H. induction s as [|x s IH]; [reflexivity|].
  remember (rstrip_with p (String c t)) as R eqn:ER.
  change (String x s ++ String c t) with (String x (s ++ String c t)).
  change (rstrip_with p (String x (s ++ String c t)))
    with (match rstrip_with p (s ++ String c t) with
          | EmptyString => if p x then EmptyString else String x EmptyString
          | String a u => String x (String a u)
          end).
  rewrite IH. change (String x s ++ R) with (String x (s ++ R)).
  destruct (s ++ R) eqn:E; [|reflexivity].
  destruct s; simpl in E; [contradiction | discriminate].
Qed.

(** A text between two fences is left whole by stripping. *)
Lemma strip_fenced (inner : string) :
  strip (fence ++ inner ++ fence) = fence ++ inner ++ fence.
Proof.
  unfold strip.
  assert (L : lstrip_with is_space (fence ++ inner ++ fence)
              = fence ++ inner ++ fence) by reflexivity.
  rewrite L.
  replace (fence ++ inner ++ fence)
    with ((fence ++ inner) ++ String "`" "``")
    by (unfold fence; now rewrite append_assoc).
  rewrite (rstrip_with_app_kept is_space (fence ++ inner)); [reflexivity|].
  vm_compute. discriminate.
Qed.

(** X8.  A code fence around an answer changes nothing: the text
    between an opening fence, with or without a language name, and a
    closing fence is normalized as it is without them.  The lines of the
    answer are taken not to begin with a fence. *)
Theorem parse_answer_code_fence :
  forall tag body : string,
    free_of LF tag = true ->
    forallb (fun l => negb (startswith l fence)) (split_on LF body) = true ->
    startswith (strip body) fence = false ->
    _parse_answer (fence ++ tag ++ nl ++ body ++ nl ++ fence)
    = _parse_answer body.
Proof.
  intros tag body Htag Hlines Hbody.
  apply parse_answer_unfenced. unfold unfenced. cbv zeta.
  rewrite Hbody.
  replace (fence ++ tag ++ nl ++ body ++ nl ++ fence)
    with (fence ++ (tag ++ nl ++ body ++ nl) ++ fence)
    by (now rewrite !append_assoc).
  rewrite strip_fenced.
  rewrite startswith_app.
  replace (fence ++ (tag ++ nl ++ body ++ nl) ++ fence)
    with ((fence ++ tag) ++ String LF (body ++ String LF fence))
    by (unfold nl; rewrite !append_assoc; reflexivity).
  rewrite !split_on_app.
  assert (Ft : split_on LF (fence ++ tag) = [fence ++ tag]).
  { apply split_on_free. unfold free_of, fence. simpl. exact Htag. }
  rewrite Ft. change (split_on LF fence) with [fence].
  rewrite !filter_app, (filter_all _ _ Hlines). cbn [filter].
  rewrite startswith_app, startswith_refl. cbn [negb app].
  rewrite app_nil_r. unfold nl. now rewrite join_split_on.
Qed.

Lemma parse_answer_code_fence_witness :
  _parse_answer (fence ++ "json" ++ nl ++ "[1, 2]" ++ nl ++ fence)
  = _parse_answer "[1, 2]".
Proof.
  apply parse_answer_code_fence; vm_compute; reflexivity.
Defined.

(** *** Answers in words *)

Lemma alpha_not_special (c : ascii) :
  is_alpha c = true ->
  Ascii.eqb c "`" = false /\ Ascii.eqb c "{" = false
  /\ Ascii.eqb c "[" = false /\ Ascii.eqb c dquote = false
  /\ Ascii.eqb c "-" = false /\ Ascii.eqb "-" c = false
  /\ Ascii.eqb c "0" = false /\ is_digit c = false
  /\ is_json_ws c = false.
Proof. ascii_cases c; vm_compute; intros H; try discriminate H; repeat split. Qed.

Lemma json_ws_space (c : ascii) : is_json_ws c = true -> is_space c = true.
Proof. ascii_cases c; vm_compute; intros H; try discriminate H; reflexivity. Qed.

Lemma skip_ws_nil (l : list ascii) :
  skip_ws l = [] -> forallb is_space l = true.
Proof.
  induction l as [|c l IH]; simpl; [reflexivity|].
  destruct (is_json_ws c) eqn:E; [|discriminate].
  intros H. now rewrite (json_ws_space c E), IH.
Qed.

(** What is left by stripping on the right ends with a character that is
    kept: every end of it that is not empty has one. *)
Lemma rstrip_with_end (p : ascii -> bool) (s : string) :
  forall x y,
    rstrip_with p s = x ++ y -> y <> EmptyString ->
    existsb (fun c => negb (p c)) (chars y) = true.
Proof.
  induction s as [|c s IH]; intros x y E Hy.
  - simpl in E. destruct x; [simpl in E; now subst y | discriminate E].
  - simpl in E. destruct (rstrip_with p s) as [|d u] eqn:R.
    + destruct (p c) eqn:Pc.
      * destruct x; [simpl in E; now subst y | discriminate E].
      * destruct x as [|x0 x'].
        -- simpl in E. subst y. simpl. now rewrite Pc.
        -- simpl in E. injection E as _ E.
           destruct x'; [simpl in E; now subst y | discriminate E].
    + destruct x as [|x0 x'].
      * simpl in E. subst y.
        change (chars (String c (String d u))) with (c :: chars (String d u)).
        cbn [existsb].
        rewrite (IH EmptyString (String d u) eq_refl) by discriminate.
        apply orb_true_r.
      * simpl in E. injection E as _ E. now apply (IH x' y).
Qed.

Lemma eat_app (w s r : list ascii) : eat w s = Some r -> s = (w ++ r)%list.
Proof.
  revert s. induction w as [|a w IH]; intros s H; simpl in H.
  - now injection H as ->.
  - destruct s as [|c s]; [discriminate|].
    destruct (Ascii.eqb_spec a c) as [->|_]; [|discriminate].
    simpl. f_equal. now apply IH.
Qed.

(** A stripped text that begins with a word of JSON and goes on is not
    JSON. *)
Lemma word_then_more (t word : string) (rest : list ascii) :
  chars (strip t) = (chars word ++ rest)%list ->
  strip t <> word ->
  exists c rest', skip_ws rest = (c :: rest')%list.
Proof.
  intros E Hne.
  assert (Es : strip t = word ++ str rest).
  { rewrite <- (DownloadFacts.str_chars (strip t)), E, DownloadFacts.str_app.
    now rewrite DownloadFacts.str_chars. }
  assert (Hr : str rest <> EmptyString).
  { intros Z. rewrite Z, append_nil_r in Es. contradiction. }
  unfold strip in Es.
  pose proof (rstrip_with_end is_space _ _ _ Es Hr) as Ex.
  rewrite PayloadFacts.chars_str in Ex.
  destruct (skip_ws rest) as [|c rest'] eqn:K; [|now exists c, rest'].
  apply skip_ws_nil in K.
  apply existsb_exists in Ex as (a & Ha & Hp).
  rewrite (proj1 (forallb_forall _ _) K a Ha) in Hp. discriminate Hp.
Qed.

Lemma lower_eqb (s word : string) :
  lower s <> word -> String.eqb (lower s) word = false.
Proof. intros H. now apply String.eqb_neq. Qed.

(** json.loads refuses a stripped text that begins with a letter and is
    not one of its words. *)
Lemma loads_word (t : string) (c : ascii) (r : string) :
  strip t = String c r ->
  is_alpha c = true ->
  strip t <> "true" -> strip t <> "false" ->
  ~ In (strip t) json_words ->
  loads (strip t) = inl decode_error.
Proof.
  intros Hst Hc Ht Hf Hw.
  destruct (alpha_not_special c Hc)
    as (_ & Hb & Hk & Hq & Hm & Hm' & H0 & Hd & Hws).
  assert (Word : forall word v,
            strip t <> word ->
            match eat (chars word) (chars (strip t)) with
            | Some rest =>
                match skip_ws rest with
                | [] => inr v
                | _ => inl decode_error
                end
            | None => inl decode_error
            end = @inl exn pyval decode_error).
  { intros word v Hne.
    destruct (eat (chars word) (chars (strip t))) as [rest|] eqn:E;
      [|reflexivity].
    apply eat_app in E.
    destruct (word_then_more t word rest E Hne) as (a & rest' & K).
    now rewrite K. }
  unfold json_words in Hw. simpl in Hw.
  assert (Hnull : strip t <> "null") by (intros E; apply Hw; now left).
  assert (Hnan : strip t <> "NaN") by (intros E; apply Hw; right; now left).
  assert (Hinf : strip t <> "Infinity")
    by (intros E; apply Hw; right; right; now left).
  unfold loads, loads_fuel.
  replace (2 * String.length (strip t) + 2)%nat
    with (S (2 * String.length (strip t) + 1))%nat by lia.
  assert (Sk : skip_ws (chars (strip t)) = chars (strip t)).
  { rewrite Hst. simpl. now rewrite Hws. }
  rewrite Sk, parse_value_S.
  assert (Shape : chars (strip t) = (c :: chars r)%list) by now rewrite Hst.
  rewrite Shape at 1. rewrite Hb, Hk, Hq.
  unfold parse_scalar.
  pose proof (Word "null" PNone Hnull) as W1.
  pose proof (Word "true" (PBool true) Ht) as W2.
  pose proof (Word "false" (PBool false) Hf) as W3.
  pose proof (Word "NaN" (PFloat FNaN) Hnan) as W4.
  pose proof (Word "Infinity" (PFloat (FInf false)) Hinf) as W5.
  destruct (eat (chars "null") (chars (strip t))) as [r1|]; [exact W1|].
  destruct (eat (chars "true") (chars (strip t))) as [r2|]; [exact W2|].
  destruct (eat (chars "false") (chars (strip t))) as [r3|]; [exact W3|].
  destruct (eat (chars "NaN") (chars (strip t))) as [r4|]; [exact W4|].
  destruct (eat (chars "Infinity") (chars (strip t))) as [r5|]; [exact W5|].
  rewrite Shape.
  change (chars "-Infinity") with ("-"%char :: chars "Infinity")%list.
  cbn [eat]. rewrite Hm', Hm.
  unfold parse_number. rewrite H0, Hd. reflexivity.
Qed.

(** X9.  An answer in words is submitted as it is: a text that, once
    stripped, begins with a letter and is neither a boolean word, in any
    case, nor one of the words [null], [NaN] and [Infinity] of JSON, is
    returned as the stripped text. *)
Theorem parse_answer_words :
  forall (t : string) (c : ascii) (r : string),
    strip t = String c r ->
    is_alpha c = true ->
    lower (strip t) <> "true" ->
    lower (strip t) <> "false" ->
    ~ In (strip t) json_words ->
    _parse_answer t = inr (PStr (strip t)).
Proof.
  intros t c r Hst Hc Ht Hf Hw.
  destruct (alpha_not_special c Hc)
    as (Hfence & Hb & _ & _ & Hm & _ & _ & Hd & _).
  assert (St : strip t <> "true") by (intros E; now rewrite E in Ht).
  assert (Sf : strip t <> "false") by (intros E; now rewrite E in Hf).
  pose proof (loads_word t c r Hst Hc St Sf Hw) as L.
  unfold _parse_answer. cbv zeta.
  assert (F : startswith (strip t) fence = false)
    by (rewrite Hst; unfold fence; simpl; now rewrite Hfence).
  rewrite F.
  assert (B : startswith (strip t) "{" = false)
    by (rewrite Hst; simpl; now rewrite Hb).
  rewrite B. cbn [andb].
  rewrite (lower_eqb _ _ Ht), (lower_eqb _ _ Hf). cbn [orb].
  assert (D : isdigit (lstrip (strip t) "-") = false).
  { rewrite Hst. unfold lstrip, char_in, isdigit. simpl. rewrite Hm. simpl.
    now rewrite Hd. }
  rewrite D, andb_false_r.
  assert (Re : match_ re_decimal (strip t) = None).
  { rewrite Hst. unfold match_, match_at, re_decimal. simpl.
    now rewrite Hm, Hd. }
  rewrite Re, L. reflexivity.
Qed.

Lemma parse_answer_words_witness :
  _parse_answer " Paris, France " = inr (PStr "Paris, France").
Proof.
  apply (parse_answer_words " Paris, France " "P" "aris, France");
    vm_compute; try reflexivity; try discriminate.
  intros [H|[H|[H|[]]]]; discriminate H.
Defined.

End NormalizerMore.

(** ** The language model service *)

Module LLMFacts.
Import Py PyFacts UrlFacts TextFacts Json Html Effects LLMService.
Import NormalizerSpec NormalizerMore.



End LLMFacts.

(** ** The verdict of a submission *)

Module VerdictFacts.
Import Py Json Html Models Effects TraceSpec EffectFacts AnswerSubmitter.
Import SubmitterSpec SubmitterFacts.

(** X11.  A verdict that is correct, or that names a next URL, comes
    from the server: the POST was answered with status 200 and a JSON
    object; a next URL is the string of its [url] field, and a correct
    verdict is a [correct] field that stands for true.  Nothing else, an
    error status, a body that is not an object, a field of another type,
    or a failure of the POST, gives such a verdict. *)
Theorem verdict_from_server :
  forall (W : World) (email secret submission_url quiz_url : string)
         (answer : pyval) (tr tr' : trace) (result : QuizResult),
    submit_answer W email secret submission_url quiz_url answer tr
    = (inr result, tr') ->
    correct result = true \/ url result <> None ->
    exists response d,
      w_post W tr submission_url (payload_of email secret quiz_url answer)
      = inr response
      /\ status_code response = 200%Z
      /\ loads (text response) = inr (PDict d)
      /\ (forall next, url result = Some next ->
            dict_get d "url" = Some (PStr next))
      /\ (correct result = true ->
          exists v, dict_get d "correct" = Some v /\ validate_bool v = inr true).
Proof.
  intros W email secret submission_url quiz_url answer tr tr' result H Hgood.
  rewrite submit_answer_run in H. injection H as Hr _.
  unfold verdict_of in Hr.
  assert (Bad : forall why, result = failed why -> False).
  { intros why E. rewrite E in Hgood. destruct Hgood as [C|U];
      [discriminate C | now apply U]. }
  destruct (w_post W tr submission_url _) as [e|response];
    [exfalso; now apply (Bad (exn_msg e))|].
  destruct (read_response response) as [e|r] eqn:R;
    [exfalso; now apply (Bad (exn_msg e))|].
  subst r. unfold read_response in R.
  destruct (status_code response =? 200)%Z eqn:S200.
  2:{ injection R as R. exfalso. now apply (Bad _ (eq_sym R)). }
  apply Z.eqb_eq in S200.
  unfold response_json in R.
  destruct (loads (text response)) as [e|data] eqn:L; [discriminate R|].
  destruct data as [| | | | | |d]; try discriminate R.
  exists response, d. repeat split; try assumption; try reflexivity.
  - intros next Hu. simpl in R. unfold QuizResult_init in R.
    destruct (validate_bool _) as [e|c]; [discriminate R|].
    destruct (dict_get d "url") as [[| | | |s| |]|];
      simpl in R; try discriminate R;
      (destruct (validate_opt_str _) as [e|r']; [discriminate R|]);
      injection R as R; rewrite <- R in Hu; simpl in Hu;
      try discriminate Hu.
    now injection Hu as ->.
  - intros Hc. simpl in R. unfold QuizResult_init in R.
    destruct (dict_get d "correct") as [v|] eqn:G.
    + exists v. split; [reflexivity|].
      destruct (validate_bool v) as [e|c]; [discriminate R|].
      destruct (validate_opt_str _) as [e|u']; [discriminate R|].
      destruct (validate_opt_str _) as [e|r']; [discriminate R|].
      injection R as R. rewrite <- R in Hc. simpl in Hc. now rewrite Hc.
    + simpl in R.
      destruct (validate_opt_str _) as [e|u']; [discriminate R|].
      destruct (validate_opt_str _) as [e|r']; [discriminate R|].
      injection R as R. rewrite <- R in Hc. discriminate Hc.
Qed.

Lemma verdict_from_server_witness :
  exists response d,
    status_code response = 200%Z
    /\ loads (text response) = inr (PDict d)
    /\ dict_get d "url" = Some (PStr "https://h/q2").
Proof.
  destruct (verdict_from_server
              (Examples.quiet_world
                 (inr {| status_code := 200; text := Examples.body_accepted |}))
              "me" "key" "https://h/submit" "https://h/q1" (PInt 4) []
              [Post "https://h/submit"
                    (payload_of "me" "key" "https://h/q1" (PInt 4))]
              {| correct := true; url := Some "https://h/q2"; reason := None |})
    as (response & d & _ & Hs & Hl & Hu & _).
  - vm_compute. reflexivity.
  - now left.
  - exists response, d. repeat split; try assumption.
    now apply Hu.
Defined.

End VerdictFacts.

(** ** The chain: how it ends *)

Module ChainFacts.
Import Py Json Html Url Models Effects TraceSpec EffectFacts ChainSpec.
Import AnswerSubmitter SubmitterSpec SubmitterFacts LLMService QuizParser.
Import QuizOrchestrator OrchestratorSpec OrchestratorFacts.
Local Open Scope quiz_scope.

Ltac open_step :=
  first [ progress cbv zeta | adds_step ].

Section Chain.
Variable W : World.
Variables email secret : string.

Lemma completion_open (system : string) (image : option string) (text : string) :
  adds not_close (completion W system image text).
Proof. unfold completion. repeat open_step. Qed.

Lemma analyze_quiz_open (q ctx : string) (img : option string) :
  adds not_close (analyze_quiz W q ctx img).
Proof. unfold analyze_quiz. repeat first [apply completion_open | open_step]. Qed.

Lemma solve_with_vision_open (qc : QuizContent) (shot : string) :
  adds not_close (_solve_with_vision W qc shot).
Proof.
  unfold _solve_with_vision, analyze_with_vision.
  repeat first [apply completion_open | open_step].
Qed.

Lemma solve_by_type_open (qc : QuizContent) (shot base : string) :
  adds not_close (_solve_by_type W qc shot base).
Proof.
  unfold _solve_by_type, _solve_scraping_task, _solve_api_task,
    analyze_with_vision.
  repeat first [ apply solve_with_vision_open | apply analyze_quiz_open
               | apply completion_open | open_step ].
Qed.

Lemma submit_answer_open (sub url : string) (answer : pyval) :
  adds not_close (submit_answer W email secret sub url answer).
Proof. unfold submit_answer. repeat open_step. Qed.

(** A step never closes the submitter. *)
Lemma solve_single_quiz_open (url : string) :
  adds not_close (solve_single_quiz W email secret url).
Proof.
  unfold solve_single_quiz.
  repeat first [ apply solve_by_type_open | apply solve_with_vision_open
               | apply submit_answer_open | open_step ].
Qed.

(** The loop only adds calls and results, and does not close the
    submitter. *)
Lemma chain_loop_grows (fuel : nat) (max_questions : Z) :
  forall (current_url : option string) (n : Z) (res : list QuizResult)
         (tr : trace) (st : chain_state),
    chain_loop W email secret fuel max_questions current_url n res tr = Some st ->
    exists added more,
      calls st = (tr ++ added)%list
      /\ forallb not_close added = true
      /\ results st = (res ++ more)%list.
Proof.
  induction fuel as [|fuel IH]; intros current_url n res tr st H.
  - destruct (goes_on max_questions current_url n) eqn:G.
    + simpl in H. unfold goes_on, truthy_opt in G.
      destruct current_url as [cur|]; [|discriminate G].
      rewrite G in H. discriminate H.
    + rewrite chain_loop_stops in H by exact G. injection H as <-.
      exists [], []. simpl. now rewrite !app_nil_r.
  - destruct (goes_on max_questions current_url n) eqn:G.
    + destruct current_url as [cur|]; [|discriminate G].
      rewrite chain_loop_step in H by exact G.
      destruct (solve_single_quiz_open cur tr) as (a1 & E1 & P1).
      destruct (solve_single_quiz W email secret cur tr) as [[e|r] tr'];
        simpl in E1; subst tr'.
      * injection H as <-. exists a1, []. simpl. now rewrite app_nil_r.
      * apply IH in H as (a2 & more & Hc & Hp & Hr).
        exists (a1 ++ a2)%list, (r :: more).
        rewrite Hc, Hr, <- !app_assoc, forallb_app, P1, Hp. auto.
    + rewrite chain_loop_stops in H by exact G. injection H as <-.
      exists [], []. simpl. now rewrite !app_nil_r.
Qed.

End Chain.

(** X13.  A page on which no submission endpoint is found is not
    solved: after the rendering nothing is called, neither a solver nor
    the language model, and nothing is submitted; the step returns an
    incorrect verdict without next URL.  The chain records it and ends. *)
Theorem step_without_submission_url :
  forall (W : World) (email secret url : string) (tr : trace)
         (page : html) (shot : string),
    w_render W tr url = inr (page, shot) ->
    truthy (submission_url (parse_quiz_page page url)) = false ->
    solve_single_quiz W email secret url tr
    = (inr no_submission_url, (tr ++ [Render url])%list)
    /\ forall max_questions res,
         truthy url = true -> (0 < max_questions)%Z ->
         solve_quiz_chain W email secret url max_questions res tr
         = Some {| question_count := 1;
                   results := (res ++ [no_submission_url])%list;
                   calls := (tr ++ [Render url; Close])%list |}.
Proof.
  intros W email secret url tr page shot Hr Hs.
  assert (E : solve_single_quiz W email secret url tr
              = (inr no_submission_url, (tr ++ [Render url])%list)).
  { unfold solve_single_quiz, bind at 1, perform at 1. rewrite Hr.
    cbn [fst snd]. rewrite Hs. reflexivity. }
  split; [exact E|].
  intros max_questions res Hu Hm. unfold solve_quiz_chain.
  destruct (Z.to_nat max_questions) as [|fuel] eqn:F; [lia|].
  rewrite chain_loop_step
    by (unfold goes_on; simpl; rewrite Hu; now apply Z.ltb_lt).
  rewrite E. cbn [Models.url no_submission_url].
  rewrite chain_loop_stops by reflexivity.
  unfold close, perform. simpl. now rewrite <- app_assoc.
Qed.

(** A page without anchor whose text names no URL. *)
Lemma step_without_submission_url_witness :
  solve_quiz_chain
    (Examples.quiet_world (inl Examples.connection_refused))
    "me" "key" "https://h/q1" 20 [] []
  = Some {| question_count := 1;
            results := [no_submission_url];
            calls := [Render "https://h/q1"; Close] |}.
Proof.
  apply (proj2 (step_without_submission_url
                  (Examples.quiet_world (inl Examples.connection_refused))
                  "me" "key" "https://h/q1" [] [] EmptyString
                  eq_refl eq_refl)
               20%Z []); [reflexivity | lia].
Defined.

(** X19 at the server that accepts every answer: one submission, no
    retry. *)
Lemma verdict_final_without_retry_witness :
  exists r1,
    solve_single_quiz Examples.world_always_next "me" "key" "https://h/q1" []
    = (inr r1,
       [Render "https://h/q1";
        vision_call (parse_quiz_page Examples.question_page "https://h/q1")
                    "shot";
        Post "https://h/submit"
             (payload_of "me" "key" "https://h/q1" (PInt 4))])
    /\ correct r1 = true.
Proof.
  exists {| correct := true; url := Some "https://h/next"; reason := None |}.
  split; [|reflexivity].
  apply (verdict_final_without_retry Examples.world_always_next "me" "key"
           "https://h/q1" [] Examples.question_page "shot" "https://h/submit"
           (PInt 4)
           [Render "https://h/q1";
            vision_call (parse_quiz_page Examples.question_page "https://h/q1")
                        "shot"]);
    try (vm_compute; reflexivity).
  now left.
Defined.

End ChainFacts.

(** ** The PDF handler *)

Module PdfFacts.
Import Py PyFacts UrlFacts TextSpec TextFacts Json LLMService PDFHandler PdfSpec.

Lemma free_of_app (sep : ascii) (a b : string) :
  free_of sep (a ++ b) = free_of sep a && free_of sep b.
Proof.
  unfold free_of. induction a as [|c a IH]; simpl; [reflexivity|].
  now rewrite IH, andb_assoc.
Qed.

Lemma join_free (sep : ascii) (glue : string) (l : list string) :
  free_of sep glue = true -> forallb (free_of sep) l = true ->
  free_of sep (join glue l) = true.
Proof.
  intros Hg. induction l as [|w l IH]; simpl; [reflexivity|].
  intros H. apply andb_true_iff in H as [Hw Hl].
  destruct l as [|w' l']; [exact Hw|].
  rewrite !free_of_app, Hw, Hg. now apply IH.
Qed.

Lemma format_table_rows (t : table) :
  _format_table t = join nl (map row_line (filter has_cells t)).
Proof.
  unfold _format_table.
  assert (E : forall u : table,
            flat_map (fun row => match row with
                                 | [] => []
                                 | _ => [join " | " (map clean_cell row)]
                                 end) u
            = map row_line (filter has_cells u)).
  { induction u as [|row u IH]; [reflexivity|].
    cbn [flat_map filter]. rewrite IH. now destruct row. }
  destruct t as [|row t]; [reflexivity|]. apply (f_equal (join nl)), E.
Qed.

(** X14.  The text of a table has one line for each row that has cells,
    in the order of the rows: the cells of the row separated by a bar, a
    missing cell written as nothing.  Rows without cells give no line, and
    a table made of such rows gives the empty text.  The cells are taken
    to hold no line break. *)
Theorem format_table_lines :
  forall t : table,
    cells_on_one_line t = true ->
    (filter has_cells t = [] -> _format_table t = EmptyString)
    /\ (filter has_cells t <> [] ->
        split_on LF (_format_table t) = map row_line (filter has_cells t)).
Proof.
  intros t Hcells. rewrite format_table_rows. split.
  - now intros ->.
  - intros Hne. apply (split_on_join LF).
    + intros E. apply map_eq_nil in E. contradiction.
    + rewrite forallb_map. apply forallb_filter.
      eapply forallb_weaken; [|exact Hcells].
      intros row Hrow. unfold row_line.
      apply join_free; [reflexivity|]. now rewrite forallb_map.
Qed.

Lemma format_table_lines_witness :
  split_on LF (_format_table [[Some "a"; None; Some "c"]; []; [Some "d"]])
  = ["a |  | c"; "d"].
Proof.
  apply (proj2 (format_table_lines [[Some "a"; None; Some "c"]; []; [Some "d"]]
                  eq_refl)).
  discriminate.
Defined.


Section Combinators.
Context {A B : Type}.

Lemma hcount_app (P : event -> bool) (a b : log) :
  hcount P (a ++ b)%list = (hcount P a + hcount P b)%nat.
Proof. unfold hcount. now rewrite filter_app, length_app. Qed.

Lemma hbounded_ret (P : event -> bool) (a : A) : hbounded P 0 (hret a).
Proof. intros l. exists []. simpl. rewrite app_nil_r. auto. Qed.

Lemma hbounded_lift (P : event -> bool) (r : exn + A) : hbounded P 0 (hlift r).
Proof. intros l. exists []. simpl. rewrite app_nil_r. auto. Qed.

Lemma hbounded_perform (P : event -> bool) (c : event)
  (answer : log -> failure + A) :
  hbounded P (if P c then 1 else 0) (hperform c answer).
Proof.
  intros l. exists [c]. split; [reflexivity|].
  unfold hcount. simpl. destruct (P c); simpl; lia.
Qed.

Lemma hbounded_bind (P : event -> bool) (n1 n2 : nat) (m : H A) (k : A -> H B) :
  hbounded P n1 m -> (forall a, hbounded P n2 (k a)) ->
  hbounded P (n1 + n2) (hbind m k).
Proof.
  intros Hm Hk l. unfold hbind.
  destruct (Hm l) as (a1 & E1 & C1).
  destruct (m l) as [[f|a] l1]; simpl in E1; subst l1.
  - exists a1. split; [reflexivity | lia].
  - destruct (Hk a (l ++ a1)%list) as (a2 & E2 & C2).
    exists (a1 ++ a2)%list. rewrite E2, app_assoc, hcount_app.
    split; [reflexivity | lia].
Qed.

Lemma hbounded_catch (P : event -> bool) (n1 n2 : nat) (m : H A)
  (h : exn -> H A) :
  hbounded P n1 m -> (forall e, hbounded P n2 (h e)) ->
  hbounded P (n1 + n2) (hcatch m h).
Proof.
  intros Hm Hh l. unfold hcatch.
  destruct (Hm l) as (a1 & E1 & C1).
  destruct (m l) as [[[e|e]|a] l1]; simpl in E1; subst l1.
  - destruct (Hh e (l ++ a1)%list) as (a2 & E2 & C2).
    exists (a1 ++ a2)%list. rewrite E2, app_assoc, hcount_app.
    split; [reflexivity | lia].
  - exists a1. split; [reflexivity | lia].
  - exists a1. split; [reflexivity | lia].
Qed.

Lemma hbounded_more (P : event -> bool) (n n' : nat) (m : H A) :
  (n <= n')%nat -> hbounded P n m -> hbounded P n' m.
Proof.
  intros Hn Hm l. destruct (Hm l) as (added & E & C).
  exists added. split; [exact E | lia].
Qed.

(** What leaves a try block whose handler raises no exception is no
    exception. *)
Lemma no_exception_catch (m : H A) (h : exn -> H A) :
  (forall e, no_exception (h e)) -> no_exception (hcatch m h).
Proof.
  intros Hh l f. unfold hcatch.
  destruct (m l) as [[[e|e]|a] l1]; simpl.
  - apply Hh.
  - intros [= <-]. now exists e.
  - discriminate.
Qed.

Lemma no_exception_ret (a : A) : no_exception (hret a).
Proof. intros l f. discriminate. Qed.

Lemma calm_ret (a : A) : calm (hret a).
Proof. intros l e. discriminate. Qed.

Lemma calm_lift (r : exn + A) : calm (hlift r).
Proof. intros l e. destruct r; discriminate. Qed.

Lemma calm_perform (c : event) (answer : log -> failure + A) :
  (forall l e, answer l <> inl (BaseException e)) -> calm (hperform c answer).
Proof. intros Ha l e. apply Ha. Qed.

Lemma calm_bind (m : H A) (k : A -> H B) :
  calm m -> (forall a, calm (k a)) -> calm (hbind m k).
Proof.
  intros Hm Hk l e. unfold hbind. specialize (Hm l).
  destruct (m l) as [[f|a] l1]; simpl in *.
  - intros [= ->]. now apply (Hm e).
  - apply Hk.
Qed.

Lemma calm_catch (m : H A) (h : exn -> H A) :
  calm m -> (forall x, calm (h x)) -> calm (hcatch m h).
Proof.
  intros Hm Hh l e. unfold hcatch. specialize (Hm l).
  destruct (m l) as [[[x|x]|a] l1]; simpl in *.
  - apply Hh.
  - now destruct (Hm x).
  - discriminate.
Qed.

End Combinators.

Section Handler.
Variable O : Outside.

(** The loop over the images only asks for visual analyses. *)
Lemma vision_loop_bounded (P : event -> bool) (question : string)
  (images : list (exn + string)) :
  (forall c, is_vision c = true -> P c = false) ->
  forall i, hbounded P 0 (vision_loop O question i images).
Proof.
  intros HP. induction images as [|img images IH]; intros i.
  - apply hbounded_ret.
  - cbn [vision_loop].
    apply (hbounded_bind P 0 0); [apply hbounded_lift|]. intros img_base64.
    cbv zeta.
    apply (hbounded_bind P 0 0).
    + set (c := AnalyzeWithVision _ _).
      assert (E : P c = false) by now apply HP.
      pose proof (hbounded_perform (A := string) P c
                    (fun l => llm_analyze_with_vision O l img_base64
                                ("This is page " ++ str_of_nat (i + 1)
                                   ++ " of a PDF. " ++ question))) as Hb.
      now rewrite E in Hb.
    + intros answer.
      destruct (truthy answer && truthy (strip answer)); [|apply IH].
      apply (hbounded_bind P 0 0); [apply hbounded_lift|].
      intros v. apply hbounded_ret.
Qed.

Lemma vision_loop_calm (question : string) (images : list (exn + string)) :
  patient O -> forall i, calm (vision_loop O question i images).
Proof.
  intros (_ & _ & Hv). induction images as [|img images IH]; intros i.
  - apply calm_ret.
  - cbn [vision_loop].
    apply calm_bind; [apply calm_lift|]. intros img_base64. cbv zeta.
    apply calm_bind; [apply calm_perform; intros l e; apply Hv|].
    intros answer.
    destruct (truthy answer && truthy (strip answer)); [|apply IH].
    apply calm_bind; [apply calm_lift|]. intros v. apply calm_ret.
Qed.

(** The fallback downloads once, converts at most once and asks for no
    quiz analysis. *)
Lemma solve_with_vision_bounded (question download_url : string) :
  hbounded is_get 1 (_solve_with_vision O question download_url)
  /\ hbounded is_analyze_quiz 0 (_solve_with_vision O question download_url)
  /\ hbounded is_convert 1 (_solve_with_vision O question download_url).
Proof.
  unfold _solve_with_vision.
  assert (V : forall P, (forall c, is_vision c = true -> P c = false) ->
                forall images,
                  hbounded P 0
                    (hbind (vision_loop O question 0 images) (fun returned =>
                     hret (match returned with
                           | Some v => v
                           | None => PNone
                           end)))).
  { intros P HP images. apply (hbounded_bind P 0 0).
    - now apply vision_loop_bounded.
    - intros r. apply hbounded_ret. }
  split; [|split].
  - apply (hbounded_catch is_get 1 0); [|intros e; apply hbounded_ret].
    apply (hbounded_bind is_get 1 0); [apply (hbounded_perform is_get)|].
    intros response. cbv zeta.
    apply (hbounded_bind is_get 0 0); [apply hbounded_lift|]. intros _.
    apply (hbounded_bind is_get 0 0); [apply (hbounded_perform is_get)|].
    intros images. apply V. now intros [].
  - apply (hbounded_catch is_analyze_quiz 0 0); [|intros e; apply hbounded_ret].
    apply (hbounded_bind is_analyze_quiz 0 0);
      [apply (hbounded_perform is_analyze_quiz)|].
    intros response. cbv zeta.
    apply (hbounded_bind is_analyze_quiz 0 0); [apply hbounded_lift|]. intros _.
    apply (hbounded_bind is_analyze_quiz 0 0);
      [apply (hbounded_perform is_analyze_quiz)|].
    intros images. apply V. now intros [].
  - apply (hbounded_catch is_convert 1 0); [|intros e; apply hbounded_ret].
    apply (hbounded_bind is_convert 0 1);
      [apply (hbounded_perform is_convert)|].
    intros response. cbv zeta.
    apply (hbounded_bind is_convert 0 1); [apply hbounded_lift|]. intros _.
    apply (hbounded_bind is_convert 1 0);
      [apply (hbounded_perform is_convert)|].
    intros images. apply V. now intros [].
Qed.

Lemma solve_bounded (question download_url : string) :
  hbounded is_get 2 (solve O question download_url)
  /\ hbounded is_analyze_quiz 1 (solve O question download_url)
  /\ hbounded is_convert 1 (solve O question download_url).
Proof.
  destruct (solve_with_vision_bounded question download_url) as (G & Q & C).
  unfold solve. split; [|split].
  - apply (hbounded_catch is_get 1 1); [|intros e; exact G].
    apply (hbounded_bind is_get 1 0); [apply (hbounded_perform is_get)|].
    intros response.
    apply (hbounded_bind is_get 0 0); [apply hbounded_lift|]. intros _.
    cbv zeta. apply (hbounded_perform is_get).
  - apply (hbounded_catch is_analyze_quiz 1 0); [|intros e; exact Q].
    apply (hbounded_bind is_analyze_quiz 0 1);
      [apply (hbounded_perform is_analyze_quiz)|].
    intros response.
    apply (hbounded_bind is_analyze_quiz 0 1); [apply hbounded_lift|]. intros _.
    cbv zeta. apply (hbounded_perform is_analyze_quiz).
  - apply (hbounded_catch is_convert 0 1); [|intros e; exact C].
    apply (hbounded_bind is_convert 0 0);
      [apply (hbounded_perform is_convert)|].
    intros response.
    apply (hbounded_bind is_convert 0 0); [apply hbounded_lift|]. intros _.
    cbv zeta. apply (hbounded_perform is_convert).
Qed.

(** The first call of the handler is the download. *)
Lemma solve_starts (question download_url : string) (l : log) :
  exists rest,
    snd (solve O question download_url l) = (l ++ Get download_url :: rest)%list.
Proof.
  destruct (solve_with_vision_bounded question download_url) as (G & _ & _).
  assert (Later : forall l1 : log,
            exists rest,
              snd (_solve_with_vision O question download_url
                     (l ++ Get download_url :: l1)%list)
              = (l ++ Get download_url :: rest)%list).
  { intros l1. destruct (G (l ++ Get download_url :: l1)%list) as (a & E & _).
    exists (l1 ++ a)%list. rewrite E, <- app_assoc. reflexivity. }
  unfold solve, hcatch, hbind at 1, hperform at 1.
  destruct (client_get O l download_url) as [[e|e]|response].
  - change (l ++ [Get download_url])%list with (l ++ Get download_url :: [])%list.
    apply Later.
  - now exists [].
  - unfold hbind at 1, hlift at 1.
    destruct (raise_for_status response) as [e|]; cbn [raising].
    + change (l ++ [Get download_url])%list
        with (l ++ Get download_url :: [])%list.
      apply Later.
    + cbv zeta. unfold hperform.
      set (c := AnalyzeQuiz _ _).
      destruct (llm_analyze_quiz O _ question _) as [[e|e]|a].
      * replace ((l ++ [Get download_url]) ++ [c])%list
          with (l ++ Get download_url :: [c])%list
          by (rewrite <- app_assoc; reflexivity).
        apply Later.
      * exists [c]. cbn [snd]. now rewrite <- app_assoc.
      * exists [c]. cbn [snd]. now rewrite <- app_assoc.
Qed.

Lemma solve_with_vision_no_exception (question download_url : string) :
  no_exception (_solve_with_vision O question download_url).
Proof.
  unfold _solve_with_vision. apply no_exception_catch.
  intros e. apply no_exception_ret.
Qed.

Lemma solve_no_exception (question download_url : string) :
  no_exception (solve O question download_url).
Proof.
  unfold solve. apply no_exception_catch.
  intros e. apply solve_with_vision_no_exception.
Qed.

Lemma solve_with_vision_calm (question download_url : string) :
  patient O -> calm (_solve_with_vision O question download_url).
Proof.
  intros HO. pose proof HO as (Hg & _ & _).
  unfold _solve_with_vision.
  apply calm_catch; [|intros e; apply calm_ret].
  apply calm_bind; [apply calm_perform; intros l e; apply Hg|].
  intros response. cbv zeta.
  apply calm_bind; [apply calm_lift|]. intros _.
  apply calm_bind.
  { apply calm_perform. intros l e.
    destruct (convert_from_bytes O l (content response)); discriminate. }
  intros images.
  apply calm_bind; [now apply vision_loop_calm|].
  intros r. apply calm_ret.
Qed.

Lemma solve_calm (question download_url : string) :
  patient O -> calm (solve O question download_url).
Proof.
  intros HO. pose proof HO as (Hg & Hq & _).
  unfold solve.
  apply calm_catch; [|intros e; now apply solve_with_vision_calm].
  apply calm_bind; [apply calm_perform; intros l e; apply Hg|].
  intros response.
  apply calm_bind; [apply calm_lift|]. intros _. cbv zeta.
  apply calm_perform. intros l e. apply Hq.
Qed.

End Handler.

(** X16.  No exception leaves the PDF handler: [solve] returns an
    answer, whatever the download, the PDF library, the language model and
    the image conversion raise, unless what is raised at one of its awaited
    calls is no [Exception] (the task is cancelled there), which goes
    through both handlers.  While no awaited call does that, the handler
    returns.  It starts with the download, downloads at most twice, asks
    for at most one quiz analysis and converts the file to images at most
    once.  When both downloads fail with an exception the answer is
    [None]; when the first download is cancelled, the cancellation leaves
    the handler after that one call. *)
Theorem pdf_solve_raises_no_exception :
  forall (O : Outside) (question download_url : string) (l : log),
    (exists added,
        snd (solve O question download_url l)
        = (l ++ Get download_url :: added)%list
        /\ (hcount is_get added <= 1)%nat
        /\ (hcount is_analyze_quiz added <= 1)%nat
        /\ (hcount is_convert added <= 1)%nat)
    /\ (forall f,
          fst (solve O question download_url l) = inl f ->
          exists e, f = BaseException e)
    /\ (patient O -> exists v, fst (solve O question download_url l) = inr v)
    /\ (forall e,
          client_get O l download_url = inl (BaseException e) ->
          solve O question download_url l
          = (inl (BaseException e), (l ++ [Get download_url])%list))
    /\ (forall e1 e2,
          client_get O l download_url = inl (Exception e1) ->
          client_get O (l ++ [Get download_url])%list download_url
          = inl (Exception e2) ->
          solve O question download_url l
          = (inr PNone, (l ++ [Get download_url; Get download_url])%list)).
Proof.
  intros O question download_url l. split; [|split; [|split; [|split]]].
  - destruct (solve_starts O question download_url l) as (rest & E).
    destruct (solve_bounded O question download_url) as (G & Q & C).
    exists rest. split; [exact E|].
    destruct (G l) as (a1 & E1 & C1), (Q l) as (a2 & E2 & C2),
             (C l) as (a3 & E3 & C3).
    rewrite E in E1, E2, E3.
    apply app_inv_head in E1, E2, E3. subst a1 a2 a3.
    change (hcount is_get (Get download_url :: rest))
      with (S (hcount is_get rest)) in C1.
    change (hcount is_analyze_quiz (Get download_url :: rest))
      with (hcount is_analyze_quiz rest) in C2.
    change (hcount is_convert (Get download_url :: rest))
      with (hcount is_convert rest) in C3.
    lia.
  - apply solve_no_exception.
  - intros HO.
    destruct (fst (solve O question download_url l)) as [f|v] eqn:E;
      [|now exists v].
    destruct (solve_no_exception O question download_url l f E) as (e & ->).
    now destruct (solve_calm O question download_url HO l e).
  - intros e H1.
    unfold solve, hcatch, hbind at 1, hperform at 1. now rewrite H1.
  - intros e1 e2 H1 H2.
    unfold solve, hcatch, hbind at 1, hperform at 1. rewrite H1.
    unfold _solve_with_vision, hcatch, hbind at 1, hperform at 1. rewrite H2.
    unfold hret. now rewrite <- app_assoc.
Qed.

(** X16 at a server whose file is not a PDF: the handler returns. *)
Lemma pdf_solve_raises_no_exception_witness :
  exists v,
    fst (solve outside_not_a_pdf "What is the total?" "https://h/report.pdf" [])
    = inr v.
Proof.
  apply (proj1 (proj2 (proj2 (pdf_solve_raises_no_exception outside_not_a_pdf
                                "What is the total?" "https://h/report.pdf" [])))).
  repeat split; intros; discriminate.
Defined.

(** X17.  A file that downloads but cannot be opened as a PDF is not
    sent to the visual fallback: the language model is asked the question
    with an empty PDF content, and its answer is the answer of the
    handler. *)
Theorem pdf_unreadable_still_asked :
  forall (O : Outside) (question download_url : string) (l : log)
         (response : response) (e : exn) (answer : pyval),
    client_get O l download_url = inr response ->
    raise_for_status response = None ->
    pdfplumber_open O (content response) = inl e ->
    llm_analyze_quiz O (l ++ [Get download_url])%list question
                     ("PDF Content:" ++ nl) = inr answer ->
    solve O question download_url l
    = (inr answer,
       (l ++ [Get download_url;
              AnalyzeQuiz question ("PDF Content:" ++ nl)])%list).
Proof.
  intros O question download_url l response e answer Hget Hok Hopen Hllm.
  unfold solve, hcatch, hbind at 1, hperform at 1. rewrite Hget.
  unfold hbind at 1, hlift at 1. rewrite Hok. cbv zeta.
  assert (T : _extract_text O (content response) = EmptyString)
    by (unfold _extract_text; now rewrite Hopen).
  rewrite T. unfold hperform.
  change ("PDF Content:" ++ nl ++ EmptyString) with ("PDF Content:" ++ nl).
  rewrite Hllm. now rewrite <- app_assoc.
Qed.

Lemma pdf_unreadable_still_asked_witness :
  solve outside_not_a_pdf "What is the total?" "https://h/report.pdf" []
  = (inr (PInt 7),
     [Get "https://h/report.pdf";
      AnalyzeQuiz "What is the total?" ("PDF Content:" ++ nl)]).
Proof.
  apply (pdf_unreadable_still_asked outside_not_a_pdf "What is the total?"
           "https://h/report.pdf" []
           {| raise_for_status := None; content := "not a pdf" |}
           (value_error "No /Root object") (PInt 7));
    reflexivity.
Defined.

End PdfFacts.

(** ** The parser: a page that names no URL *)

Module SubmissionFacts.
Import Py PyFacts UrlFacts TextSpec TextFacts Re ReSpec ReFacts Html Models.
Import QuizParser ParserSpec ParserFacts DownloadFacts PayloadFacts SubmissionSpec.

Lemma not_contains_app (a b w : string) :
  contains (a ++ b) w = false ->
  contains a w = false /\ contains b w = false.
Proof.
  intros H. split.
  - destruct (contains a w) eqn:E; [|reflexivity].
    now rewrite (contains_app_r a b w E) in H.
  - destruct (contains b w) eqn:E; [|reflexivity].
    now rewrite (contains_app_l a b w E) in H.
Qed.

(** A word without slash that begins before a slash ends before it. *)
Lemma startswith_before_slash (w x b : string) :
  free_of "/" w = true ->
  startswith (x ++ String "/" b) w = true -> startswith x w = true.
Proof.
  unfold free_of. revert x. induction w as [|p w IH]; intros x Hw H;
    [reflexivity|].
  simpl in Hw. apply andb_true_iff in Hw as [Hp Hw].
  destruct x as [|c x].
  - cbn [startswith append] in H. apply andb_true_iff in H as [H _].
    rewrite Ascii.eqb_sym, H in Hp. discriminate Hp.
  - cbn [startswith append] in H. apply andb_true_iff in H as [Hc H].
    cbn [startswith]. rewrite Hc. now apply IH.
Qed.

(** Such a word occurs on neither side of a slash: it does not occur
    across it. *)
Lemma contains_across_slash (w a b : string) :
  free_of "/" w = true ->
  contains a w = false -> contains (String "/" b) w = false ->
  contains (a ++ String "/" b) w = false.
Proof.
  intros Hw. induction a as [|c a IH]; intros Ha Hb; [exact Hb|].
  simpl in Ha. apply orb_false_iff in Ha as [Hs Ha].
  change (String c a ++ String "/" b) with (String c (a ++ String "/" b)).
  cbn [contains]. rewrite (IH Ha Hb), orb_false_r.
  destruct (startswith (String c (a ++ String "/" b)) w) eqn:E; [|reflexivity].
  apply (startswith_before_slash w (String c a) b Hw) in E.
  now rewrite E in Hs.
Qed.

(** *** The first normalization: a line break before a slash *)

Lemma match_break_shape (pos : nat) (s : list ascii) (m : rmatch) :
  match_at re_break_before_slash pos s = Some m ->
  exists post, s = (LF :: "/"%char :: post)%list
               /\ m_start m = pos /\ m_end m = S pos.
Proof.
  unfold match_at, re_break_before_slash, ch. cbn [mt].
  destruct s as [|c s]; [discriminate|].
  destruct (Ascii.eqb_spec LF c) as [<-|_]; [|discriminate].
  destruct s as [|d s]; [discriminate|].
  destruct (Ascii.eqb_spec d "/") as [->|_]; [|discriminate].
  intros [= <-]. now exists s.
Qed.

Lemma search_break_shape (s : list ascii) :
  forall pos m,
    search_from re_break_before_slash pos s = Some m ->
    exists pre post,
      s = (pre ++ LF :: "/"%char :: post)%list
      /\ m_start m = (pos + List.length pre)%nat
      /\ m_end m = S (m_start m).
Proof.
  induction s as [|c s IH]; intros pos m H; simpl in H.
  - destruct (match_at re_break_before_slash pos []) as [m'|] eqn:E;
      [|discriminate].
    apply match_break_shape in E as (post & E & _). discriminate E.
  - destruct (match_at re_break_before_slash pos (c :: s)) as [m'|] eqn:E.
    + injection H as ->.
      apply match_break_shape in E as (post & E & Hs & He).
      exists [], post. simpl. rewrite Nat.add_0_r, Hs, He. auto.
    + apply IH in H as (pre & post & -> & Hs & He).
      exists (c :: pre), post. simpl. rewrite Hs, He.
      repeat split; lia.
Qed.

Lemma firstn_app_exact {A : Type} (a b : list A) :
  firstn (List.length a) (a ++ b) = a.
Proof. induction a as [|x a IH]; simpl; [now destruct b | now rewrite IH]. Qed.

Lemma skipn_app_exact {A : Type} (a b : list A) :
  skipn (List.length a) (a ++ b) = b.
Proof. induction a as [|x a IH]; simpl; [reflexivity | exact IH]. Qed.

(** *** The patterns need a URL *)

Lemma lang_lit_cs (t : string) (w : list ascii) :
  lang (lit false t) w -> str w = t.
Proof.
  unfold lit. revert w. induction t as [|c t IH]; intros w H; simpl in H.
  - now subst w.
  - destruct H as (w1 & w2 & -> & (x & -> & Hx) & H2).
    apply Ascii.eqb_eq in Hx. subst x. simpl. f_equal. now apply IH.
Qed.

(** A word of [https?://] begins with [http], in some case. *)
Lemma http_prefix_word (ci : bool) (w : list ascii) :
  lang (http_prefix ci) w -> startswith (lower (str w)) "http" = true.
Proof.
  unfold http_prefix, seq. cbn [fold_right].
  intros (w1 & w2 & -> & L1 & _).
  rewrite str_app, lower_app.
  apply startswith_app_r.
  destruct ci.
  - apply lang_lit_ci in L1. rewrite L1. reflexivity.
  - apply lang_lit_cs in L1. rewrite L1. reflexivity.
Qed.

Lemma needs_http_head (ci : bool) (r : regex) :
  needs_http (Cat (http_prefix ci) r).
Proof.
  intros w (w1 & w2 & -> & L1 & _).
  rewrite str_app, lower_app.
  apply contains_app_r, contains_prefix. now apply (http_prefix_word ci).
Qed.

Lemma needs_http_after (r1 r2 : regex) :
  needs_http r2 -> needs_http (Cat r1 r2).
Proof.
  intros H w (w1 & w2 & -> & _ & L2).
  rewrite str_app, lower_app. apply contains_app_l. now apply H.
Qed.

Lemma needs_http_group (n : nat) (r : regex) :
  needs_http r -> needs_http (Grp n r).
Proof. intros H w L. now apply H. Qed.

Lemma needs_http_front (r1 r2 : regex) :
  needs_http r1 -> needs_http (Cat r1 r2).
Proof.
  intros H w (w1 & w2 & -> & L1 & _).
  rewrite str_app, lower_app. apply contains_app_r. now apply H.
Qed.

Lemma submission_patterns_need_http (r : regex) :
  In r submission_patterns -> needs_http r.
Proof.
  unfold submission_patterns. simpl.
  intros [<-|[<-|[<-|[<-|[]]]]].
  - apply needs_http_head.
  - apply needs_http_head.
  - do 2 apply needs_http_after. apply needs_http_front, needs_http_group,
      needs_http_head.
  - do 4 apply needs_http_after. apply needs_http_front, needs_http_group,
      needs_http_head.
Qed.

(** A pattern that needs a URL finds nothing in a text without [http]. *)
Lemma search_needs_http (r : regex) (text : string) :
  needs_http r ->
  contains (lower text) "http" = false ->
  search r text = None.
Proof.
  intros Hr Ht. destruct (search r text) as [m|] eqn:Hsearch; [|reflexivity].
  unfold search in Hsearch.
  apply search_from_sound in Hsearch as (pre & w & post & Es & Lw & _).
  apply Hr in Lw.
  rewrite <- (str_chars text), Es, !str_app, !lower_app in Ht.
  apply not_contains_app in Ht as [_ Ht].
  apply not_contains_app in Ht as [Ht _]. congruence.
Qed.

Lemma lower_free_of_slash (s : string) :
  lower (String "/" s) = String "/" (lower s).
Proof. reflexivity. Qed.

(** The normalized text of a text without [http] is without [http]. *)
Lemma normalized_without_http (text : string) :
  contains (lower text) "http" = false ->
  contains (lower (sub re_break_before_slash [] text)) "http" = false.
Proof.
  intros H. unfold sub.
  enough (G : forall fuel pos s,
            contains (lower (str s)) "http" = false ->
            contains (lower (sub_from fuel re_break_before_slash [] text pos s))
                     "http" = false
            /\ (forall c s', s = (c :: s')%list -> c <> LF ->
                  exists t,
                    sub_from fuel re_break_before_slash [] text pos s
                    = String c t)).
  { apply G. now rewrite str_chars. }
  induction fuel as [|fuel IH]; intros pos s Hs.
  - simpl. split; [exact Hs|]. intros c s' -> _. now exists (str s').
  - cbn [sub_from].
    destruct (search_from re_break_before_slash pos s) as [m|] eqn:Hsearch.
    2:{ split; [exact Hs|]. intros c s' -> _. now exists (str s'). }
    apply search_break_shape in Hsearch as (pre & post & -> & Hstart & Hend).
    rewrite Hend, Hstart.
    replace (Nat.eqb (S (pos + List.length pre)) (pos + List.length pre))
      with false by (symmetry; apply Nat.eqb_neq; lia).
    replace (pos + List.length pre - pos)%nat with (List.length pre) by lia.
    replace (S (pos + List.length pre) - pos)%nat
      with (List.length (pre ++ [LF])%list)
      by (rewrite length_app; change (List.length [LF]) with 1%nat; lia).
    rewrite firstn_app_exact.
    replace (pre ++ LF :: "/"%char :: post)%list
      with ((pre ++ [LF]) ++ "/"%char :: post)%list
      by (now rewrite <- app_assoc).
    rewrite skipn_app_exact.
    change (expand text m []) with EmptyString.
    change (EmptyString ++ ?x) with x.
    change (pre ++ LF :: "/"%char :: post)%list
      with (pre ++ ([LF] ++ "/"%char :: post))%list in Hs.
    rewrite str_app, lower_app in Hs.
    apply not_contains_app in Hs as [Hpre Hrest].
    rewrite str_app, lower_app in Hrest.
    apply not_contains_app in Hrest as [_ Hrest].
    destruct (IH (S (pos + List.length pre)) ("/"%char :: post)%list Hrest)
      as [Hout Hhead].
    destruct (Hhead "/"%char post eq_refl) as (t & Ht); [discriminate|].
    rewrite Ht in *. split.
    + rewrite lower_app. rewrite lower_free_of_slash in *.
      now apply contains_across_slash.
    + intros c s' E Hc. destruct pre as [|c' pre'].
      * simpl in E. injection E as <- _. contradiction.
      * simpl in E. injection E as <- _. simpl. eauto.
Qed.

(** A substitution whose pattern finds nothing leaves the text. *)
Lemma sub_no_match (r : regex) (tpl : list piece) (text : string) :
  search r text = None -> sub r tpl text = text.
Proof.
  unfold sub, search. intros H. cbn [sub_from]. rewrite H. apply str_chars.
Qed.

Lemma findall_no_match (r : regex) (text : string) :
  search r text = None -> findall r text = [].
Proof. unfold findall, search. intros H. cbn [findall_from]. now rewrite H. Qed.

(** X18.  No submission endpoint is made up.  When no anchor of the
    markup has [submit] in its href and the text does not hold [http], in
    any case of the letters, the submission endpoint is the empty text:
    every pattern of the text rules, the synthesized origin and the
    fallback all need a URL of the text.  So it is for a page, with the
    markup and the text the parser works on. *)
Theorem no_url_no_submission_endpoint :
  (forall (text : string) (html : html),
      (forall href, In href (anchor_hrefs html) -> has_submit href = false) ->
      contains (lower text) "http" = false ->
      _extract_submission_url text html = EmptyString)
  /\ (forall (page : html) (quiz_url : string),
        (forall href, In href (anchor_hrefs (content_of page)) ->
                      has_submit href = false) ->
        contains (lower (get_text_strip nl (content_of page))) "http" = false ->
        submission_url (parse_quiz_page page quiz_url) = EmptyString).
Proof.
  assert (Core : forall (text : string) (html : html),
      (forall href, In href (anchor_hrefs html) -> has_submit href = false) ->
      contains (lower text) "http" = false ->
      _extract_submission_url text html = EmptyString).
  { intros text html Hanchors Htext.
    unfold _extract_submission_url. cbv zeta.
    assert (A : find (fun href => contains (lower href) "submit")
                     (anchor_hrefs html) = None).
    { destruct (find _ (anchor_hrefs html)) as [href|] eqn:F; [|reflexivity].
      apply find_some in F as [Hin Hs].
      pose proof (Hanchors href Hin) as Hno. unfold has_submit in Hno.
      rewrite Hno in Hs. discriminate Hs. }
    rewrite A.
    pose proof (normalized_without_http text Htext) as N1.
    assert (B : search re_broken_url (sub re_break_before_slash [] text) = None).
    { apply search_needs_http; [|exact N1].
      unfold re_broken_url. simpl.
      apply needs_http_front, needs_http_group, needs_http_head. }
    rewrite (sub_no_match _ _ _ B).
    assert (P : first_some
                  (fun pattern =>
                     match search pattern (sub re_break_before_slash [] text) with
                     | Some m =>
                         let url :=
                           if has_lastindex m
                           then match group (sub re_break_before_slash [] text) m 1 with
                                | Some g => g
                                | None => EmptyString
                                end
                           else group0 (sub re_break_before_slash [] text) m in
                         Some (sub re_trailing [] url)
                     | None => None
                     end) submission_patterns = None).
    { apply first_some_none. intros r Hr.
      now rewrite (search_needs_http r _ (submission_patterns_need_http r Hr) N1). }
    cbv zeta in P. rewrite P.
    assert (C : search re_base_url text = None).
    { apply search_needs_http; [|exact Htext].
      unfold re_base_url. apply needs_http_group, needs_http_head. }
    rewrite C.
    assert (D : findall re_any_url (sub re_break_before_slash [] text) = []).
    { apply findall_no_match, search_needs_http; [|exact N1].
      unfold re_any_url. apply needs_http_head. }
    rewrite D. reflexivity. }
  split; [exact Core|].
  intros page quiz_url Hanchors Htext.
  unfold parse_quiz_page. unfold content_of in *.
  destruct (find_id page "result"); cbn [submission_url]; now apply Core.
Qed.

Lemma no_url_no_submission_endpoint_witness :
  _extract_submission_url "What is 2 + 2?" [Text "What is 2 + 2?"] = EmptyString.
Proof.
  apply (proj1 no_url_no_submission_endpoint); [intros href []|].
  vm_compute. reflexivity.
Defined.

End SubmissionFacts.

(** ** The chain: what it costs *)

Module BudgetFacts.
Import Py Json Html Url Models Effects TraceSpec EffectFacts ChainSpec.
Import AnswerSubmitter SubmitterSpec SubmitterFacts LLMService QuizParser.
Import QuizOrchestrator OrchestratorSpec OrchestratorFacts ChainFacts.
Local Open Scope quiz_scope.

Section Bounded.
Context {A B : Type} (P : call -> bool).

Lemma bounded_ret (a : A) : bounded P 0 (ret a).
Proof. intros tr. exists []. simpl. rewrite app_nil_r. auto. Qed.

Lemma bounded_raise (e : exn) : bounded P 0 (@raise A e).
Proof. intros tr. exists []. simpl. rewrite app_nil_r. auto. Qed.

Lemma bounded_lift (r : exn + A) : bounded P 0 (lift r).
Proof. intros tr. exists []. simpl. rewrite app_nil_r. auto. Qed.

Lemma bounded_perform (c : call) (answer : trace -> exn + A) :
  bounded P (if P c then 1 else 0) (perform c answer).
Proof.
  intros tr. exists [c]. split; [reflexivity|].
  unfold count. simpl. destruct (P c); simpl; lia.
Qed.

Lemma bounded_bind (n1 n2 : nat) (m : M A) (k : A -> M B) :
  bounded P n1 m -> (forall a, bounded P n2 (k a)) ->
  bounded P (n1 + n2) (bind m k).
Proof.
  intros Hm Hk tr. unfold bind.
  destruct (Hm tr) as (a1 & E1 & C1).
  destruct (m tr) as [[e|a] tr1]; simpl in E1; subst tr1.
  - exists a1. split; [reflexivity | lia].
  - destruct (Hk a (tr ++ a1)%list) as (a2 & E2 & C2).
    exists (a1 ++ a2)%list. rewrite E2, app_assoc, count_app.
    split; [reflexivity | lia].
Qed.

Lemma bounded_catch (n1 n2 : nat) (m : M A) (h : exn -> M A) :
  bounded P n1 m -> (forall e, bounded P n2 (h e)) ->
  bounded P (n1 + n2) (catch m h).
Proof.
  intros Hm Hh tr. unfold catch.
  destruct (Hm tr) as (a1 & E1 & C1).
  destruct (m tr) as [[e|a] tr1]; simpl in E1; subst tr1.
  - destruct (Hh e (tr ++ a1)%list) as (a2 & E2 & C2).
    exists (a1 ++ a2)%list. rewrite E2, app_assoc, count_app.
    split; [reflexivity | lia].
  - exists a1. split; [reflexivity | lia].
Qed.

Lemma bounded_more (n n' : nat) (m : M A) :
  (n <= n')%nat -> bounded P n m -> bounded P n' m.
Proof.
  intros Hn Hm tr. destruct (Hm tr) as (added & E & C).
  exists added. split; [exact E | lia].
Qed.

End Bounded.

Section Budget.
Variable W : World.
Variables email secret : string.

(** *** Chat completions *)

Lemma completion_chats (system : string) (image : option string) (text : string) :
  bounded is_chat 1 (completion W system image text).
Proof.
  unfold completion. apply (bounded_bind is_chat 1 0).
  - apply (bounded_perform is_chat).
  - intros [c|]; [apply bounded_ret | apply bounded_raise].
Qed.

Lemma analyze_quiz_chats (q ctx : string) (img : option string) :
  bounded is_chat 1 (analyze_quiz W q ctx img).
Proof.
  unfold analyze_quiz. cbv zeta. apply (bounded_catch is_chat 1 0).
  - apply (bounded_bind is_chat 1 0); [apply completion_chats|].
    intros a. apply bounded_lift.
  - intros e. apply bounded_raise.
Qed.

Lemma solve_with_vision_chats (qc : QuizContent) (shot : string) :
  bounded is_chat 1 (_solve_with_vision W qc shot).
Proof.
  unfold _solve_with_vision, analyze_with_vision. cbv zeta.
  apply (bounded_bind is_chat 1 0); [apply completion_chats|].
  intros a. apply bounded_lift.
Qed.

Lemma solve_scraping_chats (qc : QuizContent) (base shot : string) :
  bounded is_chat 1 (_solve_scraping_task W qc base shot).
Proof.
  unfold _solve_scraping_task. cbv zeta.
  destruct (scrape_url _) as [scrape_url|];
    [|apply solve_with_vision_chats].
  destruct (truthy scrape_url); [|apply solve_with_vision_chats].
  apply (bounded_bind is_chat 0 1); [apply bounded_lift|]. intros absolute_url.
  apply (bounded_bind is_chat 0 1); [apply (bounded_perform is_chat)|].
  intros scraped. apply analyze_quiz_chats.
Qed.

Lemma solve_by_type_chats (qc : QuizContent) (shot base : string) :
  bounded is_chat 1 (_solve_by_type W qc shot base).
Proof.
  unfold _solve_by_type. cbv zeta.
  assert (Rest : bounded is_chat 1
    (if String.eqb (quiz_type qc) "data" then
       download_url <-
         match download_url qc with
         | Some d =>
             if truthy d
             then (u <- lift (make_absolute_url d base) ;; ret (Some u))
             else ret None
         | None => ret None
         end ;;
       vision_analysis <- analyze_with_vision W shot describe_prompt ;;
       let enhanced_question :=
         question qc ++ nl ++ nl ++ "Page Analysis: " ++ vision_analysis in
       perform (DataSolve enhanced_question download_url (raw_html qc))
               (fun tr => w_data_solve W tr enhanced_question download_url
                                       (raw_html qc))
     else if String.eqb (quiz_type qc) "scraping" then
       _solve_scraping_task W qc base shot
     else if String.eqb (quiz_type qc) "api" then
       _solve_api_task W qc base
     else _solve_with_vision W qc shot)).
  { destruct (String.eqb (quiz_type qc) "data").
    - apply (bounded_bind is_chat 0 1).
      + destruct (download_url qc) as [d|]; [|apply bounded_ret].
        destruct (truthy d); [|apply bounded_ret].
        apply (bounded_bind is_chat 0 0); [apply bounded_lift|].
        intros u. apply bounded_ret.
      + intros d. apply (bounded_bind is_chat 1 0).
        * unfold analyze_with_vision. apply completion_chats.
        * intros v. cbv zeta. apply (bounded_perform is_chat).
    - destruct (String.eqb (quiz_type qc) "scraping");
        [apply solve_scraping_chats|].
      destruct (String.eqb (quiz_type qc) "api");
        [unfold _solve_api_task; apply analyze_quiz_chats|].
      apply solve_with_vision_chats. }
  destruct (download_url qc) as [d|]; [|exact Rest].
  destruct (String.eqb (quiz_type qc) "pdf" && truthy d); [|exact Rest].
  apply (bounded_more is_chat 0 1); [lia|].
  apply (bounded_bind is_chat 0 0); [apply bounded_lift|].
  intros u. apply (bounded_perform is_chat).
Qed.

(** *** Tasks handed to a handler *)

Lemma solve_by_type_handlers (qc : QuizContent) (shot base : string) :
  bounded is_handler 1 (_solve_by_type W qc shot base).
Proof.
  assert (C : forall s i t, bounded is_handler 0 (completion W s i t)).
  { intros s i t. unfold completion. apply (bounded_bind is_handler 0 0).
    - apply (bounded_perform is_handler).
    - intros [c|]; [apply bounded_ret | apply bounded_raise]. }
  assert (Q : forall q ctx img, bounded is_handler 0 (analyze_quiz W q ctx img)).
  { intros q ctx img. unfold analyze_quiz. cbv zeta.
    apply (bounded_catch is_handler 0 0).
    - apply (bounded_bind is_handler 0 0); [apply C|].
      intros a. apply bounded_lift.
    - intros e. apply bounded_raise. }
  assert (V : bounded is_handler 0 (_solve_with_vision W qc shot)).
  { unfold _solve_with_vision, analyze_with_vision. cbv zeta.
    apply (bounded_bind is_handler 0 0); [apply C|].
    intros a. apply bounded_lift. }
  assert (S : bounded is_handler 0 (_solve_scraping_task W qc base shot)).
  { unfold _solve_scraping_task. cbv zeta.
    destruct (scrape_url _) as [u|]; [|exact V].
    destruct (truthy u); [|exact V].
    apply (bounded_bind is_handler 0 0); [apply bounded_lift|].
    intros absolute_url.
    apply (bounded_bind is_handler 0 0); [apply (bounded_perform is_handler)|].
    intros scraped. apply Q. }
  unfold _solve_by_type. cbv zeta.
  assert (Rest : bounded is_handler 1
    (if String.eqb (quiz_type qc) "data" then
       download_url <-
         match download_url qc with
         | Some d =>
             if truthy d
             then (u <- lift (make_absolute_url d base) ;; ret (Some u))
             else ret None
         | None => ret None
         end ;;
       vision_analysis <- analyze_with_vision W shot describe_prompt ;;
       let enhanced_question :=
         question qc ++ nl ++ nl ++ "Page Analysis: " ++ vision_analysis in
       perform (DataSolve enhanced_question download_url (raw_html qc))
               (fun tr => w_data_solve W tr enhanced_question download_url
                                       (raw_html qc))
     else if String.eqb (quiz_type qc) "scraping" then
       _solve_scraping_task W qc base shot
     else if String.eqb (quiz_type qc) "api" then
       _solve_api_task W qc base
     else _solve_with_vision W qc shot)).
  { destruct (String.eqb (quiz_type qc) "data").
    - apply (bounded_bind is_handler 0 1).
      + destruct (download_url qc) as [d|]; [|apply bounded_ret].
        destruct (truthy d); [|apply bounded_ret].
        apply (bounded_bind is_handler 0 0); [apply bounded_lift|].
        intros u. apply bounded_ret.
      + intros d. apply (bounded_bind is_handler 0 1).
        * unfold analyze_with_vision. apply C.
        * intros v. cbv zeta. apply (bounded_perform is_handler).
    - apply (bounded_more is_handler 0 1); [lia|].
      destruct (String.eqb (quiz_type qc) "scraping"); [exact S|].
      destruct (String.eqb (quiz_type qc) "api");
        [unfold _solve_api_task; apply Q | exact V]. }
  destruct (download_url qc) as [d|]; [|exact Rest].
  destruct (String.eqb (quiz_type qc) "pdf" && truthy d); [|exact Rest].
  apply (bounded_bind is_handler 0 1); [apply bounded_lift|].
  intros u. apply (bounded_perform is_handler).
Qed.

(** One step hands at most one task to a handler: the retry asks the
    language model only. *)
Lemma solve_single_quiz_handlers (url : string) :
  bounded is_handler 1 (solve_single_quiz W email secret url).
Proof.
  assert (P : forall sub u answer,
            bounded is_handler 0 (submit_answer W email secret sub u answer)).
  { intros sub u answer tr. rewrite submit_answer_run. eexists.
    split; [reflexivity|]. unfold count. simpl. lia. }
  assert (V : forall qc shot, bounded is_handler 0 (_solve_with_vision W qc shot)).
  { intros qc shot. unfold _solve_with_vision, analyze_with_vision, completion.
    cbv zeta.
    apply (bounded_bind is_handler 0 0); [|intros a; apply bounded_lift].
    apply (bounded_bind is_handler 0 0); [apply (bounded_perform is_handler)|].
    intros [c|]; [apply bounded_ret | apply bounded_raise]. }
  unfold solve_single_quiz.
  apply (bounded_bind is_handler 0 1); [apply (bounded_perform is_handler)|].
  intros page_data. cbv zeta.
  destruct (negb (truthy _));
    [apply (bounded_more is_handler 0 1); [lia | apply bounded_ret]|].
  apply (bounded_bind is_handler 0 1); [apply bounded_lift|]. intros sub.
  apply (bounded_bind is_handler 1 0); [apply solve_by_type_handlers|].
  intros answer.
  apply (bounded_bind is_handler 0 0); [apply P|].
  intros result.
  destruct (negb (correct result) && _); [|apply bounded_ret].
  apply (bounded_bind is_handler 0 0); [apply V|].
  intros answer2.
  apply (bounded_bind is_handler 0 0); [apply P|].
  intros result2. apply bounded_ret.
Qed.

Lemma submit_answer_chats (sub url : string) (answer : pyval) :
  bounded is_chat 0 (submit_answer W email secret sub url answer).
Proof.
  intros tr. rewrite submit_answer_run. eexists. split; [reflexivity|].
  unfold count. simpl. lia.
Qed.

Lemma submit_answer_posts (sub url : string) (answer : pyval) :
  bounded is_post 1 (submit_answer W email secret sub url answer).
Proof.
  intros tr. rewrite submit_answer_run. eexists. split; [reflexivity|].
  unfold count. simpl. lia.
Qed.

(** A computation that neither renders nor submits adds no POST. *)
Lemma quiet_posts {A : Type} (m : M A) : adds quiet m -> bounded is_post 0 m.
Proof.
  intros H tr. destruct (H tr) as (added & E & Q).
  exists added. split; [exact E|].
  rewrite (count_none is_post added); [lia|].
  apply forallb_forall. intros c Hc.
  pose proof (proj1 (forallb_forall _ _) Q c Hc) as Qc.
  unfold quiet in Qc. now apply andb_true_iff in Qc as [_ Qc].
Qed.

(** One step: at most two chat completions and two POSTs. *)
Lemma solve_single_quiz_budget (url : string) :
  bounded is_chat 2 (solve_single_quiz W email secret url)
  /\ bounded is_post 2 (solve_single_quiz W email secret url).
Proof.
  unfold solve_single_quiz. split.
  - apply (bounded_bind is_chat 0 2); [apply (bounded_perform is_chat)|].
    intros page_data. cbv zeta.
    destruct (negb (truthy _));
      [apply (bounded_more is_chat 0 2); [lia | apply bounded_ret]|].
    apply (bounded_bind is_chat 0 2); [apply bounded_lift|]. intros sub.
    apply (bounded_bind is_chat 1 1); [apply solve_by_type_chats|].
    intros answer.
    apply (bounded_bind is_chat 0 1); [apply submit_answer_chats|].
    intros result.
    destruct (negb (correct result) && _);
      [|apply (bounded_more is_chat 0 1); [lia | apply bounded_ret]].
    apply (bounded_bind is_chat 1 0); [apply solve_with_vision_chats|].
    intros answer2.
    apply (bounded_bind is_chat 0 0); [apply submit_answer_chats|].
    intros result2. apply bounded_ret.
  - apply (bounded_bind is_post 0 2); [apply (bounded_perform is_post)|].
    intros page_data. cbv zeta.
    destruct (negb (truthy _));
      [apply (bounded_more is_post 0 2); [lia | apply bounded_ret]|].
    apply (bounded_bind is_post 0 2); [apply bounded_lift|]. intros sub.
    apply (bounded_bind is_post 0 2);
      [apply quiet_posts, solve_by_type_quiet|].
    intros answer.
    apply (bounded_bind is_post 1 1); [apply submit_answer_posts|].
    intros result.
    destruct (negb (correct result) && _);
      [|apply (bounded_more is_post 0 1); [lia | apply bounded_ret]].
    apply (bounded_bind is_post 0 1);
      [apply quiet_posts, solve_with_vision_quiet|].
    intros answer2.
    apply (bounded_bind is_post 1 0); [apply submit_answer_posts|].
    intros result2. apply bounded_ret.
Qed.

Lemma chain_loop_budget (fuel : nat) (max_questions : Z) :
  forall (current_url : option string) (n : Z) (res : list QuizResult)
         (tr : trace) (st : chain_state),
    chain_loop W email secret fuel max_questions current_url n res tr = Some st ->
    exists added,
      calls st = (tr ++ added)%list
      /\ (count is_chat added <= 2 * Z.to_nat (question_count st - n))%nat
      /\ (count is_post added <= 2 * Z.to_nat (question_count st - n))%nat
      /\ (count is_handler added <= Z.to_nat (question_count st - n))%nat.
Proof.
  induction fuel as [|fuel IH]; intros current_url n res tr st H.
  - destruct (goes_on max_questions current_url n) eqn:G.
    + simpl in H. unfold goes_on, truthy_opt in G.
      destruct current_url as [cur|]; [|discriminate G].
      rewrite G in H. discriminate H.
    + rewrite chain_loop_stops in H by exact G. injection H as <-.
      exists []. simpl. rewrite app_nil_r. unfold count. simpl.
      repeat split; lia.
  - destruct (goes_on max_questions current_url n) eqn:G.
    + destruct current_url as [cur|]; [|discriminate G].
      rewrite chain_loop_step in H by exact G.
      destruct (solve_single_quiz_budget cur) as [Bc Bp].
      destruct (Bc tr) as (a1 & E1 & C1).
      destruct (Bp tr) as (a1' & E1' & P1).
      rewrite E1 in E1'. apply app_inv_head in E1'. subst a1'.
      destruct (solve_single_quiz_handlers cur tr) as (a1' & E1' & H1).
      rewrite E1 in E1'. apply app_inv_head in E1'. subst a1'.
      destruct (solve_single_quiz W email secret cur tr) as [[e|r] tr'];
        simpl in E1; subst tr'.
      * injection H as <-. exists a1. simpl.
        replace (n + 1 - n)%Z with 1%Z by lia. simpl.
        repeat split; lia.
      * pose proof (chain_loop_counts W email secret _ _ _ _ _ _ _ H)
          as (Hq & _).
        apply IH in H as (a2 & Hc & C2 & P2 & H2).
        exists (a1 ++ a2)%list. rewrite Hc, <- app_assoc, !count_app.
        repeat split; lia.
    + rewrite chain_loop_stops in H by exact G. injection H as <-.
      exists []. simpl. rewrite app_nil_r. unfold count. simpl.
      repeat split; lia.
Qed.

End Budget.

(** X20.  What a chain costs.  For each page rendered, the chain itself
    asks the language model for at most two chat completions (one for the
    solver or the description of the page, one for the retry), hands at
    most one task to the PDF handler or the data handler, and POSTs at most
    two answers.  The completions a handler asks for while it works on its
    task are inside the handler call and are not counted here.  A chain run
    with the default maximum therefore makes at most 20 renderings, 40 chat
    completions of its own, 20 handler calls and 40 POSTs. *)
Theorem chain_call_budget :
  forall (W : World) (email secret initial_url : string) (max_questions : Z)
         (res : list QuizResult) (tr : trace),
    exists st added,
      solve_quiz_chain W email secret initial_url max_questions res tr = Some st
      /\ calls st = (tr ++ added)%list
      /\ (count is_chat added <= 2 * Z.to_nat (question_count st))%nat
      /\ (count is_handler added <= Z.to_nat (question_count st))%nat
      /\ (count is_post added <= 2 * Z.to_nat (question_count st))%nat
      /\ (max_questions = default_max_questions ->
          (count is_render added <= 20)%nat
          /\ (count is_chat added <= 40)%nat
          /\ (count is_handler added <= 20)%nat
          /\ (count is_post added <= 40)%nat).
Proof.
  intros W email secret initial_url max_questions res tr.
  unfold solve_quiz_chain.
  destruct (chain_loop_total W email secret (Z.to_nat max_questions)
              max_questions (Some initial_url) 0 res tr ltac:(lia)) as (st & E).
  rewrite E.
  destruct (chain_loop_budget W email secret _ _ _ _ _ _ _ E)
    as (added & Hc & Cc & Cp & Ch).
  destruct (chain_loop_counts W email secret _ _ _ _ _ _ _ E)
    as (Hq & Hr & _).
  rewrite Z.sub_0_r in *.
  eexists _, (added ++ [Close])%list. split; [reflexivity|].
  cbn [calls question_count]. unfold close, perform. cbn [snd].
  rewrite Hc, <- app_assoc. split; [reflexivity|].
  rewrite !count_app.
  change (count is_chat [Close]) with 0%nat.
  change (count is_post [Close]) with 0%nat.
  change (count is_render [Close]) with 0%nat.
  change (count is_handler [Close]) with 0%nat.
  rewrite Hc, count_app in Hr.
  split; [lia|]. split; [lia|]. split; [lia|].
  intros ->. unfold default_max_questions in *. lia.
Qed.

End BudgetFacts.

(** ** Regular expressions: what a group captured *)

Module CaptureFacts.
Import Py PyFacts Re ReSpec ReFacts CaptureSpec DownloadFacts PayloadFacts.

Lemma skipn_after {A : Type} (subject : list A) (pos : nat)
  (s w s' : list A) :
  s = skipn pos subject ->
  s = (w ++ s')%list ->
  s' = skipn (pos + List.length w) subject
  /\ firstn (List.length w) (skipn pos subject) = w.
Proof.
  intros Hs E. rewrite Hs in E. split.
  - rewrite Nat.add_comm, <- skipn_skipn, E.
    symmetry. apply SubmissionFacts.skipn_app_exact.
  - rewrite E. apply SubmissionFacts.firstn_app_exact.
Qed.

Lemma caps_within_cons (subject : list ascii) (root : regex) (cs : caps)
  (n b e : nat) :
  caps_within subject root cs ->
  (b <= e)%nat ->
  group_lang root n (firstn (e - b) (skipn b subject)) ->
  caps_within subject root ((n, (b, e)) :: cs).
Proof.
  intros Hcs Hbe Hw n' b' e' [[= <- <- <-]|Hin]; [auto | now apply Hcs].
Qed.

(** A matcher keeps the captures within the subject. *)
Definition keeps_caps {R : Type} (subject : list ascii) (root : regex)
  (m : matcher R) (L : list ascii -> Prop) : Prop :=
  forall pos s cs k x,
    s = skipn pos subject ->
    caps_within subject root cs ->
    m pos s cs k = Some x ->
    exists w s' cs',
      s = (w ++ s')%list /\ L w
      /\ caps_within subject root cs'
      /\ k (pos + List.length w)%nat s' cs' = Some x.

Lemma star_loop_keeps {R : Type} (subject : list ascii) (root : regex)
  (body : matcher R) (L : list ascii -> Prop) (greedy : bool) :
  keeps_caps subject root body L ->
  forall k n pos s cs x,
    s = skipn pos subject ->
    caps_within subject root cs ->
    star_loop body greedy k n pos s cs = Some x ->
    exists w s' cs',
      s = (w ++ s')%list /\ star_lang L w
      /\ caps_within subject root cs'
      /\ k (pos + List.length w)%nat s' cs' = Some x.
Proof.
  intros Hbody k n. induction n as [|n IH]; intros pos s cs x Hs Hcs H.
  - exists [], s, cs. simpl in *. rewrite Nat.add_0_r.
    split; [reflexivity|]. split; [constructor|]. split; [exact Hcs | exact H].
  - assert (Leave : k pos s cs = Some x ->
              exists w s' cs', s = (w ++ s')%list /\ star_lang L w
                /\ caps_within subject root cs'
                /\ k (pos + List.length w)%nat s' cs' = Some x).
    { intros Hk. exists [], s, cs. simpl. rewrite Nat.add_0_r.
      split; [reflexivity|]. split; [constructor|].
      split; [exact Hcs | exact Hk]. }
    assert (Again :
              body pos s cs
                (fun pos1 s1 cs1 =>
                   if (List.length s1 <? List.length s)%nat
                   then star_loop body greedy k n pos1 s1 cs1 else None)
              = Some x ->
              exists w s' cs', s = (w ++ s')%list /\ star_lang L w
                /\ caps_within subject root cs'
                /\ k (pos + List.length w)%nat s' cs' = Some x).
    { intros Hb.
      apply (Hbody pos s cs _ x Hs Hcs) in Hb
        as (w1 & s1 & cs1 & E1 & L1 & C1 & K1).
      destruct (List.length s1 <? List.length s)%nat; [|discriminate].
      assert (Hs1 : s1 = skipn (pos + List.length w1) subject).
      { exact (proj1 (skipn_after _ _ _ _ _ Hs E1)). }
      apply (IH _ _ _ _ Hs1 C1) in K1 as (w2 & s2 & cs2 & E2 & L2 & C2 & K2).
      exists (w1 ++ w2)%list, s2, cs2.
      rewrite E1, E2, <- app_assoc, length_app, Nat.add_assoc.
      split; [reflexivity|]. split; [now constructor|].
      split; [exact C2 | exact K2]. }
    simpl in H. destruct greedy.
    + destruct (body pos s cs _) eqn:E; [injection H as ->; now apply Again|].
      now apply Leave.
    + destruct (k pos s cs) eqn:E; [injection H as ->; now apply Leave|].
      now apply Again.
Qed.

(** Every success of the matcher consumed a word of the pattern and left
    captures that hold words of its groups. *)
Theorem mt_keeps_caps (subject : list ascii) (root : regex) (r : regex) :
  part_of r root ->
  forall R : Type, keeps_caps subject root (@mt R r) (lang r).
Proof.
  induction r as [|p|r1 IH1 r2 IH2|r1 IH1 r2 IH2|g r1 IH1|n r1 IH1|r1 IH1| |];
    intros Hpart R pos s cs k x Hs Hcs H; simpl in H.
  - exists [], s, cs. simpl. rewrite Nat.add_0_r. auto.
  - destruct s as [|c s']; [discriminate|].
    destruct (p c) eqn:Hp; [|discriminate].
    exists [c], s', cs. simpl. rewrite Nat.add_1_r.
    split; [reflexivity|]. split; [now exists c|]. split; [exact Hcs | exact H].
  - assert (P1 : part_of r1 root) by (intros n w G; apply Hpart; now left).
    assert (P2 : part_of r2 root) by (intros n w G; apply Hpart; now right).
    apply (IH1 P1 R pos s cs _ x Hs Hcs) in H
      as (w1 & s1 & cs1 & E1 & L1 & C1 & K1).
    assert (Hs1 : s1 = skipn (pos + List.length w1) subject).
    { exact (proj1 (skipn_after _ _ _ _ _ Hs E1)). }
    apply (IH2 P2 R _ _ _ _ x Hs1 C1) in K1
      as (w2 & s2 & cs2 & E2 & L2 & C2 & K2).
    exists (w1 ++ w2)%list, s2, cs2.
    rewrite E1, E2, <- app_assoc, length_app, Nat.add_assoc.
    split; [reflexivity|]. split; [now exists w1, w2|].
    split; [exact C2 | exact K2].
  - assert (P1 : part_of r1 root) by (intros n w G; apply Hpart; now left).
    assert (P2 : part_of r2 root) by (intros n w G; apply Hpart; now right).
    destruct (mt r1 pos s cs k) eqn:E.
    + injection H as ->.
      apply (IH1 P1 R pos s cs k x Hs Hcs) in E as (w & s' & cs' & ? & ? & ? & ?).
      exists w, s', cs'. simpl. auto.
    + apply (IH2 P2 R pos s cs k x Hs Hcs) in H as (w & s' & cs' & ? & ? & ? & ?).
      exists w, s', cs'. simpl. auto.
  - assert (P1 : part_of r1 root) by (intros n w G; now apply Hpart).
    now apply (star_loop_keeps subject root (mt r1) (lang r1) g (IH1 P1 R)
                 k _ pos s cs x Hs Hcs) in H.
  - assert (P1 : part_of r1 root) by (intros m w G; apply Hpart; now right).
    apply (IH1 P1 R pos s cs _ x Hs Hcs) in H
      as (w & s' & cs' & E & Lw & C & K).
    exists w, s', ((n, (pos, (pos + List.length w)%nat)) :: cs').
    split; [exact E|]. split; [exact Lw|]. split; [|exact K].
    apply caps_within_cons; [exact C | lia |].
    replace (pos + List.length w - pos)%nat with (List.length w) by lia.
    rewrite (proj2 (skipn_after _ _ _ _ _ Hs E)). apply Hpart. now left.
  - assert (P1 : part_of r1 root) by (intros m w G; now apply Hpart).
    destruct (mt r1 pos s cs _) as [cs1|] eqn:E; [|discriminate].
    apply (IH1 P1 caps pos s cs _ cs1 Hs Hcs) in E
      as (w & s' & cs' & _ & _ & C & K).
    injection K as ->.
    exists [], s, cs1. simpl. rewrite Nat.add_0_r. auto.
  - destruct (Nat.eqb pos 0); [|discriminate].
    exists [], s, cs. simpl. rewrite Nat.add_0_r. auto.
  - exists [], s, cs. simpl. rewrite Nat.add_0_r.
    split; [reflexivity|]. split; [reflexivity|]. split; [exact Hcs|].
    destruct s as [|c [|c' s']]; [exact H| |discriminate].
    destruct (Ascii.eqb c LF); [exact H | discriminate].
Qed.

Lemma search_from_caps (r : regex) (subject : list ascii) :
  forall s pos m,
    s = skipn pos subject ->
    search_from r pos s = Some m ->
    caps_within subject r (m_caps m).
Proof.
  assert (Here : forall pos s m,
            s = skipn pos subject ->
            match_at r pos s = Some m -> caps_within subject r (m_caps m)).
  { intros pos s m Hs E. unfold match_at in E.
    apply (mt_keeps_caps subject r r (fun n w G => G) rmatch pos s [] _ m Hs)
      in E as (w & s' & cs' & _ & _ & C & K).
    - injection K as <-. exact C.
    - intros n b e []. }
  induction s as [|c s IH]; intros pos m Hs H; simpl in H.
  - destruct (match_at r pos []) as [m'|] eqn:E; [|discriminate].
    injection H as ->. now apply (Here pos []).
  - destruct (match_at r pos (c :: s)) as [m'|] eqn:E.
    + injection H as ->. now apply (Here pos (c :: s)).
    + apply (IH (S pos)); [|exact H].
      replace (S pos) with (1 + pos)%nat by reflexivity.
      rewrite <- skipn_skipn, <- Hs. reflexivity.
Qed.

Lemma cap_get_in (cs : caps) (n b e : nat) :
  cap_get cs n = Some (b, e) -> In (n, (b, e)) cs.
Proof.
  induction cs as [|[m se] cs IH]; simpl; [discriminate|].
  destruct (Nat.eqb_spec m n) as [->|_].
  - intros [= ->]. now left.
  - intros H. right. now apply IH.
Qed.

Lemma substring_firstn_skipn (b n : nat) (s : string) :
  substring b n s = str (firstn n (skipn b (chars s))).
Proof.
  revert b n. induction s as [|c s IH]; intros b n.
  - destruct b, n; reflexivity.
  - destruct b as [|b].
    + destruct n as [|n]; [reflexivity|].
      simpl. f_equal. apply (IH 0%nat n).
    + simpl. apply IH.
Qed.

(** The text of a group found by a search is a word of a group of the
    pattern with that number, and it occurs in the subject. *)
Theorem group_text (r : regex) (subject : string) (m : rmatch) (n : nat)
  (u : string) :
  search r subject = Some m ->
  group subject m n = Some u ->
  exists w, group_lang r n w /\ u = str w /\ contains subject u = true.
Proof.
  unfold search, group. intros Hsearch Hg.
  destruct (cap_get (m_caps m) n) as [[b e]|] eqn:G; [|discriminate].
  injection Hg as <-. cbn [fst snd].
  apply (search_from_caps r (chars subject)) in Hsearch; [|reflexivity].
  destruct (Hsearch n b e (cap_get_in _ _ _ _ G)) as [Hbe Hw].
  exists (firstn (e - b) (skipn b (chars subject))).
  split; [exact Hw|]. unfold slice.
  split; [apply substring_firstn_skipn|].
  apply (substring_contains b).
  rewrite !substring_firstn_skipn.
  f_equal.
  set (l := skipn b (chars subject)).
  assert (Len : String.length (str (firstn (e - b) l))
                = List.length (firstn (e - b) l)).
  { generalize (firstn (e - b) l) as x.
    induction x as [|c x IHx]; simpl; [reflexivity | now rewrite IHx]. }
  rewrite Len. rewrite length_firstn.
  destruct (Nat.le_ge_cases (e - b) (List.length l)) as [L|L].
  - now rewrite Nat.min_l.
  - rewrite Nat.min_r by exact L. now rewrite !firstn_all2.
Qed.

End CaptureFacts.

(** ** The scraping task: the pages it fetches *)

Module ScrapeFacts.
Import Py PyFacts Re ReSpec ReFacts CaptureSpec CaptureFacts.
Import Json Html Url Models Effects TraceSpec EffectFacts ChainSpec ScrapeSpec.
Import LLMService QuizParser PayloadFacts.
Import QuizOrchestrator OrchestratorSpec OrchestratorFacts BudgetFacts Examples.
Local Open Scope quiz_scope.

(** The words of a path group: a slash, then at least one character, none
    of them a double quote. *)
Lemma path_word (p : ascii -> bool) (w : list ascii) :
  (forall c, p c = true -> c <> dquote) ->
  lang (Cat (ch false "/") (plus (Chr p))) w ->
  exists c t, w = "/"%char :: c :: t /\ ~ In dquote (c :: t).
Proof.
  intros Hp (w1 & w2 & -> & (c & -> & Hc) & (w3 & w4 & -> & (d & -> & Hd) & Hst)).
  apply Ascii.eqb_eq in Hc. subst c.
  exists d, w4. split; [reflexivity|].
  intros [E|Hin]; [now apply (Hp d Hd)|].
  induction Hst as [|x y (e & -> & He) _ IH]; [destruct Hin|].
  destruct Hin as [E|Hin]; [now apply (Hp e He) | now apply IH].
Qed.

Lemma group_lang_lit (ci : bool) (t : string) (n : nat) (w : list ascii) :
  ~ group_lang (lit ci t) n w.
Proof.
  unfold lit, seq. induction (chars t) as [|c l IH]; simpl; [auto|].
  intros [[]|H]. now apply IH.
Qed.

Ltac group_cases H :=
  cbn [seq fold_right group_lang one_of plus space lazy_star dot ch none_of]
    in H;
  repeat match goal with
         | G : _ \/ _ |- _ => destruct G
         | G : False |- _ => destruct G
         | G : group_lang (lit _ _) _ _ |- _ => apply group_lang_lit in G
         end.

Lemma url_patterns_group (r : regex) (w : list ascii) :
  In r url_patterns ->
  group_lang r 1 w ->
  exists c t, w = "/"%char :: c :: t /\ ~ In dquote (c :: t).
Proof.
  assert (Outer : forall c,
            negb (true && is_space c || char_in c ("<>" ++ quotes)) = true ->
            c <> dquote).
  { intros c H ->. discriminate H. }
  assert (Inner : forall c,
            negb (false && is_space c || char_in c dq) = true -> c <> dquote).
  { intros c H ->. discriminate H. }
  assert (Group : forall w', group_lang path_group 1 w' ->
            exists c t, w' = "/"%char :: c :: t /\ ~ In dquote (c :: t)).
  { intros w' [[_ L]|[[]|[[]|[]]]]. exact (path_word _ _ Outer L). }
  intros [<-|[<-|[<-|[<-|[]]]]] H.
  - group_cases H. now apply Group.
  - group_cases H. now apply Group.
  - group_cases H. now apply Group.
  - group_cases H.
    match goal with G : _ /\ lang _ w |- _ => destruct G as [_ L] end.
    exact (path_word _ _ Inner L).
Qed.

(** X22.  The path to scrape.  When the loop over the patterns finds a
    path in a text, the path is a piece of that text that begins with a
    slash, has at least one more character and holds no double quote.  It
    is therefore not empty, so that the test on it passes and the visual
    fallback is left to the texts in which no pattern matches; and it does
    not begin with [http], so that [make_absolute_url] does not return it
    as it is but resolves it against the scheme and the host of the base
    URL. *)
Theorem scrape_url_named_path :
  forall subject path : string,
    scrape_url subject = Some path ->
    named_path subject path = true
    /\ truthy path = true
    /\ forall base_url,
         make_absolute_url path base_url
         = match urlparse base_url EmptyString with
           | inl e => inl e
           | inr parsed =>
               urljoin (scheme parsed ++ "://" ++ netloc parsed) path
           end.
Proof.
  intros subject path F. unfold scrape_url in F.
  apply first_some_in in F as (r & Hr & F).
  destruct (search r subject) as [m|] eqn:Hsearch; [|discriminate].
  destruct (group_text r subject m 1 path Hsearch F) as (w & G & -> & Hin).
  destruct (url_patterns_group r w Hr G) as (c & t & -> & Hdq).
  change (str ("/"%char :: c :: t)) with (String "/" (String c (str t))) in *.
  split; [|split].
  - unfold named_path. rewrite Hin, andb_true_r.
    cbn [startswith String.length chars forallb]. rewrite Ascii.eqb_refl.
    cbn [andb Nat.ltb Nat.leb].
    assert (H1 : forall x, In x (c :: t) -> negb (Ascii.eqb x dquote) = true).
    { intros x Hx. apply negb_true_iff, Ascii.eqb_neq. intros ->. now apply Hdq. }
    change (negb ("/" =? dquote)%char) with true. cbn [andb].
    apply (proj2 (forallb_forall _ (c :: chars (str t)))).
    rewrite chars_str. exact H1.
  - reflexivity.
  - intros base_url. unfold make_absolute_url. reflexivity.
Qed.

(** X22 on a question that names the path to scrape. *)
Lemma scrape_url_named_path_witness :
  named_path "Scrape /data?email=a for the secret code" "/data?email=a" = true
  /\ make_absolute_url "/data?email=a" "https://quiz.example/start"
     = inr "https://quiz.example/data?email=a".
Proof.
  destruct (scrape_url_named_path "Scrape /data?email=a for the secret code"
              "/data?email=a" eq_refl) as (Hn & _ & Hm).
  split; [exact Hn|]. rewrite Hm. vm_compute. reflexivity.
Defined.

End ScrapeFacts.

(** ** Tasks: the model without cancellation is a part of the task model *)

Module TaskFacts.
Import Py Json Html Url Models Effects TraceSpec Awaiting TaskSpec Examples.
Local Open Scope task_scope.

Section Combinators.
Context {A B : Type}.

Lemma agree_ret (a : A) : agree (ret a) (tret a).
Proof. intros tr. reflexivity. Qed.

Lemma agree_raise (e : exn) : agree (@raise A e) (traise e).
Proof. intros tr. reflexivity. Qed.

Lemma agree_lift (r : exn + A) : agree (lift r) (tlift r).
Proof. intros tr. reflexivity. Qed.

Lemma agree_perform (c : call) (answer : trace -> exn + A)
  (answer' : trace -> failure + A) :
  (forall tr, answer' tr = raising (answer tr)) ->
  agree (perform c answer) (await c answer').
Proof. intros H tr. unfold await, perform. now rewrite H. Qed.

Lemma agree_bind (m : M A) (t : T A) (k : A -> M B) (k' : A -> T B) :
  agree m t -> (forall a, agree (k a) (k' a)) ->
  agree (bind m k) (tbind t k').
Proof.
  intros Hm Hk tr. unfold bind, tbind. rewrite (Hm tr).
  destruct (m tr) as [[e|a] tr']; simpl; [reflexivity | apply Hk].
Qed.

Lemma agree_catch (m : M A) (t : T A) (h : exn -> M A) (h' : exn -> T A) :
  agree m t -> (forall e, agree (h e) (h' e)) ->
  agree (catch m h) (tcatch t h').
Proof.
  intros Hm Hh tr. unfold catch, tcatch. rewrite (Hm tr).
  destruct (m tr) as [[e|a] tr']; simpl; [apply Hh | reflexivity].
Qed.

(** *** The calls a task adds *)

Lemma tadds_ret (P : call -> bool) (a : A) : tadds P (tret a).
Proof. intros tr. exists []. simpl. now rewrite app_nil_r. Qed.

Lemma tadds_raise (P : call -> bool) (e : exn) : tadds P (@traise A e).
Proof. intros tr. exists []. simpl. now rewrite app_nil_r. Qed.

Lemma tadds_lift (P : call -> bool) (r : exn + A) : tadds P (tlift r).
Proof. intros tr. exists []. simpl. now rewrite app_nil_r. Qed.

Lemma tadds_await (P : call -> bool) (c : call)
  (answer : trace -> failure + A) :
  P c = true -> tadds P (await c answer).
Proof. intros H tr. exists [c]. simpl. now rewrite H. Qed.

Lemma tadds_bind (P : call -> bool) (m : T A) (k : A -> T B) :
  tadds P m -> (forall a, tadds P (k a)) -> tadds P (tbind m k).
Proof.
  intros Hm Hk tr. unfold tbind.
  destruct (Hm tr) as (a1 & E1 & P1).
  destruct (m tr) as [[f|a] tr1]; simpl in E1; subst tr1.
  - now exists a1.
  - destruct (Hk a (tr ++ a1)%list) as (a2 & E2 & P2).
    exists (a1 ++ a2)%list. rewrite E2, app_assoc, forallb_app, P1, P2. auto.
Qed.

Lemma tadds_catch (P : call -> bool) (m : T A) (h : exn -> T A) :
  tadds P m -> (forall e, tadds P (h e)) -> tadds P (tcatch m h).
Proof.
  intros Hm Hh tr. unfold tcatch.
  destruct (Hm tr) as (a1 & E1 & P1).
  destruct (m tr) as [[[e|e]|a] tr1]; simpl in E1; subst tr1.
  - destruct (Hh e (tr ++ a1)%list) as (a2 & E2 & P2).
    exists (a1 ++ a2)%list. rewrite E2, app_assoc, forallb_app, P1, P2. auto.
  - now exists a1.
  - now exists a1.
Qed.

(** A task that begins with a call records it first. *)
Lemma tadds_starts (P : call -> bool) (c : call)
  (answer : trace -> failure + A) (k : A -> T B) :
  (forall a, tadds P (k a)) ->
  forall tr, exists rest,
    snd (tbind (await c answer) k tr) = (tr ++ c :: rest)%list.
Proof.
  intros Hk tr. unfold tbind, await.
  destruct (answer tr) as [f|a]; [now exists []|].
  destruct (Hk a (tr ++ [c])%list) as (rest & E & _).
  exists rest. rewrite E, <- app_assoc. reflexivity.
Qed.

(** *** What a task raises *)

Lemma exception_free_ret (a : A) : exception_free (tret a).
Proof. intros tr f. discriminate. Qed.

(** What leaves a try block whose handler raises no exception is no
    exception. *)
Lemma exception_free_catch (m : T A) (h : exn -> T A) :
  (forall e, exception_free (h e)) -> exception_free (tcatch m h).
Proof.
  intros Hh tr f. unfold tcatch.
  destruct (m tr) as [[[e|e]|a] tr1]; simpl.
  - apply Hh.
  - intros [= <-]. now exists e.
  - discriminate.
Qed.

Lemma tcalm_ret (a : A) : tcalm (tret a).
Proof. intros tr e. discriminate. Qed.

Lemma tcalm_raise (x : exn) : tcalm (@traise A x).
Proof. intros tr e. discriminate. Qed.

Lemma tcalm_lift (r : exn + A) : tcalm (tlift r).
Proof. intros tr e. destruct r; discriminate. Qed.

Lemma tcalm_await (c : call) (answer : trace -> failure + A) :
  (forall tr e, answer tr <> inl (BaseException e)) -> tcalm (await c answer).
Proof. intros Ha tr e. apply Ha. Qed.

Lemma tcalm_bind (m : T A) (k : A -> T B) :
  tcalm m -> (forall a, tcalm (k a)) -> tcalm (tbind m k).
Proof.
  intros Hm Hk tr e. unfold tbind. specialize (Hm tr).
  destruct (m tr) as [[f|a] tr1]; simpl in *.
  - intros [= ->]. now apply (Hm e).
  - apply Hk.
Qed.

Lemma tcalm_catch (m : T A) (h : exn -> T A) :
  tcalm m -> (forall x, tcalm (h x)) -> tcalm (tcatch m h).
Proof.
  intros Hm Hh tr e. unfold tcatch. specialize (Hm tr).
  destruct (m tr) as [[[x|x]|a] tr1]; simpl in *.
  - apply Hh.
  - now destruct (Hm x).
  - discriminate.
Qed.

End Combinators.

Ltac agree_step :=
  first
    [ apply agree_ret
    | apply agree_raise
    | apply agree_lift
    | apply agree_perform; intros ?; reflexivity
    | apply agree_bind; [|intros ?]
    | apply agree_catch; [|intros ?]
    | progress cbv zeta
    | match goal with
      | |- agree (match ?x with _ => _ end) _ => destruct x
      | |- agree (if ?b then _ else _) _ => destruct b
      end ].

Ltac tcalm_step :=
  first
    [ apply tcalm_ret
    | apply tcalm_raise
    | apply tcalm_lift
    | apply tcalm_bind; [|intros ?]
    | apply tcalm_catch; [|intros ?]
    | progress cbv zeta
    | match goal with
      | |- tcalm (match ?x with _ => _ end) => destruct x
      | |- tcalm (if ?b then _ else _) => destruct b
      end ].

Ltac tadds_step :=
  first
    [ apply tadds_ret
    | apply tadds_raise
    | apply tadds_lift
    | apply tadds_await; reflexivity
    | apply tadds_bind; [|intros ?]
    | apply tadds_catch; [|intros ?]
    | progress cbv zeta
    | match goal with
      | |- tadds _ (match ?x with _ => _ end) => destruct x
      | |- tadds _ (if ?b then _ else _) => destruct b
      end ].

Section Agreement.
Variable W : World.
Variables email secret : string.

Lemma completion_agree (system : string) (image : option string) (text : string) :
  agree (LLMService.completion W system image text)
        (Tasks.completion (uncancelled W) system image text).
Proof. unfold LLMService.completion, Tasks.completion. repeat agree_step. Qed.

Lemma analyze_quiz_agree (q ctx : string) (img : option string) :
  agree (LLMService.analyze_quiz W q ctx img)
        (Tasks.analyze_quiz (uncancelled W) q ctx img).
Proof.
  unfold LLMService.analyze_quiz, Tasks.analyze_quiz.
  repeat first [apply completion_agree | agree_step].
Qed.

Lemma submit_answer_agree (sub url : string) (answer : pyval) :
  agree (AnswerSubmitter.submit_answer W email secret sub url answer)
        (Tasks.submit_answer (uncancelled W) email secret sub url answer).
Proof.
  unfold AnswerSubmitter.submit_answer, Tasks.submit_answer.
  repeat agree_step.
Qed.

Lemma solve_with_vision_agree (qc : QuizContent) (shot : string) :
  agree (QuizOrchestrator._solve_with_vision W qc shot)
        (Tasks._solve_with_vision (uncancelled W) qc shot).
Proof.
  unfold QuizOrchestrator._solve_with_vision, Tasks._solve_with_vision,
    LLMService.analyze_with_vision, Tasks.analyze_with_vision.
  repeat first [apply completion_agree | agree_step].
Qed.

Lemma solve_scraping_agree (qc : QuizContent) (base shot : string) :
  agree (QuizOrchestrator._solve_scraping_task W qc base shot)
        (Tasks._solve_scraping_task (uncancelled W) qc base shot).
Proof.
  unfold QuizOrchestrator._solve_scraping_task, Tasks._solve_scraping_task.
  repeat first [apply solve_with_vision_agree | apply analyze_quiz_agree
               | agree_step].
Qed.

Lemma solve_by_type_agree (qc : QuizContent) (shot base : string) :
  agree (QuizOrchestrator._solve_by_type W qc shot base)
        (Tasks._solve_by_type (uncancelled W) qc shot base).
Proof.
  unfold QuizOrchestrator._solve_by_type, Tasks._solve_by_type,
    QuizOrchestrator._solve_api_task, Tasks._solve_api_task,
    LLMService.analyze_with_vision, Tasks.analyze_with_vision.
  repeat first [apply solve_with_vision_agree | apply analyze_quiz_agree
               | apply solve_scraping_agree | apply completion_agree
               | agree_step].
Qed.

(** A step of the chain is the same in the two models when nothing is
    cancelled. *)
Lemma solve_single_quiz_agree (url : string) :
  agree (QuizOrchestrator.solve_single_quiz W email secret url)
        (Tasks.solve_single_quiz (uncancelled W) email secret url).
Proof.
  unfold QuizOrchestrator.solve_single_quiz, Tasks.solve_single_quiz.
  repeat first [apply solve_with_vision_agree | apply solve_by_type_agree
               | apply submit_answer_agree | agree_step].
Qed.

(** So is the loop: it is left with the same counter, results and
    trace. *)
Lemma chain_loop_agree (max_questions : Z) :
  forall fuel cur n res tr st,
    QuizOrchestrator.chain_loop W email secret fuel max_questions cur n res tr
    = Some st ->
    Tasks.chain_loop (uncancelled W) email secret fuel max_questions cur n res tr
    = (inr (Some (QuizOrchestrator.question_count st,
                  QuizOrchestrator.results st)),
       QuizOrchestrator.calls st).
Proof.
  induction fuel as [|fuel IH]; intros cur n res tr st H;
    destruct cur as [cur|]; cbn [QuizOrchestrator.chain_loop] in H;
    cbn [Tasks.chain_loop];
    try (injection H as <-; reflexivity);
    destruct (truthy cur && (n <? max_questions)%Z);
    try (injection H as <-; reflexivity); try discriminate H.
  cbv zeta in *. rewrite (solve_single_quiz_agree cur tr).
  destruct (QuizOrchestrator.solve_single_quiz W email secret cur tr)
    as [[e|result] tr']; cbn [raising fst snd].
  - injection H as <-. reflexivity.
  - now apply IH.
Qed.

Lemma solve_quiz_chain_agree (initial_url : string) (max_questions : Z)
  (res : list QuizResult) (tr : trace) (st : QuizOrchestrator.chain_state) :
  QuizOrchestrator.solve_quiz_chain W email secret initial_url max_questions
                                    res tr = Some st ->
  Tasks.solve_quiz_chain (uncancelled W) email secret initial_url max_questions
                         res tr
  = (inr (Some (QuizOrchestrator.question_count st,
                QuizOrchestrator.results st)),
     QuizOrchestrator.calls st).
Proof.
  unfold QuizOrchestrator.solve_quiz_chain, Tasks.solve_quiz_chain.
  destruct (QuizOrchestrator.chain_loop W email secret _ _ _ _ _ _)
    as [st'|] eqn:L; [|discriminate].
  intros [= <-]. unfold tbind at 1.
  rewrite (chain_loop_agree _ _ _ _ _ _ _ L). reflexivity.
Qed.

End Agreement.

(** *** What a task raises and which calls it makes *)

Section Program.
Variable E : Awaited.
Variables email secret : string.

(** A submission: the verdict, or what the POST was cancelled with. *)
Lemma task_submit_run (submission_url quiz_url : string) (answer : pyval)
  (tr : trace) :
  Tasks.submit_answer E email secret submission_url quiz_url answer tr
  = (match a_post E tr submission_url
                  (AnswerSubmitter.payload_of email secret quiz_url answer) with
     | inr response => inr (SubmitterSpec.verdict_of (inr response))
     | inl (Exception e) => inr (SubmitterSpec.verdict_of (inl e))
     | inl (BaseException e) => inl (BaseException e)
     end,
     (tr ++ [Post submission_url
                  (AnswerSubmitter.payload_of email secret quiz_url answer)])%list).
Proof.
  unfold Tasks.submit_answer, tcatch, tbind, await, tlift, tret,
    SubmitterSpec.verdict_of.
  destruct (a_post E tr submission_url _) as [[e|e]|response]; try reflexivity.
  now destruct (AnswerSubmitter.read_response response).
Qed.

Lemma completion_not_close (system : string) (image : option string)
  (text : string) :
  tadds ChainSpec.not_close (Tasks.completion E system image text).
Proof. unfold Tasks.completion. repeat tadds_step. Qed.

Lemma analyze_quiz_not_close (q ctx : string) (img : option string) :
  tadds ChainSpec.not_close (Tasks.analyze_quiz E q ctx img).
Proof.
  unfold Tasks.analyze_quiz.
  repeat first [apply completion_not_close | tadds_step].
Qed.

Lemma solve_with_vision_not_close (qc : QuizContent) (shot : string) :
  tadds ChainSpec.not_close (Tasks._solve_with_vision E qc shot).
Proof.
  unfold Tasks._solve_with_vision, Tasks.analyze_with_vision.
  repeat first [apply completion_not_close | tadds_step].
Qed.

Lemma solve_by_type_not_close (qc : QuizContent) (shot base : string) :
  tadds ChainSpec.not_close (Tasks._solve_by_type E qc shot base).
Proof.
  unfold Tasks._solve_by_type, Tasks._solve_scraping_task,
    Tasks._solve_api_task, Tasks.analyze_with_vision.
  repeat first [apply solve_with_vision_not_close | apply analyze_quiz_not_close
               | apply completion_not_close | tadds_step].
Qed.

Lemma submit_answer_not_close (sub url : string) (answer : pyval) :
  tadds ChainSpec.not_close (Tasks.submit_answer E email secret sub url answer).
Proof. unfold Tasks.submit_answer. repeat tadds_step. Qed.

(** A step never closes the submitter. *)
Lemma solve_single_quiz_not_close (url : string) :
  tadds ChainSpec.not_close (Tasks.solve_single_quiz E email secret url).
Proof.
  unfold Tasks.solve_single_quiz.
  repeat first [apply solve_with_vision_not_close | apply solve_by_type_not_close
               | apply submit_answer_not_close | tadds_step].
Qed.

(** A step begins with the rendering of its page. *)
Lemma solve_single_quiz_starts (url : string) (tr : trace) :
  exists rest,
    snd (Tasks.solve_single_quiz E email secret url tr)
    = (tr ++ Render url :: rest)%list.
Proof.
  unfold Tasks.solve_single_quiz.
  apply (tadds_starts ChainSpec.not_close). intros page_data.
  repeat first [apply solve_with_vision_not_close | apply solve_by_type_not_close
               | apply submit_answer_not_close | tadds_step].
Qed.

(** While nothing is cancelled a step raises exceptions only. *)
Lemma completion_calm (system : string) (image : option string) (text : string) :
  unhurried E -> tcalm (Tasks.completion E system image text).
Proof.
  intros (_ & _ & Hc & _). unfold Tasks.completion.
  apply tcalm_bind; [apply tcalm_await; intros tr e; apply Hc|].
  intros [c|]; [apply tcalm_ret | apply tcalm_raise].
Qed.

Lemma analyze_quiz_calm (q ctx : string) (img : option string) :
  unhurried E -> tcalm (Tasks.analyze_quiz E q ctx img).
Proof.
  intros HE. unfold Tasks.analyze_quiz.
  repeat first [apply (completion_calm _ _ _ HE) | tcalm_step].
Qed.

Lemma task_vision_calm (qc : QuizContent) (shot : string) :
  unhurried E -> tcalm (Tasks._solve_with_vision E qc shot).
Proof.
  intros HE. unfold Tasks._solve_with_vision, Tasks.analyze_with_vision.
  repeat first [apply (completion_calm _ _ _ HE) | tcalm_step].
Qed.

Lemma solve_by_type_calm (qc : QuizContent) (shot base : string) :
  unhurried E -> tcalm (Tasks._solve_by_type E qc shot base).
Proof.
  intros HE. pose proof HE as (_ & Hg & _ & Hp & Hd & _).
  unfold Tasks._solve_by_type, Tasks._solve_scraping_task,
    Tasks._solve_api_task, Tasks.analyze_with_vision.
  repeat first [ apply (task_vision_calm _ _ HE)
               | apply (analyze_quiz_calm _ _ _ HE)
               | apply (completion_calm _ _ _ HE)
               | apply tcalm_await; intros tr e;
                 first [apply Hg | apply Hp | apply Hd]
               | tcalm_step ].
Qed.

Lemma submit_answer_calm (sub url : string) (answer : pyval) :
  unhurried E -> tcalm (Tasks.submit_answer E email secret sub url answer).
Proof.
  intros (_ & _ & _ & _ & _ & Hp & _) tr e. rewrite task_submit_run.
  cbn [fst]. specialize (Hp tr sub
                           (AnswerSubmitter.payload_of email secret url answer)).
  destruct (a_post E tr sub _) as [[x|x]|response]; try discriminate.
  now destruct (Hp x).
Qed.

Lemma solve_single_quiz_calm (url : string) :
  unhurried E -> tcalm (Tasks.solve_single_quiz E email secret url).
Proof.
  intros HE. pose proof HE as (Hr & _).
  unfold Tasks.solve_single_quiz.
  repeat first [ apply (task_vision_calm _ _ HE)
               | apply (solve_by_type_calm _ _ _ HE)
               | apply (submit_answer_calm _ _ _ HE)
               | apply tcalm_await; intros tr e; apply Hr
               | tcalm_step ].
Qed.

(** The loop: it adds no closing call; when it is left by a failure, the
    failure is no exception and was raised by a step; otherwise it is left
    with results that extend the ones it was entered with, by one at most
    for each page rendered. *)
Lemma chain_loop_outcome (max_questions : Z) :
  forall fuel cur n res tr,
    exists added,
      snd (Tasks.chain_loop E email secret fuel max_questions cur n res tr)
      = (tr ++ added)%list
      /\ forallb ChainSpec.not_close added = true
      /\ match fst (Tasks.chain_loop E email secret fuel max_questions cur n
                                     res tr) with
         | inl f => exists e, f = BaseException e
         | inr (Some (n', res')) =>
             exists more,
               res' = (res ++ more)%list
               /\ (List.length more <= count is_render added)%nat
         | inr None => (Z.of_nat fuel < max_questions - n)%Z
         end.
Proof.
  assert (Stop : forall (res : list QuizResult) (tr : trace),
            exists added : trace,
              tr = (tr ++ added)%list
              /\ forallb ChainSpec.not_close added = true
              /\ exists more : list QuizResult,
                   res = (res ++ more)%list
                   /\ (List.length more <= count is_render added)%nat).
  { intros res tr. exists []. rewrite app_nil_r.
    repeat split. exists []. rewrite app_nil_r. split; [reflexivity|].
    simpl. lia. }
  induction fuel as [|fuel IH]; intros cur n res tr;
    destruct cur as [cur|]; cbn [Tasks.chain_loop];
    try (cbn [tret fst snd]; apply Stop);
    destruct (truthy cur && (n <? max_questions)%Z) eqn:G;
    try (cbn [tret fst snd]; apply Stop).
  - exists []. rewrite app_nil_r. cbn [tret fst snd]. repeat split.
    apply andb_true_iff in G as [_ G]. apply Z.ltb_lt in G. lia.
  - cbv zeta.
    destruct (solve_single_quiz_not_close cur tr) as (a1 & E1 & P1).
    destruct (solve_single_quiz_starts cur tr) as (rest & S1).
    rewrite E1 in S1. apply app_inv_head in S1. subst a1.
    destruct (Tasks.solve_single_quiz E email secret cur tr)
      as [[[e|e]|result] tr']; cbn [snd] in E1; subst tr'.
    + exists (Render cur :: rest). cbn [fst snd]. repeat split; [exact P1|].
      exists []. rewrite app_nil_r. split; [reflexivity|]. simpl. lia.
    + exists (Render cur :: rest). cbn [fst snd]. repeat split; [exact P1|].
      now exists e.
    + destruct (IH (Models.url result) (n + 1)%Z (res ++ [result])%list
                   (tr ++ Render cur :: rest)%list) as (a2 & E2 & P2 & O2).
      exists ((Render cur :: rest) ++ a2)%list.
      rewrite E2, app_assoc, forallb_app, P1, P2.
      repeat split.
      destruct (fst (Tasks.chain_loop E email secret fuel max_questions
                       (Models.url result) (n + 1) (res ++ [result])%list
                       (tr ++ Render cur :: rest)%list)) as [f|[[n' res']|]].
      * exact O2.
      * destruct O2 as (more & -> & Hlen). exists (result :: more).
        rewrite <- app_assoc. split; [reflexivity|].
        rewrite EffectFacts.count_app.
        change (count is_render (Render cur :: rest))
          with (S (count is_render rest)).
        simpl. lia.
      * lia.
Qed.

Lemma chain_loop_calm (max_questions : Z) :
  unhurried E ->
  forall fuel cur n res,
    tcalm (Tasks.chain_loop E email secret fuel max_questions cur n res).
Proof.
  intros HE. induction fuel as [|fuel IH]; intros cur n res tr e;
    destruct cur as [cur|]; cbn [Tasks.chain_loop]; try discriminate;
    destruct (truthy cur && (n <? max_questions)%Z); try discriminate.
  cbv zeta.
  pose proof (solve_single_quiz_calm cur HE tr) as Hs.
  destruct (Tasks.solve_single_quiz E email secret cur tr)
    as [[[x|x]|result] tr']; cbn [fst] in *.
  - discriminate.
  - now destruct (Hs x).
  - apply IH.
Qed.

End Program.




(** A step, after a page that renders and names a submission endpoint. *)
Lemma task_step_run (E : Awaited) (email secret url : string)
  (tr : trace) (page : html) (shot sub : string) :
  a_render E tr url = inr (page, shot) ->
  truthy (submission_url (QuizParser.parse_quiz_page page url)) = true ->
  QuizParser.make_absolute_url
    (submission_url (QuizParser.parse_quiz_page page url)) url = inr sub ->
  Tasks.solve_single_quiz E email secret url tr
  = (answer <- Tasks._solve_by_type E (QuizParser.parse_quiz_page page url)
                                     shot url ;;
     result <- Tasks.submit_answer E email secret sub url answer ;;
     if negb (correct result)
        && match Models.url result with None => true | Some _ => false end
     then
       answer <- Tasks._solve_with_vision E (QuizParser.parse_quiz_page page url)
                                          shot ;;
       result <- Tasks.submit_answer E email secret sub url answer ;;
       tret result
     else tret result) (tr ++ [Render url])%list.
Proof.
  intros Hr Ht Ha. unfold Tasks.solve_single_quiz.
  unfold tbind at 1. unfold await at 1. rewrite Hr.
  cbn [fst snd]. rewrite Ht. cbn [negb].
  unfold tbind at 1. unfold tlift at 1. rewrite Ha. reflexivity.
Qed.

(** X21.  What makes a step fail.  A step raises only what was raised
    by the rendering, by making the submission endpoint absolute, by the
    solver, by the visual analysis of the retry, or, when it is no
    [Exception], by one of the two POSTs.  A submission that fails with an
    exception never makes the step fail: only what the task is cancelled
    with goes through [submit_answer]. *)
Theorem step_failure_sources :
  forall (E : Awaited) (email secret url : string) (tr tr' : trace)
         (f : failure),
    Tasks.solve_single_quiz E email secret url tr = (inl f, tr') ->
    (a_render E tr url = inl f /\ tr' = (tr ++ [Render url])%list)
    \/ exists page shot,
         let quiz_content := QuizParser.parse_quiz_page page url in
         a_render E tr url = inr (page, shot)
         /\ truthy (submission_url quiz_content) = true
         /\ ((exists e,
                QuizParser.make_absolute_url (submission_url quiz_content) url
                = inl e
                /\ f = Exception e
                /\ tr' = (tr ++ [Render url])%list)
             \/ exists sub,
                  QuizParser.make_absolute_url (submission_url quiz_content) url
                  = inr sub
                  /\ (Tasks._solve_by_type E quiz_content shot url
                                           (tr ++ [Render url])%list
                      = (inl f, tr')
                      \/ exists answer tr1,
                           let post1 :=
                             Post sub (AnswerSubmitter.payload_of email secret
                                                                 url answer) in
                           Tasks._solve_by_type E quiz_content shot url
                                                (tr ++ [Render url])%list
                           = (inr answer, tr1)
                           /\ ((exists e,
                                  f = BaseException e
                                  /\ a_post E tr1 sub
                                       (AnswerSubmitter.payload_of email secret
                                                                   url answer)
                                     = inl f
                                  /\ tr' = (tr1 ++ [post1])%list)
                               \/ Tasks._solve_with_vision E quiz_content shot
                                    (tr1 ++ [post1])%list = (inl f, tr')
                               \/ exists answer2 tr2 e,
                                    Tasks._solve_with_vision E quiz_content shot
                                      (tr1 ++ [post1])%list = (inr answer2, tr2)
                                    /\ f = BaseException e
                                    /\ a_post E tr2 sub
                                         (AnswerSubmitter.payload_of
                                            email secret url answer2)
                                       = inl f
                                    /\ tr'
                                       = (tr2 ++ [Post sub
                                                    (AnswerSubmitter.payload_of
                                                       email secret url
                                                       answer2)])%list))).
Proof.
  intros E email secret url tr tr' f H.
  destruct (a_render E tr url) as [f0|[page shot]] eqn:Hr.
  - left. unfold Tasks.solve_single_quiz, tbind at 1, await at 1 in H.
    rewrite Hr in H. injection H as <- <-. auto.
  - right. exists page, shot. cbv zeta. split; [reflexivity|].
    destruct (truthy (submission_url (QuizParser.parse_quiz_page page url)))
      eqn:Ht.
    2:{ unfold Tasks.solve_single_quiz, tbind at 1, await at 1 in H.
        rewrite Hr in H. cbn [fst snd] in H. rewrite Ht in H.
        discriminate H. }
    split; [reflexivity|].
    destruct (QuizParser.make_absolute_url
                (submission_url (QuizParser.parse_quiz_page page url)) url)
      as [e0|sub] eqn:Ha.
    + left. exists e0. split; [reflexivity|].
      unfold Tasks.solve_single_quiz, tbind at 1, await at 1 in H.
      rewrite Hr in H. cbn [fst snd] in H. rewrite Ht in H. cbn [negb] in H.
      unfold tbind at 1, tlift at 1 in H. rewrite Ha in H.
      injection H as <- <-. auto.
    + right. exists sub. split; [reflexivity|].
      rewrite (task_step_run E email secret url tr page shot sub Hr Ht Ha)
        in H.
      unfold tbind at 1 in H.
      destruct (Tasks._solve_by_type E _ shot url _) as [[f0|answer] tr1] eqn:Hd.
      * left. now injection H as <- <-.
      * right. exists answer, tr1. split; [reflexivity|].
        unfold tbind at 1 in H. rewrite task_submit_run in H.
        destruct (a_post E tr1 sub _) as [[x|x]|response] eqn:Hp.
        -- right.
           destruct (negb _ && _); [|discriminate H].
           unfold tbind at 1 in H.
           destruct (Tasks._solve_with_vision E _ shot _)
             as [[f0|answer2] tr2] eqn:Hv.
           ++ left. now injection H as <- <-.
           ++ right. unfold tbind at 1 in H. rewrite task_submit_run in H.
              destruct (a_post E tr2 sub _) as [[y|y]|response2] eqn:Hp2;
                try discriminate H.
              injection H as <- <-. now exists answer2, tr2, y.
        -- left. injection H as <- <-. now exists x.
        -- right.
           destruct (negb _ && _); [|discriminate H].
           unfold tbind at 1 in H.
           destruct (Tasks._solve_with_vision E _ shot _)
             as [[f0|answer2] tr2] eqn:Hv.
           ++ left. now injection H as <- <-.
           ++ right. unfold tbind at 1 in H. rewrite task_submit_run in H.
              destruct (a_post E tr2 sub _) as [[y|y]|response2] eqn:Hp2;
                try discriminate H.
              injection H as <- <-. now exists answer2, tr2, y.
Qed.

(** X21 when the deadline passes while the answer is submitted: the
    cancellation of the first POST is what the step raises. *)
Lemma step_failure_sources_witness :
  exists answer tr1,
    Tasks._solve_by_type deadline_at_post
      (QuizParser.parse_quiz_page question_page "https://h/q1") "shot"
      "https://h/q1" [Render "https://h/q1"] = (inr answer, tr1)
    /\ a_post deadline_at_post tr1 "https://h/submit"
         (AnswerSubmitter.payload_of "me" "key" "https://h/q1" answer)
       = inl (BaseException cancelled_error).
Proof.
  destruct (step_failure_sources deadline_at_post "me" "key" "https://h/q1" []
              [Render "https://h/q1";
               OrchestratorSpec.vision_call
                 (QuizParser.parse_quiz_page question_page "https://h/q1") "shot";
               Post "https://h/submit"
                    (AnswerSubmitter.payload_of "me" "key" "https://h/q1" (PInt 4))]
              (BaseException cancelled_error) eq_refl)
    as [[Hr _]|(page & shot & Hr & _ & [(e & _ & Hf & _)|(sub & Ha & Hsrc)])].
  - discriminate Hr.
  - discriminate Hf.
  - injection Hr as <- <-. injection Ha as <-.
    destruct Hsrc as [Hd|(answer & tr1 & Hd & _)]; [discriminate Hd|].
    exists answer, tr1. split; [exact Hd | reflexivity].
Defined.

(** X12.  The chain closes the submitter once, as its last call, after
    every loop that is left without a cancellation: when the loop ends,
    and when the exception of a step breaks it.  Then the results recorded
    before are kept, and at most one is added for each page rendered.
    What a step raises that is no [Exception] leaves the loop and the chain
    at once, and then the submitter is not closed.  The chain raises
    nothing else, but what the closing itself raises.  While nothing is
    cancelled the loop is always followed by the closing.  A chain whose
    first URL is empty, or whose maximum is not positive, renders nothing:
    it only closes the submitter. *)
Theorem chain_closes_unless_cancelled :
  forall (E : Awaited) (email secret initial_url : string) (max_questions : Z)
         (res : list QuizResult) (tr : trace),
    let run :=
      Tasks.solve_quiz_chain E email secret initial_url max_questions res tr in
    (exists before,
       count ChainSpec.is_close before = 0%nat
       /\ ((exists n more,
              run = (inr (Some (n, (res ++ more)%list)),
                     (tr ++ before ++ [Close])%list)
              /\ a_close E (tr ++ before)%list = inr tt
              /\ (List.length more <= count is_render before)%nat)
           \/ (exists f,
                 run = (inl f, (tr ++ before ++ [Close])%list)
                 /\ a_close E (tr ++ before)%list = inl f)
           \/ (exists e, run = (inl (BaseException e), (tr ++ before)%list))))
    /\ (unhurried E ->
        exists before,
          snd run = (tr ++ before ++ [Close])%list
          /\ count ChainSpec.is_close before = 0%nat
          /\ forall e, fst run <> inl (BaseException e))
    /\ (truthy initial_url = false \/ (max_questions <= 0)%Z ->
        snd run = (tr ++ [Close])%list
        /\ (a_close E tr = inr tt -> fst run = inr (Some (0%Z, res)))).
Proof.
  intros E email secret initial_url max_questions res tr run.
  assert (R : run
              = match Tasks.chain_loop E email secret (Z.to_nat max_questions)
                        max_questions (Some initial_url) 0 res tr with
                | (inr ended, tr1) =>
                    match a_close E tr1 with
                    | inr _ => (inr ended, (tr1 ++ [Close])%list)
                    | inl f => (inl f, (tr1 ++ [Close])%list)
                    end
                | (inl f, tr1) => (inl f, tr1)
                end).
  { unfold run, Tasks.solve_quiz_chain, tbind, Tasks.close, await, tret.
    destruct (Tasks.chain_loop E email secret _ max_questions _ 0 res tr)
      as [[f|ended] tr1]; [reflexivity|].
    now destruct (a_close E tr1). }
  clearbody run. subst run.
  destruct (chain_loop_outcome E email secret max_questions
              (Z.to_nat max_questions) (Some initial_url) 0%Z res tr)
    as (added & Ea & Pa & Oa).
  assert (Ca : count ChainSpec.is_close added = 0%nat)
    by (apply EffectFacts.count_none; exact Pa).
  split; [|split].
  - exists added. split; [exact Ca|].
    destruct (Tasks.chain_loop E email secret _ max_questions _ 0 res tr)
      as [[f|[[n res']|]] tr1]; cbn [fst snd] in *; subst tr1.
    + right. right. destruct Oa as (e & ->). now exists e.
    + destruct Oa as (more & -> & Hlen).
      destruct (a_close E (tr ++ added)%list) as [f|[]] eqn:Hc.
      * right. left. exists f. now rewrite app_assoc.
      * left. exists n, more. now rewrite app_assoc.
    + lia.
  - intros HE. exists added.
    pose proof (chain_loop_calm E email secret max_questions HE
                  (Z.to_nat max_questions) (Some initial_url) 0%Z res tr) as Hl.
    pose proof HE as (_ & _ & _ & _ & _ & _ & Hclose).
    destruct (Tasks.chain_loop E email secret _ max_questions _ 0 res tr)
      as [[f|[[n res']|]] tr1]; cbn [fst snd] in *; subst tr1.
    + destruct Oa as (e & ->). now destruct (Hl e).
    + specialize (Hclose (tr ++ added)%list).
      destruct (a_close E (tr ++ added)%list) as [[x|x]|[]]; cbn [fst snd];
        rewrite app_assoc; repeat split; try exact Ca; try discriminate.
      now destruct (Hclose x).
    + lia.
  - intros Hstop.
    assert (L : Tasks.chain_loop E email secret (Z.to_nat max_questions)
                  max_questions (Some initial_url) 0 res tr
                = (inr (Some (0%Z, res)), tr)).
    { assert (G : truthy initial_url && (0 <? max_questions)%Z = false).
      { destruct Hstop as [H|H]; [now rewrite H|].
        apply andb_false_iff. right. apply Z.ltb_ge. lia. }
      destruct (Z.to_nat max_questions); cbn [Tasks.chain_loop];
        now rewrite G. }
    rewrite L. destruct (a_close E tr) as [f|[]]; cbn [fst snd].
    + split; [reflexivity | discriminate].
    + split; reflexivity.
Qed.

(** X12 when the deadline passes while the first page is rendered: the
    chain raises the cancellation after that one call, and the submitter
    is not closed. *)
Lemma chain_closes_unless_cancelled_witness :
  Tasks.solve_quiz_chain deadline_at_render "me" "key" "https://h/q1" 20 [] []
  = (inl (BaseException cancelled_error), [Render "https://h/q1"])
  /\ exists before,
       snd (Tasks.solve_quiz_chain
              (uncancelled world_always_wrong) "me" "key" "https://h/q1" 20 [] [])
       = ([] ++ before ++ [Close])%list
       /\ count ChainSpec.is_close before = 0%nat.
Proof.
  split; [reflexivity|].
  destruct (proj1 (proj2 (chain_closes_unless_cancelled
                            (uncancelled world_always_wrong) "me" "key"
                            "https://h/q1" 20 [] [])))
    as (before & Hs & Hc & _).
  - repeat split; intros; cbn; try discriminate;
      match goal with
      | |- raising ?x <> _ => destruct x; discriminate
      end.
  - now exists before.
Defined.

End TaskFacts.
